(** * DJ-de-Prompt-MIDI: the streaming playback engine and the MIDI dispatcher

    A shallow embedding of [LiveMusicHelper] (the playback engine: state
    machine, gapless scheduling of decoded chunks, prompt pushes, connection
    callbacks) and of [MidiDispatcher] (the [onmidimessage] handler).

    Conventions of the embedding.
    - The engine is embedded twice.  In [LiveMusicHelper] the numbers
      that carry seconds are exact rationals ([Q]), [=== 0] is
      [Qeq_bool _ 0] and [<] is [Qlt_bool]; it serves the properties that
      do not state the value of a sum of seconds.  In [LiveMusicHelper64]
      they are binary64 numbers with the code's own [+], [<] and [===];
      the properties that say which value the cursor takes are stated
      there.
    - Weights and normalised controller values, which the code compares
      and forwards but never adds, are exact rationals.
    - The engine object is a record; every method is a function from engine
      to engine.  What a method does to the outside world is kept in four
      logs inside the record: the events it dispatched, the calls it made on
      the remote session, the timeouts it armed and the buffer sources it
      started.
    - An [async] method is cut at each [await]: the part before the [await]
      and the continuation after it are separate functions, so that another
      turn of the event loop can run in between.
    - [audioContext.currentTime] is an argument ([now]) of the turn that
      reads it.
    - The gain ramps, the equaliser and the recorder hold no state that the
      state machine or the scheduler reads; they are left out, apart from the
      identity of the current output node. *)

From Stdlib Require Import ZArith QArith Lqa Lia List Bool Floats.
From Stdlib.Strings Require Import Byte.
From stdpp Require Import gmap strings list.
Import ListNotations.

Local Open Scope Q_scope.

(** ** Numbers *)

(** JavaScript [a < b] on numbers. *)
Definition Qlt_bool (a b : Q) : bool := negb (Qle_bool b a).

Module Binary64.

(** The value of the finite binary64 number of significand [m] and exponent
    [e], counted in units of 2^-1074, the least positive binary64 number. *)
Definition units (m : positive) (e : Z) : Z := (Zpos m * 2 ^ (e + 1074))%Z.

End Binary64.

(** ** Data model *)

Module LiveMusicHelper.

(** [PlaybackState] of [../types]: the four string literals the engine uses. *)
Inductive PlaybackState : Type :=
| stopped
| playing
| loading
| paused.

(** [Prompt] of [../types]; the engine reads [text] and [weight] only. *)
Record Prompt : Type := {
  promptId : string;
  text : string;
  weight : Q;
  cc : Z;
  color : string
}.

(** [AudioChunk] of the remote protocol: [data] is base64 text and may be
    absent. *)
Record AudioChunk : Type := {
  data : option string
}.

(** The [AudioBuffer] that [decodeAudioData] resolves to.  Its [duration]
    attribute is its length in sample frames over its sample rate. *)
Record AudioBuffer : Type := {
  length : N;
  sampleRate : positive
}.

Definition duration (b : AudioBuffer) : Q := Z.of_N (length b) # sampleRate b.

(** A remote session handle. *)
Definition LiveMusicSession : Type := nat.

(** A gain node, by identity. *)
Definition GainNode : Type := nat.

(** One element of the list given to [session.setWeightedPrompts]. *)
Record WeightedPrompt : Type := {
  wp_text : string;
  wp_weight : Q
}.

(** Events the engine dispatches on itself. *)
Inductive Event : Type :=
| playback_state_changed (detail : PlaybackState)
| filtered_prompt (detail : string)
| error (detail : string).

(** Calls the engine makes on the remote session. *)
Inductive SessionCall : Type :=
| session_play (s : LiveMusicSession)
| session_pause (s : LiveMusicSession)
| session_stop (s : LiveMusicSession)
| session_setWeightedPrompts (s : LiveMusicSession) (weightedPrompts : list WeightedPrompt)
| session_sendControlChanges (s : LiveMusicSession) (pitchBend : Q).

(** The only callback the engine hands to [setTimeout]. *)
Inductive Callback : Type :=
| flip_to_playing.

(** A pending timeout: its callback and its delay in milliseconds. *)
Record Timer : Type := {
  callback : Callback;
  delay : Q
}.

(** A buffer source on which [start] was called: its buffer, the node it is
    connected to and the time given to [start]. *)
Record Source : Type := {
  buffer : AudioBuffer;
  destination : GainNode;
  startTime : Q
}.

(** The fields of [LiveMusicHelper] and the four logs. *)
Record Engine : Type := {
  session : option LiveMusicSession;
  sessionPromise : option LiveMusicSession;
  connectionError : bool;
  filteredPrompts : gset string;
  nextStartTime : Q;
  outputNode : GainNode;
  playbackState : PlaybackState;
  prompts : list (string * Prompt);
  dispatched : list Event;
  remote : list SessionCall;
  timers : list Timer;
  started : list Source
}.

Definition bufferTime : Q := 2.

(** The engine as the constructor leaves it. *)
Definition init : Engine := {|
  session := None;
  sessionPromise := None;
  connectionError := true;
  filteredPrompts := ∅;
  nextStartTime := 0;
  outputNode := 0%nat;
  playbackState := stopped;
  prompts := [];
  dispatched := [];
  remote := [];
  timers := [];
  started := []
|}.

(** *** Field updates *)

Definition set_session (v : option LiveMusicSession) (e : Engine) : Engine :=
  {| session := v; sessionPromise := sessionPromise e;
     connectionError := connectionError e; filteredPrompts := filteredPrompts e;
     nextStartTime := nextStartTime e; outputNode := outputNode e;
     playbackState := playbackState e; prompts := prompts e;
     dispatched := dispatched e; remote := remote e; timers := timers e;
     started := started e |}.

Definition set_sessionPromise (v : option LiveMusicSession) (e : Engine) : Engine :=
  {| session := session e; sessionPromise := v;
     connectionError := connectionError e; filteredPrompts := filteredPrompts e;
     nextStartTime := nextStartTime e; outputNode := outputNode e;
     playbackState := playbackState e; prompts := prompts e;
     dispatched := dispatched e; remote := remote e; timers := timers e;
     started := started e |}.

Definition set_connectionError (v : bool) (e : Engine) : Engine :=
  {| session := session e; sessionPromise := sessionPromise e;
     connectionError := v; filteredPrompts := filteredPrompts e;
     nextStartTime := nextStartTime e; outputNode := outputNode e;
     playbackState := playbackState e; prompts := prompts e;
     dispatched := dispatched e; remote := remote e; timers := timers e;
     started := started e |}.

Definition set_filteredPrompts (v : gset string) (e : Engine) : Engine :=
  {| session := session e; sessionPromise := sessionPromise e;
     connectionError := connectionError e; filteredPrompts := v;
     nextStartTime := nextStartTime e; outputNode := outputNode e;
     playbackState := playbackState e; prompts := prompts e;
     dispatched := dispatched e; remote := remote e; timers := timers e;
     started := started e |}.

Definition set_nextStartTime (v : Q) (e : Engine) : Engine :=
  {| session := session e; sessionPromise := sessionPromise e;
     connectionError := connectionError e; filteredPrompts := filteredPrompts e;
     nextStartTime := v; outputNode := outputNode e;
     playbackState := playbackState e; prompts := prompts e;
     dispatched := dispatched e; remote := remote e; timers := timers e;
     started := started e |}.

Definition set_outputNode (v : GainNode) (e : Engine) : Engine :=
  {| session := session e; sessionPromise := sessionPromise e;
     connectionError := connectionError e; filteredPrompts := filteredPrompts e;
     nextStartTime := nextStartTime e; outputNode := v;
     playbackState := playbackState e; prompts := prompts e;
     dispatched := dispatched e; remote := remote e; timers := timers e;
     started := started e |}.

Definition set_playbackState (v : PlaybackState) (e : Engine) : Engine :=
  {| session := session e; sessionPromise := sessionPromise e;
     connectionError := connectionError e; filteredPrompts := filteredPrompts e;
     nextStartTime := nextStartTime e; outputNode := outputNode e;
     playbackState := v; prompts := prompts e;
     dispatched := dispatched e; remote := remote e; timers := timers e;
     started := started e |}.

Definition set_prompts (v : list (string * Prompt)) (e : Engine) : Engine :=
  {| session := session e; sessionPromise := sessionPromise e;
     connectionError := connectionError e; filteredPrompts := filteredPrompts e;
     nextStartTime := nextStartTime e; outputNode := outputNode e;
     playbackState := playbackState e; prompts := v;
     dispatched := dispatched e; remote := remote e; timers := timers e;
     started := started e |}.

Definition set_timers (v : list Timer) (e : Engine) : Engine :=
  {| session := session e; sessionPromise := sessionPromise e;
     connectionError := connectionError e; filteredPrompts := filteredPrompts e;
     nextStartTime := nextStartTime e; outputNode := outputNode e;
     playbackState := playbackState e; prompts := prompts e;
     dispatched := dispatched e; remote := remote e; timers := v;
     started := started e |}.

(** *** Effects *)

(** [this.dispatchEvent(ev)]. *)
Definition dispatchEvent (ev : Event) (e : Engine) : Engine :=
  {| session := session e; sessionPromise := sessionPromise e;
     connectionError := connectionError e; filteredPrompts := filteredPrompts e;
     nextStartTime := nextStartTime e; outputNode := outputNode e;
     playbackState := playbackState e; prompts := prompts e;
     dispatched := dispatched e ++ [ev]; remote := remote e; timers := timers e;
     started := started e |}.

(** A method call on the remote session. *)
Definition call (c : SessionCall) (e : Engine) : Engine :=
  {| session := session e; sessionPromise := sessionPromise e;
     connectionError := connectionError e; filteredPrompts := filteredPrompts e;
     nextStartTime := nextStartTime e; outputNode := outputNode e;
     playbackState := playbackState e; prompts := prompts e;
     dispatched := dispatched e; remote := remote e ++ [c]; timers := timers e;
     started := started e |}.

(** [setTimeout(cb, ms)]; the handle it returns is dropped by the caller. *)
Definition setTimeout (cb : Callback) (ms : Q) (e : Engine) : Engine :=
  set_timers (timers e ++ [ {| callback := cb; delay := ms |} ]) e.

(** [source.start(when)] for a source made from [b] and connected to the
    current output node. *)
Definition start (b : AudioBuffer) (when : Q) (e : Engine) : Engine :=
  {| session := session e; sessionPromise := sessionPromise e;
     connectionError := connectionError e; filteredPrompts := filteredPrompts e;
     nextStartTime := nextStartTime e; outputNode := outputNode e;
     playbackState := playbackState e; prompts := prompts e;
     dispatched := dispatched e; remote := remote e; timers := timers e;
     started := started e ++
       [ {| buffer := b; destination := outputNode e; startTime := when |} ] |}.

(** ** Methods *)

Definition setPlaybackState (state : PlaybackState) (e : Engine) : Engine :=
  dispatchEvent (playback_state_changed state) (set_playbackState state e).

(** What the synchronous head of [processAudioChunks] ends in. *)
Inductive Entry : Type :=
| Returned
| Threw
| AwaitDecode (bytes : string).

(** [processAudioChunks] up to its [await]: the state guard, then the read of
    [audioChunks[0].data!].  Nothing is written before the [await].  An empty
    batch makes [audioChunks[0].data] throw; an absent [data], which the [!]
    rules out for the type checker only, is taken to throw in [decode] of
    [./audio]. *)
Definition processAudioChunks_enter (audioChunks : list AudioChunk) (e : Engine) : Entry :=
  match playbackState e with
  | paused | stopped => Returned
  | playing | loading =>
      match audioChunks with
      | [] => Threw
      | c :: _ =>
          match data c with
          | Some bytes => AwaitDecode bytes
          | None => Threw
          end
      end
  end.

(** The first [if] after the decode: on a cursor that reads 0 the cursor is
    set a [bufferTime] ahead of the clock and the timeout is armed. *)
Definition processAudioChunks_prime (now : Q) (e : Engine) : Engine :=
  if Qeq_bool (nextStartTime e) 0
  then setTimeout flip_to_playing (bufferTime * 1000)
         (set_nextStartTime (now + bufferTime) e)
  else e.

(** The second [if] and the two statements after it: a cursor behind the
    clock sends the engine back to loading and returns; otherwise the source
    is started at the cursor and the cursor moves on by the duration. *)
Definition processAudioChunks_schedule (now : Q) (audioBuffer : AudioBuffer)
    (e : Engine) : Engine :=
  if Qlt_bool (nextStartTime e) now
  then set_nextStartTime 0 (setPlaybackState loading e)
  else
    let e' := start audioBuffer (nextStartTime e) e in
    set_nextStartTime (nextStartTime e' + duration audioBuffer) e'.

(** [processAudioChunks] from the point where the decode has resolved to
    [audioBuffer]; [now] is [audioContext.currentTime]. *)
Definition processAudioChunks_resume (now : Q) (audioBuffer : AudioBuffer)
    (e : Engine) : Engine :=
  processAudioChunks_schedule now audioBuffer (processAudioChunks_prime now e).

(** [processAudioChunks] when no other turn runs during the decode. *)
Definition processAudioChunks (now : Q) (decoded : AudioBuffer)
    (audioChunks : list AudioChunk) (e : Engine) : Engine :=
  match processAudioChunks_enter audioChunks e with
  | AwaitDecode _ => processAudioChunks_resume now decoded e
  | Returned | Threw => e
  end.

(** The getter [activePrompts]: the values of the prompt map, in the map's
    order, without those whose text is filtered or whose weight is 0. *)
Definition activePrompts (e : Engine) : list Prompt :=
  List.filter
    (fun p => negb (bool_decide (text p ∈ filteredPrompts e)) && negb (Qeq_bool (weight p) 0))
    (List.map snd (prompts e)).

Definition pause (e : Engine) : Engine :=
  let e1 := match session e with
            | Some s => call (session_pause s) e
            | None => e
            end in
  let e2 := setPlaybackState paused e1 in
  let e3 := set_nextStartTime 0 e2 in
  set_outputNode (S (outputNode e3)) e3.

Definition stop (e : Engine) : Engine :=
  let e1 := match session e with
            | Some s => call (session_stop s) e
            | None => e
            end in
  let e2 := setPlaybackState stopped e1 in
  let e3 := set_nextStartTime 0 e2 in
  set_sessionPromise None (set_session None e3).

Definition no_active_prompt_message : string :=
  "É necessário ter pelo menos um prompt ativo para tocar.".

Definition connection_error_message : string :=
  "Erro de conexão, por favor, reinicie o áudio.".

(** The function mapped over the active prompts before the push. *)
Definition weighted (p : Prompt) : WeightedPrompt :=
  {| wp_text := text p; wp_weight := weight p |}.

(** The function given to [throttle] as [setWeightedPrompts], up to its
    [await].  ([throttle] itself only decides when this function runs and
    with which argument.) *)
Definition setWeightedPrompts (prompts : list (string * Prompt)) (e : Engine) : Engine :=
  let e1 := set_prompts prompts e in
  if (List.length (activePrompts e1) =? 0)%nat
  then pause (dispatchEvent (error no_active_prompt_message) e1)
  else
    match session e1 with
    | None => e1
    | Some s =>
        call (session_setWeightedPrompts s (List.map weighted (activePrompts e1))) e1
    end.

(** The [catch] of [setWeightedPrompts]: the remote call was rejected with
    [message]. *)
Definition setWeightedPrompts_rejected (message : string) (e : Engine) : Engine :=
  pause (dispatchEvent (error message) e).

(** The function given to [throttle] as [setPitchBend], up to its [await]. *)
Definition setPitchBend (value : Q) (e : Engine) : Engine :=
  match session e, playbackState e with
  | None, _ => e
  | Some _, (stopped | paused) => e
  | Some s, (playing | loading) => call (session_sendControlChanges s value) e
  end.

Definition setPitchBend_rejected (message : string) (e : Engine) : Engine :=
  dispatchEvent (error message) e.

(** [getSession]: [connect] is started only when no promise is pending;
    [fresh] is the session the new connection will resolve to. *)
Definition getSession (fresh : LiveMusicSession) (e : Engine) : Engine :=
  match sessionPromise e with
  | Some _ => e
  | None => set_sessionPromise (Some fresh) e
  end.

(** [play] up to [await this.getSession()]. *)
Definition play_enter (fresh : LiveMusicSession) (e : Engine) : Engine :=
  getSession fresh (setPlaybackState loading e).

(** [play] from the resolution of the session promise to [s] up to
    [await this.setWeightedPrompts(this.prompts)]. *)
Definition play_connected (s : LiveMusicSession) (e : Engine) : Engine :=
  set_session (Some s) e.

(** The tail of [play].  [this.session.play()] throws when a [stop] has
    nulled the handle in the meantime. *)
Definition play_resumed (e : Engine) : Engine :=
  match session e with
  | Some s => call (session_play s) e
  | None => e
  end.

(** [playPause], up to the first [await] of the method it selects. *)
Definition playPause (fresh : LiveMusicSession) (e : Engine) : Engine :=
  match playbackState e with
  | playing => pause e
  | paused | stopped => play_enter fresh e
  | loading => stop e
  end.

(** ** Connection callbacks *)

Record LiveMusicServerMessage : Type := {
  setupComplete : bool;
  filteredPrompt : option string;
  audioChunks : option (list AudioChunk)
}.

(** [onmessage] up to the [await] inside [processAudioChunks]: the engine
    after the synchronous part, and what the chunk processing entered. *)
Definition onmessage (m : LiveMusicServerMessage) (e : Engine) : Engine * Entry :=
  let e1 := if setupComplete m then set_connectionError false e else e in
  let e2 := match filteredPrompt m with
            | Some t =>
                dispatchEvent (filtered_prompt t)
                  (set_filteredPrompts (filteredPrompts e1 ∪ {[ t ]}) e1)
            | None => e1
            end in
  match audioChunks m with
  | Some chunks => (e2, processAudioChunks_enter chunks e2)
  | None => (e2, Returned)
  end.

Definition onerror (e : Engine) : Engine :=
  dispatchEvent (error connection_error_message)
    (stop (set_connectionError true e)).

Definition onclose (e : Engine) : Engine :=
  dispatchEvent (error connection_error_message)
    (stop (set_connectionError true e)).

(** ** Timers *)

Definition runCallback (cb : Callback) (e : Engine) : Engine :=
  match cb with
  | flip_to_playing => setPlaybackState playing e
  end.

(** The [i]-th pending timeout fires: it leaves the pending list and its
    callback runs.  Nothing happens when there is no such timeout. *)
Definition fireTimer (i : nat) (e : Engine) : Engine :=
  match timers e !! i with
  | Some t => runCallback (callback t) (set_timers (delete i (timers e)) e)
  | None => e
  end.

(** ** Turns of the event loop *)

(** Everything that can run on the engine in one turn. *)
Inductive Turn : Type :=
| TMessage (m : LiveMusicServerMessage)
| TDecoded (now : Q) (audioBuffer : AudioBuffer)
| TError
| TClose
| TTimer (i : nat)
| TPlay (fresh : LiveMusicSession)
| TPlayConnected (s : LiveMusicSession)
| TPlayResumed
| TPause
| TStop
| TPlayPause (fresh : LiveMusicSession)
| TSetWeightedPrompts (prompts : list (string * Prompt))
| TSetWeightedPromptsRejected (message : string)
| TSetPitchBend (value : Q)
| TSetPitchBendRejected (message : string).

Definition turn (t : Turn) (e : Engine) : Engine :=
  match t with
  | TMessage m => fst (onmessage m e)
  | TDecoded now b => processAudioChunks_resume now b e
  | TError => onerror e
  | TClose => onclose e
  | TTimer i => fireTimer i e
  | TPlay fresh => play_enter fresh e
  | TPlayConnected s => play_connected s e
  | TPlayResumed => play_resumed e
  | TPause => pause e
  | TStop => stop e
  | TPlayPause fresh => playPause fresh e
  | TSetWeightedPrompts ps => setWeightedPrompts ps e
  | TSetWeightedPromptsRejected msg => setWeightedPrompts_rejected msg e
  | TSetPitchBend v => setPitchBend v e
  | TSetPitchBendRejected msg => setPitchBend_rejected msg e
  end.

Definition run (ts : list Turn) (e : Engine) : Engine :=
  List.fold_left (fun acc t => turn t acc) ts e.

End LiveMusicHelper.

(** ** The engine with its clock in binary64

    The same engine with every number of seconds a binary64 value, as the
    code has it: [+] is [PrimFloat.add], which rounds to nearest even, [<]
    is [PrimFloat.ltb] and [=== 0] is [PrimFloat.eqb _ 0].  The types that
    carry no seconds are those of [LiveMusicHelper]; the methods are the
    same text over the new record. *)

Module LiveMusicHelper64.
Import LiveMusicHelper.

(** The [AudioBuffer] that [decodeAudioData] resolves to.  The engine reads
    its [duration] attribute only, a number of seconds. *)
Record AudioBuffer : Type := {
  duration : float
}.

(** A pending timeout: its callback and its delay in milliseconds. *)
Record Timer : Type := {
  callback : Callback;
  delay : float
}.

(** A buffer source on which [start] was called: its buffer, the node it is
    connected to and the time given to [start]. *)
Record Source : Type := {
  buffer : AudioBuffer;
  destination : GainNode;
  startTime : float
}.

(** The fields of [LiveMusicHelper] and the four logs. *)
Record Engine : Type := {
  session : option LiveMusicSession;
  sessionPromise : option LiveMusicSession;
  connectionError : bool;
  filteredPrompts : gset string;
  nextStartTime : float;
  outputNode : GainNode;
  playbackState : PlaybackState;
  prompts : list (string * Prompt);
  dispatched : list Event;
  remote : list SessionCall;
  timers : list Timer;
  started : list Source
}.

Definition bufferTime : float := 2%float.

(** The engine as the constructor leaves it. *)
Definition init : Engine := {|
  session := None;
  sessionPromise := None;
  connectionError := true;
  filteredPrompts := ∅;
  nextStartTime := 0%float;
  outputNode := 0%nat;
  playbackState := stopped;
  prompts := [];
  dispatched := [];
  remote := [];
  timers := [];
  started := []
|}.

(** *** Field updates *)

Definition set_session (v : option LiveMusicSession) (e : Engine) : Engine :=
  {| session := v; sessionPromise := sessionPromise e;
     connectionError := connectionError e; filteredPrompts := filteredPrompts e;
     nextStartTime := nextStartTime e; outputNode := outputNode e;
     playbackState := playbackState e; prompts := prompts e;
     dispatched := dispatched e; remote := remote e; timers := timers e;
     started := started e |}.

Definition set_sessionPromise (v : option LiveMusicSession) (e : Engine) : Engine :=
  {| session := session e; sessionPromise := v;
     connectionError := connectionError e; filteredPrompts := filteredPrompts e;
     nextStartTime := nextStartTime e; outputNode := outputNode e;
     playbackState := playbackState e; prompts := prompts e;
     dispatched := dispatched e; remote := remote e; timers := timers e;
     started := started e |}.

Definition set_connectionError (v : bool) (e : Engine) : Engine :=
  {| session := session e; sessionPromise := sessionPromise e;
     connectionError := v; filteredPrompts := filteredPrompts e;
     nextStartTime := nextStartTime e; outputNode := outputNode e;
     playbackState := playbackState e; prompts := prompts e;
     dispatched := dispatched e; remote := remote e; timers := timers e;
     started := started e |}.

Definition set_filteredPrompts (v : gset string) (e : Engine) : Engine :=
  {| session := session e; sessionPromise := sessionPromise e;
     connectionError := connectionError e; filteredPrompts := v;
     nextStartTime := nextStartTime e; outputNode := outputNode e;
     playbackState := playbackState e; prompts := prompts e;
     dispatched := dispatched e; remote := remote e; timers := timers e;
     started := started e |}.

Definition set_nextStartTime (v : float) (e : Engine) : Engine :=
  {| session := session e; sessionPromise := sessionPromise e;
     connectionError := connectionError e; filteredPrompts := filteredPrompts e;
     nextStartTime := v; outputNode := outputNode e;
     playbackState := playbackState e; prompts := prompts e;
     dispatched := dispatched e; remote := remote e; timers := timers e;
     started := started e |}.

Definition set_outputNode (v : GainNode) (e : Engine) : Engine :=
  {| session := session e; sessionPromise := sessionPromise e;
     connectionError := connectionError e; filteredPrompts := filteredPrompts e;
     nextStartTime := nextStartTime e; outputNode := v;
     playbackState := playbackState e; prompts := prompts e;
     dispatched := dispatched e; remote := remote e; timers := timers e;
     started := started e |}.

Definition set_playbackState (v : PlaybackState) (e : Engine) : Engine :=
  {| session := session e; sessionPromise := sessionPromise e;
     connectionError := connectionError e; filteredPrompts := filteredPrompts e;
     nextStartTime := nextStartTime e; outputNode := outputNode e;
     playbackState := v; prompts := prompts e;
     dispatched := dispatched e; remote := remote e; timers := timers e;
     started := started e |}.

Definition set_prompts (v : list (string * Prompt)) (e : Engine) : Engine :=
  {| session := session e; sessionPromise := sessionPromise e;
     connectionError := connectionError e; filteredPrompts := filteredPrompts e;
     nextStartTime := nextStartTime e; outputNode := outputNode e;
     playbackState := playbackState e; prompts := v;
     dispatched := dispatched e; remote := remote e; timers := timers e;
     started := started e |}.

Definition set_timers (v : list Timer) (e : Engine) : Engine :=
  {| session := session e; sessionPromise := sessionPromise e;
     connectionError := connectionError e; filteredPrompts := filteredPrompts e;
     nextStartTime := nextStartTime e; outputNode := outputNode e;
     playbackState := playbackState e; prompts := prompts e;
     dispatched := dispatched e; remote := remote e; timers := v;
     started := started e |}.

(** *** Effects *)

(** [this.dispatchEvent(ev)]. *)
Definition dispatchEvent (ev : Event) (e : Engine) : Engine :=
  {| session := session e; sessionPromise := sessionPromise e;
     connectionError := connectionError e; filteredPrompts := filteredPrompts e;
     nextStartTime := nextStartTime e; outputNode := outputNode e;
     playbackState := playbackState e; prompts := prompts e;
     dispatched := dispatched e ++ [ev]; remote := remote e; timers := timers e;
     started := started e |}.

(** A method call on the remote session. *)
Definition call (c : SessionCall) (e : Engine) : Engine :=
  {| session := session e; sessionPromise := sessionPromise e;
     connectionError := connectionError e; filteredPrompts := filteredPrompts e;
     nextStartTime := nextStartTime e; outputNode := outputNode e;
     playbackState := playbackState e; prompts := prompts e;
     dispatched := dispatched e; remote := remote e ++ [c]; timers := timers e;
     started := started e |}.

(** [setTimeout(cb, ms)]; the handle it returns is dropped by the caller. *)
Definition setTimeout (cb : Callback) (ms : float) (e : Engine) : Engine :=
  set_timers (timers e ++ [ {| callback := cb; delay := ms |} ]) e.

(** [source.start(when)] for a source made from [b] and connected to the
    current output node. *)
Definition start (b : AudioBuffer) (when : float) (e : Engine) : Engine :=
  {| session := session e; sessionPromise := sessionPromise e;
     connectionError := connectionError e; filteredPrompts := filteredPrompts e;
     nextStartTime := nextStartTime e; outputNode := outputNode e;
     playbackState := playbackState e; prompts := prompts e;
     dispatched := dispatched e; remote := remote e; timers := timers e;
     started := started e ++
       [ {| buffer := b; destination := outputNode e; startTime := when |} ] |}.

(** *** Methods *)

Definition setPlaybackState (state : PlaybackState) (e : Engine) : Engine :=
  dispatchEvent (playback_state_changed state) (set_playbackState state e).

(** [processAudioChunks] up to its [await]: the state guard of line 120,
    then the read of [audioChunks[0].data!]. *)
Definition processAudioChunks_enter (audioChunks : list AudioChunk) (e : Engine) : Entry :=
  match playbackState e with
  | paused | stopped => Returned
  | playing | loading =>
      match audioChunks with
      | [] => Threw
      | c :: _ =>
          match data c with
          | Some bytes => AwaitDecode bytes
          | None => Threw
          end
      end
  end.

(** Lines 130-135: on a cursor that [=== 0] the cursor becomes the rounded
    sum of the clock and [bufferTime], and the timeout is armed with the
    product [bufferTime * 1000]. *)
Definition processAudioChunks_prime (now : float) (e : Engine) : Engine :=
  if (nextStartTime e =? 0)%float
  then setTimeout flip_to_playing (bufferTime * 1000)%float
         (set_nextStartTime (now + bufferTime)%float e)
  else e.

(** Lines 136-142: a cursor [<] the clock sends the engine back to loading
    and returns; otherwise the source is started at the cursor and the
    cursor becomes the rounded sum of itself and the buffer's duration. *)
Definition processAudioChunks_schedule (now : float) (audioBuffer : AudioBuffer)
    (e : Engine) : Engine :=
  if (nextStartTime e <? now)%float
  then set_nextStartTime 0%float (setPlaybackState loading e)
  else
    let e' := start audioBuffer (nextStartTime e) e in
    set_nextStartTime (nextStartTime e' + duration audioBuffer)%float e'.

(** [processAudioChunks] from the point where the decode has resolved to
    [audioBuffer]; [now] is [audioContext.currentTime]. *)
Definition processAudioChunks_resume (now : float) (audioBuffer : AudioBuffer)
    (e : Engine) : Engine :=
  processAudioChunks_schedule now audioBuffer (processAudioChunks_prime now e).

(** [processAudioChunks] when no other turn runs during the decode. *)
Definition processAudioChunks (now : float) (decoded : AudioBuffer)
    (audioChunks : list AudioChunk) (e : Engine) : Engine :=
  match processAudioChunks_enter audioChunks e with
  | AwaitDecode _ => processAudioChunks_resume now decoded e
  | Returned | Threw => e
  end.

(** The getter [activePrompts]. *)
Definition activePrompts (e : Engine) : list Prompt :=
  List.filter
    (fun p => negb (bool_decide (text p ∈ filteredPrompts e)) && negb (Qeq_bool (weight p) 0))
    (List.map snd (prompts e)).

Definition pause (e : Engine) : Engine :=
  let e1 := match session e with
            | Some s => call (session_pause s) e
            | None => e
            end in
  let e2 := setPlaybackState paused e1 in
  let e3 := set_nextStartTime 0%float e2 in
  set_outputNode (S (outputNode e3)) e3.

Definition stop (e : Engine) : Engine :=
  let e1 := match session e with
            | Some s => call (session_stop s) e
            | None => e
            end in
  let e2 := setPlaybackState stopped e1 in
  let e3 := set_nextStartTime 0%float e2 in
  set_sessionPromise None (set_session None e3).

(** The function given to [throttle] as [setWeightedPrompts], up to its
    [await]. *)
Definition setWeightedPrompts (prompts : list (string * Prompt)) (e : Engine) : Engine :=
  let e1 := set_prompts prompts e in
  if (List.length (activePrompts e1) =? 0)%nat
  then pause (dispatchEvent (error no_active_prompt_message) e1)
  else
    match session e1 with
    | None => e1
    | Some s =>
        call (session_setWeightedPrompts s
                (List.map (fun p => {| wp_text := text p; wp_weight := weight p |})
                   (activePrompts e1))) e1
    end.

(** The [catch] of [setWeightedPrompts]. *)
Definition setWeightedPrompts_rejected (message : string) (e : Engine) : Engine :=
  pause (dispatchEvent (error message) e).

(** The function given to [throttle] as [setPitchBend], up to its [await]. *)
Definition setPitchBend (value : Q) (e : Engine) : Engine :=
  match session e, playbackState e with
  | None, _ => e
  | Some _, (stopped | paused) => e
  | Some s, (playing | loading) => call (session_sendControlChanges s value) e
  end.

Definition setPitchBend_rejected (message : string) (e : Engine) : Engine :=
  dispatchEvent (error message) e.

(** [getSession]: [connect] is started only when no promise is pending. *)
Definition getSession (fresh : LiveMusicSession) (e : Engine) : Engine :=
  match sessionPromise e with
  | Some _ => e
  | None => set_sessionPromise (Some fresh) e
  end.

(** [play] up to [await this.getSession()]. *)
Definition play_enter (fresh : LiveMusicSession) (e : Engine) : Engine :=
  getSession fresh (setPlaybackState loading e).

(** [play] from the resolution of the session promise to [s] up to
    [await this.setWeightedPrompts(this.prompts)]. *)
Definition play_connected (s : LiveMusicSession) (e : Engine) : Engine :=
  set_session (Some s) e.

(** The call of line 204, when [throttle] lets it through: the stored
    prompts are pushed again. *)
Definition play_push (e : Engine) : Engine :=
  setWeightedPrompts (prompts e) e.

(** The tail of [play]. *)
Definition play_resumed (e : Engine) : Engine :=
  match session e with
  | Some s => call (session_play s) e
  | None => e
  end.

(** [playPause], up to the first [await] of the method it selects. *)
Definition playPause (fresh : LiveMusicSession) (e : Engine) : Engine :=
  match playbackState e with
  | playing => pause e
  | paused | stopped => play_enter fresh e
  | loading => stop e
  end.

(** *** Connection callbacks *)

Definition onmessage (m : LiveMusicServerMessage) (e : Engine) : Engine * Entry :=
  let e1 := if setupComplete m then set_connectionError false e else e in
  let e2 := match filteredPrompt m with
            | Some t =>
                dispatchEvent (filtered_prompt t)
                  (set_filteredPrompts (filteredPrompts e1 ∪ {[ t ]}) e1)
            | None => e1
            end in
  match audioChunks m with
  | Some chunks => (e2, processAudioChunks_enter chunks e2)
  | None => (e2, Returned)
  end.

Definition onerror (e : Engine) : Engine :=
  dispatchEvent (error connection_error_message)
    (stop (set_connectionError true e)).

Definition onclose (e : Engine) : Engine :=
  dispatchEvent (error connection_error_message)
    (stop (set_connectionError true e)).

(** *** Timers *)

Definition runCallback (cb : Callback) (e : Engine) : Engine :=
  match cb with
  | flip_to_playing => setPlaybackState playing e
  end.

Definition fireTimer (i : nat) (e : Engine) : Engine :=
  match timers e !! i with
  | Some t => runCallback (callback t) (set_timers (delete i (timers e)) e)
  | None => e
  end.

(** *** Turns of the event loop *)

Inductive Turn : Type :=
| TMessage (m : LiveMusicServerMessage)
| TDecoded (now : float) (audioBuffer : AudioBuffer)
| TError
| TClose
| TTimer (i : nat)
| TPlay (fresh : LiveMusicSession)
| TPlayConnected (s : LiveMusicSession)
| TPlayPush
| TPlayResumed
| TPause
| TStop
| TPlayPause (fresh : LiveMusicSession)
| TSetWeightedPrompts (prompts : list (string * Prompt))
| TSetWeightedPromptsRejected (message : string)
| TSetPitchBend (value : Q)
| TSetPitchBendRejected (message : string).

Definition turn (t : Turn) (e : Engine) : Engine :=
  match t with
  | TMessage m => fst (onmessage m e)
  | TDecoded now b => processAudioChunks_resume now b e
  | TError => onerror e
  | TClose => onclose e
  | TTimer i => fireTimer i e
  | TPlay fresh => play_enter fresh e
  | TPlayConnected s => play_connected s e
  | TPlayPush => play_push e
  | TPlayResumed => play_resumed e
  | TPause => pause e
  | TStop => stop e
  | TPlayPause fresh => playPause fresh e
  | TSetWeightedPrompts ps => setWeightedPrompts ps e
  | TSetWeightedPromptsRejected msg => setWeightedPrompts_rejected msg e
  | TSetPitchBend v => setPitchBend v e
  | TSetPitchBendRejected msg => setPitchBend_rejected msg e
  end.

Definition run (ts : list Turn) (e : Engine) : Engine :=
  List.fold_left (fun acc t => turn t acc) ts e.

(** [play] from its first statement to its last, when nothing else runs in
    between: the session stored is the one the pending promise resolves
    to. *)
Definition play (fresh : LiveMusicSession) (e : Engine) : Engine :=
  let e1 := play_enter fresh e in
  match sessionPromise e1 with
  | Some s => play_resumed (play_push (play_connected s e1))
  | None => e1
  end.

End LiveMusicHelper64.

(** ** The MIDI dispatcher *)

Module MidiDispatcher.

(** [ControlChange] of [../types].  [cc] and [value] are reads of the message
    bytes and are [undefined] on a short message. *)
Record ControlChange : Type := {
  cc : option Z;
  value : option Z;
  channel : Z
}.

(** Events the dispatcher dispatches on itself. *)
Inductive Event : Type :=
| cc_message (detail : ControlChange)
| pitch_bend_message (detail : Q).

Record MidiDispatcher : Type := {
  activeMidiInputId : option string
}.

(** A read [data[i]] of the [Uint8Array] of a message: a number in 0..255,
    or [undefined] past the end. *)
Definition at_index (data : list byte) (i : nat) : option Z :=
  (fun b => Z.of_N (Byte.to_N b)) <$> data !! i.

(** Wrap-around to a signed 32-bit integer. *)
Definition int32 (z : Z) : Z := ((z + 2 ^ 31) mod 2 ^ 32 - 2 ^ 31)%Z.

(** [ToInt32] on a number or [undefined]. *)
Definition ToInt32 (v : option Z) : Z :=
  match v with
  | Some z => int32 z
  | None => 0%Z
  end.

(** The operators [&], [|] and [<<]. *)
Definition bit_and (a b : option Z) : Z := Z.land (ToInt32 a) (ToInt32 b).
Definition bit_or (a b : option Z) : Z := Z.lor (ToInt32 a) (ToInt32 b).
Definition shift_left (a : option Z) (n : Z) : Z :=
  int32 (Z.shiftl (ToInt32 a) (n mod 32)).

(** The [onmidimessage] handler installed on the input whose id is
    [input_id], run on an event whose [data] is [data] ([None] for a missing
    [data]): the events it dispatches. *)
Definition onmidimessage (d : MidiDispatcher) (input_id : string)
    (data : option (list byte)) : list Event :=
  if bool_decide (Some input_id = activeMidiInputId d) then
    match data with
    | None => []
    | Some data =>
        let statusByte := at_index data 0 in
        let channel := bit_and statusByte (Some 15%Z) in
        let messageType := bit_and statusByte (Some 240%Z) in
        if (messageType =? 176)%Z then
          [cc_message {| cc := at_index data 1; value := at_index data 2;
                         channel := channel |}]
        else if (messageType =? 224)%Z then
          let lsb := at_index data 1 in
          let msb := at_index data 2 in
          let rawValue := bit_or (Some (shift_left msb 7)) lsb in
          let normalizedValue := inject_Z (rawValue - 8192) / inject_Z 8192 in
          [pitch_bend_message normalizedValue]
        else []
    end
  else [].

(** A data byte of a message as a plain number, 0 when the message is too
    short to have it. *)
Definition byte_or_0 (data : list byte) (i : nat) : Z :=
  default 0%Z (at_index data i).

(** A dispatcher listening to the input [input-0], and a pitch-bend message
    on channel 1 with data bytes 0 and 96. *)
Definition listening : MidiDispatcher := {| activeMidiInputId := Some "input-0" |}.
Definition bend_up : list byte := [xe1; x00; x60].

End MidiDispatcher.


(** ** The MIDI dispatcher: access to the inputs *)

Module MidiAccess.
Import MidiDispatcher.

(** A [MIDIInput]: its id, under which the inputs map holds it, and its
    name, which may be null. *)
Record MIDIInput : Type := {
  input_id : string;
  input_name : option string
}.

(** What the field [access] holds: null, a [MIDIAccess] with the inputs its
    map holds, in the order of the map, or the exception that a rejected
    request was turned into by [.catch((error) => error)].  The map is taken
    as the request found it; ports that come or go later are not followed. *)
Inductive Access : Type :=
| access_null
| access_granted (inputs : list MIDIInput)
| access_exception (name : string).

(** How [navigator.requestMIDIAccess] settles: with a [MIDIAccess], or with
    a rejection whose reason is an exception.  (A rejection whose reason is
    null is not among the values.) *)
Inductive Request : Type :=
| granted (inputs : list MIDIInput)
| rejected (name : string).

(** The dispatcher object: its two fields, and the ids of the inputs on
    which [onmidimessage] has been installed. *)
Record Dispatcher : Type := {
  access : Access;
  active : option string;
  handled : list string
}.

(** The dispatcher as constructed. *)
Definition fresh : Dispatcher :=
  {| access := access_null; active := None; handled := [] |}.

(** How a call ends: it returns, it throws an [Error] with a message, or it
    throws the [TypeError] of a property read on [undefined]. *)
Inductive Outcome (A : Type) : Type :=
| returned (a : A)
| threw (message : string)
| threw_TypeError.
Arguments returned {A} a.
Arguments threw {A} message.
Arguments threw_TypeError {A}.

Definition unsupported_message : string :=
  "Seu navegador não suporta a API Web MIDI. Para uma lista de navegadores compatíveis, veja https://caniuse.com/midi".

Definition no_access_message : string :=
  "Não foi possível acessar os dispositivos MIDI.".

(** [[...this.access.inputs.keys()]]: the ids, or a [TypeError] when
    [access] is an exception, which has no [inputs]. *)
Definition input_keys (a : Access) : Outcome (list string) :=
  match a with
  | access_granted inputs => returned (List.map input_id inputs)
  | access_exception _ => threw_TypeError
  | access_null => threw_TypeError
  end.

(** [getMidiAccess], when no other call of it runs while it awaits the
    request.  [supported] tells whether [navigator.requestMIDIAccess]
    exists; [request] is how the request settles, should the method make
    one. *)
Definition getMidiAccess (supported : bool) (request : Request) (d : Dispatcher)
  : Dispatcher * Outcome (list string) :=
  match access d with
  | access_granted _ | access_exception _ => (d, input_keys (access d))
  | access_null =>
      if negb supported then (d, threw unsupported_message)
      else
        let a := match request with
                 | granted inputs => access_granted inputs
                 | rejected name => access_exception name
                 end in
        let d1 := {| access := a; active := active d; handled := handled d |} in
        match a with
        | access_null => (d1, threw no_access_message)
        | access_exception _ => (d1, threw_TypeError)
        | access_granted inputs =>
            let inputIds := List.map input_id inputs in
            let act :=
              match inputIds, active d1 with
              | i :: _, None => Some i
              | _, _ => active d1
              end in
            ({| access := a; active := act; handled := List.map input_id inputs |},
             returned inputIds)
        end
  end.

(** [this.access.inputs.get(id)]. *)
Definition inputs_get (id : string) (inputs : list MIDIInput) : option MIDIInput :=
  List.find (fun i => bool_decide (input_id i = id)) inputs.

(** [getDeviceName]: a name or null. *)
Definition getDeviceName (id : string) (d : Dispatcher) : Outcome (option string) :=
  match access d with
  | access_null => returned None
  | access_granted inputs =>
      match inputs_get id inputs with
      | Some input => returned (input_name input)
      | None => returned None
      end
  | access_exception _ => threw_TypeError
  end.

(** A MIDI message arrives on the input [id]: the events dispatched, none
    when no handler was installed on that input. *)
Definition deliver (d : Dispatcher) (id : string) (data : option (list byte))
  : list Event :=
  if bool_decide (id ∈ handled d)
  then onmidimessage {| activeMidiInputId := active d |} id data
  else [].

(** The handler of the earlier version of the dispatcher
    ([src/unnamed/part_001]), which knows control changes only. *)
Definition onmidimessage_cc (d : MidiDispatcher) (input_id : string)
    (data : option (list byte)) : list Event :=
  if bool_decide (Some input_id = activeMidiInputId d) then
    match data with
    | None => []
    | Some data =>
        let statusByte := at_index data 0 in
        let channel := bit_and statusByte (Some 15%Z) in
        let messageType := bit_and statusByte (Some 240%Z) in
        let isControlChange := (messageType =? 176)%Z in
        if negb isControlChange then []
        else [cc_message {| cc := at_index data 1; value := at_index data 2;
                            channel := channel |}]
    end
  else [].

Definition is_cc_message (ev : Event) : bool :=
  match ev with
  | cc_message _ => true
  | pitch_bend_message _ => false
  end.

(** The value dispatched for the data bytes [lsb] and [msb], as numbers. *)
Definition normalized (lsb msb : Z) : Q :=
  inject_Z (Z.lor (Z.shiftl msb 7) lsb - 8192) / inject_Z 8192.

(** Two inputs and the access that holds them. *)
Definition keyboard : MIDIInput :=
  {| input_id := "input-0"; input_name := Some "Keystation" |}.
Definition pad : MIDIInput :=
  {| input_id := "input-1"; input_name := None |}.

End MidiAccess.

(** ** The prompt grid: order of the prompts and prompt changes *)

Module PromptDjMidi.

Abbreviation Prompt := LiveMusicHelper.Prompt.

(** [Map.prototype.has], [get] and [set] on a map kept as its entries in
    insertion order.  [set] on a key that is present keeps its place. *)
Definition map_has (id : string) (m : list (string * Prompt)) : bool :=
  bool_decide (id ∈ List.map fst m).

Definition map_get (id : string) (m : list (string * Prompt)) : option Prompt :=
  snd <$> List.find (fun kv => bool_decide (fst kv = id)) m.

Definition map_set (id : string) (v : Prompt) (m : list (string * Prompt))
  : list (string * Prompt) :=
  if map_has id m
  then List.map (fun kv => if bool_decide (fst kv = id) then (id, v) else kv) m
  else m ++ [(id, v)].

(** [Array.prototype.indexOf]: the first index, or -1. *)
Definition indexOf (l : list string) (x : string) : Z :=
  match list_find (fun y => y = x) l with
  | Some (i, _) => Z.of_nat i
  | None => (-1)%Z
  end.

(** The index at which [splice] starts: a negative start counts from the
    end, and the result is kept within the array. *)
Definition splice_start (start : Z) (l : list string) : nat :=
  let len := Z.of_nat (List.length l) in
  Z.to_nat (if (start <? 0)%Z then Z.max (len + start) 0 else Z.min start len).

(** [l.splice(start, 1)]: the removed item, if there is one at the start
    index, and what is left. *)
Definition splice_remove (start : Z) (l : list string) : option string * list string :=
  let i := splice_start start l in (l !! i, delete i l).

(** [l.splice(start, 0, x)]. *)
Definition splice_insert (start : Z) (x : string) (l : list string) : list string :=
  let i := splice_start start l in take i l ++ x :: drop i l.

(** The event [prompts-changed], with the map it carries. *)
Inductive Event : Type :=
| prompts_changed (detail : list (string * Prompt)).

(** The fields of the component that the order of the prompts depends on,
    the order written to local storage, and the events dispatched. *)
Record Component : Type := {
  prompts : list (string * Prompt);
  promptOrder : list string;
  organizeMode : bool;
  draggedPromptId : option string;
  storedOrder : option (list string);
  dispatched : list Event
}.

(** The order the constructor computes.  [savedOrder] is the stored order
    after [JSON.parse], or [None] when nothing (or the empty text) is
    stored.  Stored ids that are no longer keys of the map are dropped; keys
    that the stored order does not have are added at the end, in the order
    of the map. *)
Definition initial_order (initialPrompts : list (string * Prompt))
    (savedOrder : option (list string)) : list string :=
  match savedOrder with
  | Some parsedOrder =>
      let validOrder := List.filter (fun id => map_has id initialPrompts) parsedOrder in
      validOrder ++
        List.filter (fun id => negb (bool_decide (id ∈ validOrder)))
          (List.map fst initialPrompts)
  | None => List.map fst initialPrompts
  end.

(** The constructor, as far as the prompts and their order go; it ends with
    [savePromptOrder]. *)
Definition constructor (initialPrompts : list (string * Prompt))
    (savedOrder : option (list string)) : Component :=
  let order := initial_order initialPrompts savedOrder in
  {| prompts := initialPrompts; promptOrder := order; organizeMode := false;
     draggedPromptId := None; storedOrder := Some order; dispatched := [] |}.

Definition toggleOrganizeMode (c : Component) : Component :=
  {| prompts := prompts c; promptOrder := promptOrder c;
     organizeMode := negb (organizeMode c);
     draggedPromptId := draggedPromptId c; storedOrder := storedOrder c;
     dispatched := dispatched c |}.

(** [handleDragStart] on a drag that starts on an element. *)
Definition handleDragStart (promptId : string) (c : Component) : Component :=
  if negb (organizeMode c) then c
  else
    {| prompts := prompts c; promptOrder := promptOrder c;
       organizeMode := organizeMode c;
       draggedPromptId := Some promptId; storedOrder := storedOrder c;
       dispatched := dispatched c |}.

Definition handleDragEnd (c : Component) : Component :=
  if negb (organizeMode c) then c
  else
    {| prompts := prompts c; promptOrder := promptOrder c;
       organizeMode := organizeMode c;
       draggedPromptId := None; storedOrder := storedOrder c;
       dispatched := dispatched c |}.

(** [!this.draggedPromptId]: null and the empty string are falsy. *)
Definition no_dragged (d : option string) : bool :=
  match d with
  | None => true
  | Some id => bool_decide (id = "")
  end.

(** [handleDrop].  The result is [None] in the one case that a list of
    strings cannot hold: on an empty order the first [splice] removes
    nothing and the second inserts [undefined]. *)
Definition handleDrop (targetPromptId : string) (c : Component) : option Component :=
  if negb (organizeMode c) || no_dragged (draggedPromptId c) then Some c
  else
    let draggedId := default "" (draggedPromptId c) in
    if bool_decide (draggedId = targetPromptId) then Some c
    else
      let newOrder := promptOrder c in
      let draggedIndex := indexOf newOrder draggedId in
      let targetIndex := indexOf newOrder targetPromptId in
      match splice_remove draggedIndex newOrder with
      | (Some removedItem, newOrder1) =>
          let newOrder2 := splice_insert targetIndex removedItem newOrder1 in
          Some {| prompts := prompts c; promptOrder := newOrder2;
                  organizeMode := organizeMode c;
                  draggedPromptId := draggedPromptId c;
                  storedOrder := Some newOrder2; dispatched := dispatched c |}
      | (None, _) => None
      end.

(** [handlePromptChanged] for an event with detail [detail].  The prompt
    objects are shared between the maps; what is kept here is the map the
    component holds. *)
Definition handlePromptChanged (detail : Prompt) (c : Component) : Component :=
  match map_get (LiveMusicHelper.promptId detail) (prompts c) with
  | None => c
  | Some prompt =>
      let prompt' :=
        {| LiveMusicHelper.promptId := LiveMusicHelper.promptId prompt;
           LiveMusicHelper.text := LiveMusicHelper.text detail;
           LiveMusicHelper.weight := LiveMusicHelper.weight detail;
           LiveMusicHelper.cc := LiveMusicHelper.cc detail;
           LiveMusicHelper.color := LiveMusicHelper.color prompt |} in
      let newPrompts := map_set (LiveMusicHelper.promptId detail) prompt' (prompts c) in
      {| prompts := newPrompts; promptOrder := promptOrder c;
         organizeMode := organizeMode c;
         draggedPromptId := draggedPromptId c; storedOrder := storedOrder c;
         dispatched := dispatched c ++ [prompts_changed newPrompts] |}
  end.

(** What the user can do to the grid. *)
Inductive Action : Type :=
| AToggleOrganize
| ADragStart (promptId : string)
| ADrop (targetPromptId : string)
| ADragEnd
| APromptChanged (detail : Prompt).

Definition act (a : Action) (c : Component) : option Component :=
  match a with
  | AToggleOrganize => Some (toggleOrganizeMode c)
  | ADragStart id => Some (handleDragStart id c)
  | ADrop id => handleDrop id c
  | ADragEnd => Some (handleDragEnd c)
  | APromptChanged detail => Some (handlePromptChanged detail c)
  end.

Fixpoint acts (l : list Action) (c : Component) : option Component :=
  match l with
  | [] => Some c
  | a :: l' =>
      match act a c with
      | Some c' => acts l' c'
      | None => None
      end
  end.

(** The order and the map name the same prompts, each once, and the stored
    order is the order shown. *)
Definition consistent (c : Component) : Prop :=
  (forall id, In id (promptOrder c) <-> In id (List.map fst (prompts c))) /\
  NoDup (promptOrder c) /\
  storedOrder c = Some (promptOrder c).

(** A grid of three prompts with nothing stored, in organize mode, with
    the third prompt being dragged. *)
Definition dragging (ps : list (string * Prompt)) : Component :=
  handleDragStart "prompt-2" (toggleOrganizeMode (constructor ps None)).

End PromptDjMidi.

(** ** The engine's recorder *)

Module Recording.

(** The [state] attribute of a [MediaRecorder]; the engine never pauses
    one. *)
Inductive RecordingState : Type :=
| inactive
| recording.

(** A [Blob], by its bytes. *)
Definition Blob : Type := list byte.

(** Events the engine dispatches from the recording methods. *)
Inductive Event : Type :=
| error (detail : string)
| recording_finished (detail : Blob).

(** The fields [mediaRecorder] (null, or a recorder in some state) and
    [recordedChunks], and the events dispatched. *)
Record Recorder : Type := {
  mediaRecorder : option RecordingState;
  recordedChunks : list Blob;
  dispatched : list Event
}.

Definition unsupported_format_message : string :=
  "Formato de gravação webm/opus não suportado.".

(** [startRecording]; [supported] is the answer of
    [MediaRecorder.isTypeSupported]. *)
Definition startRecording (supported : bool) (r : Recorder) : Recorder :=
  match mediaRecorder r with
  | Some recording => r
  | _ =>
      if negb supported
      then {| mediaRecorder := mediaRecorder r; recordedChunks := recordedChunks r;
              dispatched := dispatched r ++ [error unsupported_format_message] |}
      else {| mediaRecorder := Some recording; recordedChunks := [];
              dispatched := dispatched r |}
  end.

(** [stopRecording]: [stop] on a recorder that is recording makes it
    inactive. *)
Definition stopRecording (r : Recorder) : Recorder :=
  match mediaRecorder r with
  | Some recording =>
      {| mediaRecorder := Some inactive; recordedChunks := recordedChunks r;
         dispatched := dispatched r |}
  | _ => r
  end.

(** The handler [ondataavailable] on an event that carries [data]. *)
Definition ondataavailable (data : Blob) (r : Recorder) : Recorder :=
  if (0 <? List.length data)%nat
  then {| mediaRecorder := mediaRecorder r;
          recordedChunks := recordedChunks r ++ [data];
          dispatched := dispatched r |}
  else r.

(** The handler [onstop]: one blob made of the recorded chunks. *)
Definition onstop (r : Recorder) : Recorder :=
  {| mediaRecorder := mediaRecorder r; recordedChunks := recordedChunks r;
     dispatched := dispatched r ++ [recording_finished (List.concat (recordedChunks r))] |}.

(** What happens while a recording runs: data arrives, or [startRecording]
    is called again. *)
Inductive Meanwhile : Type :=
| data_available (data : Blob)
| start_again (supported : bool).

Definition meanwhile (m : Meanwhile) (r : Recorder) : Recorder :=
  match m with
  | data_available data => ondataavailable data r
  | start_again supported => startRecording supported r
  end.

(** The data that arrived, in order. *)
Fixpoint arrived (ms : list Meanwhile) : list Blob :=
  match ms with
  | [] => []
  | data_available data :: ms' => data :: arrived ms'
  | start_again _ :: ms' => arrived ms'
  end.

End Recording.

(** ** Vocabulary of the properties *)

Module Timeline.
Import LiveMusicHelper.

(** The batch passes the state guard and carries data to decode. *)
Definition processed (chunks : list AudioChunk) (e : Engine) : Prop :=
  exists bytes, processAudioChunks_enter chunks e = AwaitDecode bytes.

(** The playback state a listener ends with when it starts from [seen] and
    follows the state-change events of [evs]. *)
Definition shown (evs : list Event) (seen : PlaybackState) : PlaybackState :=
  List.fold_left
    (fun acc ev => match ev with
                   | playback_state_changed s => s
                   | _ => acc
                   end)
    evs seen.

End Timeline.

(** The same vocabulary for the engine over binary64, where it speaks of
    the cursor. *)
Module Timeline64.
Import LiveMusicHelper LiveMusicHelper64.

(** The batch passes the state guard and carries data to decode. *)
Definition processed (chunks : list AudioChunk) (e : Engine) : Prop :=
  exists bytes, processAudioChunks_enter chunks e = AwaitDecode bytes.

(** The two tests of lines 130 and 136 both fail: the cursor is not 0 and
    is not below the audio clock. *)
Definition in_step (now : float) (e : Engine) : Prop :=
  (nextStartTime e =? 0)%float = false /\ (nextStartTime e <? now)%float = false.

(** Turns that write neither the cursor nor the output node and start no
    source, whatever the engine. *)
Definition quiet (t : Turn) : bool :=
  match t with
  | TMessage _ | TTimer _ | TPlayConnected _ | TPlayResumed
  | TSetPitchBend _ | TSetPitchBendRejected _ => true
  | _ => false
  end.

(** A turn of a steady stretch: a decode that resolves while the cursor is
    in step, or a quiet turn. *)
Definition steady_turn (t : Turn) (e : Engine) : Prop :=
  match t with
  | TDecoded now _ => in_step now e
  | _ => quiet t = true
  end.

Fixpoint steady (ts : list Turn) (e : Engine) : Prop :=
  match ts with
  | [] => True
  | t :: ts' => steady_turn t e /\ steady ts' (turn t e)
  end.

(** The buffers whose decode resolves during a list of turns, in order. *)
Fixpoint decoded_buffers (ts : list Turn) : list AudioBuffer :=
  match ts with
  | [] => []
  | TDecoded _ b :: ts' => b :: decoded_buffers ts'
  | _ :: ts' => decoded_buffers ts'
  end.

(** The duration is a number that is not below 0 (so it is not NaN). *)
Definition nonnegative (b : AudioBuffer) : Prop :=
  (0 <=? duration b)%float = true.

(** Each source starts at the sum, as the code computes it, of the start
    and the duration of the one before it. *)
Fixpoint contiguous (l : list Source) : Prop :=
  match l with
  | s1 :: (s2 :: _) as tl =>
      startTime s2 = (startTime s1 + duration (buffer s1))%float /\
      contiguous tl
  | _ => True
  end.

(** No source starts before the one before it. *)
Fixpoint ascending (l : list Source) : Prop :=
  match l with
  | s1 :: (s2 :: _) as tl =>
      (startTime s2 <? startTime s1)%float = false /\
      ascending tl
  | _ => True
  end.

(** The sources obtained by laying buffers end to end from a cursor. *)
Fixpoint lay (node : GainNode) (cursor : float) (bs : list AudioBuffer) : list Source :=
  match bs with
  | [] => []
  | b :: bs' =>
      {| buffer := b; destination := node; startTime := cursor |}
        :: lay node (cursor + duration b)%float bs'
  end.

(** The cursor after laying buffers end to end: the durations are added
    one by one, from the left. *)
Definition lay_end (cursor : float) (bs : list AudioBuffer) : float :=
  List.fold_left (fun c b => (c + duration b)%float) bs cursor.

End Timeline64.

(** ** Concrete engines and inputs *)

Module Fixtures.
Import LiveMusicHelper Timeline.

(** One second of audio at the engine's sample rate. *)
Definition one_second : AudioBuffer := {| length := 48000; sampleRate := 48000 |}.

(** A batch of one chunk. *)
Definition batch : list AudioChunk := [ {| data := Some "UklGRg==" |} ].

(** A connected engine that is loading, with the cursor at 0: the turns of
    [play] on a fresh engine without its prompt push (line 204), which on an
    engine that stores no prompt would report the error and pause. *)
Definition loading_engine : Engine :=
  run [TPlay 1%nat; TPlayConnected 1%nat; TPlayResumed] init.

(** The same engine after a first chunk arrived at clock 0. *)
Definition primed_engine : Engine :=
  processAudioChunks 0 one_second batch loading_engine.

(** A server message that carries [batch]. *)
Definition chunk_message : LiveMusicServerMessage :=
  {| setupComplete := false; filteredPrompt := None; audioChunks := Some batch |}.

(** Three prompts: one active, one of weight 0, one whose text the service
    has filtered. *)
Definition prompt_a : Prompt :=
  {| promptId := "prompt-0"; text := "Bossa Nova"; weight := 1; cc := 0;
     color := "#9900ff" |}.
Definition prompt_b : Prompt :=
  {| promptId := "prompt-1"; text := "Chillwave"; weight := 0; cc := 1;
     color := "#5200ff" |}.
Definition prompt_c : Prompt :=
  {| promptId := "prompt-2"; text := "Drum and Bass"; weight := 1 # 2; cc := 2;
     color := "#ff25f6" |}.

Definition prompt_map : list (string * Prompt) :=
  [ ("prompt-0", prompt_a); ("prompt-1", prompt_b); ("prompt-2", prompt_c) ].

(** The loading engine after the service filtered the text of [prompt_c]. *)
Definition filtering_engine : Engine :=
  fst (onmessage {| setupComplete := true; filteredPrompt := Some "Drum and Bass";
                    audioChunks := None |} loading_engine).

End Fixtures.

(** The same for the engine over binary64. *)
Module Fixtures64.
Import LiveMusicHelper LiveMusicHelper64 Timeline64.

(** Buffers of one second, of 0.1 second and of 0.4 second; the last two
    durations are the binary64 numbers nearest to 1/10 and 4/10. *)
Definition one_second : AudioBuffer := {| duration := 1 |}.
Definition tenth_of_a_second : AudioBuffer := {| duration := 0x1.999999999999ap-4 |}.
Definition four_tenths : AudioBuffer := {| duration := 0x1.999999999999ap-2 |}.

(** The engine after the prompts of [Fixtures.prompt_map] were set and
    [play] has run to its end: loading, connected, the two active prompts
    pushed, cursor at 0. *)
Definition loading_engine : Engine :=
  play 1%nat (setWeightedPrompts Fixtures.prompt_map init).

(** The same engine after a first chunk arrived at clock 0. *)
Definition primed_engine : Engine :=
  processAudioChunks 0 one_second Fixtures.batch loading_engine.

(** What follows on the primed engine: a second chunk decoded at clock 0.5,
    the timeout that fires, a third chunk decoded at clock 2.5. *)
Definition steady_turns : list Turn :=
  [ TMessage Fixtures.chunk_message; TDecoded 0.5 one_second;
    TTimer 0;
    TMessage Fixtures.chunk_message; TDecoded 2.5 one_second ].

End Fixtures64.

(** ** Proof automation *)

(** Case analysis on everything a method branches on. *)
Ltac branches :=
  repeat match goal with
         | |- context [match ?x with _ => _ end] => destruct x eqn:?
         | |- context [if ?x then _ else _] => destruct x eqn:?
         end.

(** * Properties *)

(** ** Numbers *)

Lemma Qlt_bool_iff (a b : Q) : Qlt_bool a b = true <-> a < b.
Proof.
  unfold Qlt_bool. rewrite negb_true_iff.
  split; intros H.
  - apply Qnot_le_lt. intros Hle. apply Qle_bool_iff in Hle. congruence.
  - destruct (Qle_bool b a) eqn:E; [|reflexivity].
    apply Qle_bool_iff in E. exfalso. revert E. apply Qlt_not_le. exact H.
Qed.

Lemma Qlt_bool_false_iff (a b : Q) : Qlt_bool a b = false <-> b <= a.
Proof.
  unfold Qlt_bool. rewrite negb_false_iff. apply Qle_bool_iff.
Qed.


Lemma Qeq_bool_false_iff (a b : Q) : Qeq_bool a b = false <-> ~ a == b.
Proof.
  split; intros H.
  - intros Heq. apply Qeq_bool_iff in Heq. congruence.
  - destruct (Qeq_bool a b) eqn:E; [|reflexivity].
    apply Qeq_bool_iff in E. contradiction.
Qed.

(** ** Binary64 addition

    [PrimFloat.add] is specified by [SFadd] of [SpecFloat], which aligns
    the two significands, adds them as integers and rounds the sum to
    nearest even.  What the scheduler needs from it is that adding a number
    that is not negative never gives a smaller number; this is proved from
    that specification, through the rounding of a positive integer
    significand. *)

Section Binary64Addition.
Import Binary64.
Local Open Scope Z_scope.

(** The exponent the format gives a value whose leading bit has weight
    2^(e-1): 53 bits of precision, least exponent -1074. *)
Lemma fexp64 e : SpecFloat.fexp prec emax e = Z.max (e - 53) (-1074).
Proof. reflexivity. Qed.

(** [digits2_pos p] is the number of binary digits of [p]. *)
Lemma digits2_pos_bounds p :
  2 ^ (Zpos (digits2_pos p) - 1) <= Zpos p < 2 ^ Zpos (digits2_pos p).
Proof.
  induction p as [p IH|p IH|]; cbn [digits2_pos].
  - rewrite Pos2Z.inj_succ, (Pos2Z.inj_xI p).
    replace (Z.succ (Zpos (digits2_pos p)) - 1) with (Z.succ (Zpos (digits2_pos p) - 1)) by lia.
    rewrite !Z.pow_succ_r by lia.
    revert IH. generalize (2 ^ (Zpos (digits2_pos p) - 1)) (2 ^ Zpos (digits2_pos p)).
    intros; lia.
  - rewrite Pos2Z.inj_succ, (Pos2Z.inj_xO p).
    replace (Z.succ (Zpos (digits2_pos p)) - 1) with (Z.succ (Zpos (digits2_pos p) - 1)) by lia.
    rewrite !Z.pow_succ_r by lia.
    revert IH. generalize (2 ^ (Zpos (digits2_pos p) - 1)) (2 ^ Zpos (digits2_pos p)).
    intros; lia.
  - cbn. lia.
Qed.

(** The number of digits is fixed by the power of two that bounds the
    number. *)
Lemma digits2_pos_unique p d :
  2 ^ (d - 1) <= Zpos p < 2 ^ d -> Zpos (digits2_pos p) = d.
Proof.
  intros [Hlo Hhi]. pose proof (digits2_pos_bounds p) as [Blo Bhi].
  assert (0 < d).
  { destruct (Z.lt_ge_cases 0 d) as [|Hd]; [assumption|].
    assert (2 ^ d <= 2 ^ 0) by (apply Z.pow_le_mono_r; lia).
    change (2 ^ 0) with 1 in *. lia. }
  assert (Zpos (digits2_pos p) - 1 < d).
  { apply (Z.pow_lt_mono_r_iff 2); lia. }
  assert (d - 1 < Zpos (digits2_pos p)).
  { apply (Z.pow_lt_mono_r_iff 2); lia. }
  lia.
Qed.

(** What [bounded] says of the significand and the exponent of a valid
    finite number. *)
Lemma bounded_canonical m e :
  bounded prec emax m e = true ->
  -1074 <= e <= 971 /\ Zpos (digits2_pos m) <= 53 /\
  (-1074 < e -> Zpos (digits2_pos m) = 53) /\
  e = Z.max (Zpos (digits2_pos m) + e - 53) (-1074).
Proof.
  unfold bounded, canonical_mantissa. rewrite andb_true_iff, fexp64.
  intros [Hc Hb]. apply Z.eqb_eq in Hc. apply Z.leb_le in Hb.
  change (emax - prec) with 971 in Hb. lia.
Qed.

(** Among valid numbers a smaller exponent means a smaller value. *)
Lemma units_exponent_lt m1 e1 m2 e2 :
  bounded prec emax m1 e1 = true -> bounded prec emax m2 e2 = true ->
  e1 < e2 -> units m1 e1 < units m2 e2.
Proof.
  intros H1 H2 Hlt.
  destruct (bounded_canonical _ _ H1) as (He1 & Hd1 & _ & _).
  destruct (bounded_canonical _ _ H2) as (He2 & _ & Hn2 & _).
  pose proof (digits2_pos_bounds m1) as [_ B1].
  pose proof (digits2_pos_bounds m2) as [B2 _].
  rewrite Hn2 in B2 by lia. change (2 ^ (53 - 1)) with (2 ^ 52) in B2.
  assert (Zpos m1 < 2 ^ 53).
  { eapply Z.lt_le_trans; [exact B1|]. apply Z.pow_le_mono_r; lia. }
  unfold units.
  replace (e2 + 1074) with (Z.succ (e2 - 1 + 1074)) by lia.
  rewrite Z.pow_succ_r by lia.
  assert (2 ^ (e1 + 1074) <= 2 ^ (e2 - 1 + 1074)) by (apply Z.pow_le_mono_r; lia).
  assert (0 < 2 ^ (e1 + 1074)) by (apply Z.pow_pos_nonneg; lia).
  change (2 ^ 53) with (2 * 2 ^ 52) in *.
  nia.
Qed.

(** At one exponent the values are ordered as the significands. *)
Lemma units_mantissa m1 m2 e :
  -1074 <= e -> (units m1 e <= units m2 e <-> Zpos m1 <= Zpos m2).
Proof.
  intros He. unfold units.
  assert (0 < 2 ^ (e + 1074)) by (apply Z.pow_pos_nonneg; lia).
  split; nia.
Qed.

(** Comparison of valid positive finite numbers follows their values. *)
Lemma compare_units m1 e1 m2 e2 :
  bounded prec emax m1 e1 = true -> bounded prec emax m2 e2 = true ->
  units m1 e1 <= units m2 e2 ->
  match Z.compare e1 e2 with
  | Lt => Lt
  | Gt => Gt
  | Eq => Pos.compare_cont Eq m1 m2
  end <> Gt.
Proof.
  intros H1 H2 Hle.
  destruct (Z.compare_spec e1 e2) as [->|Hlt|Hgt].
  - destruct (bounded_canonical _ _ H2) as (He2 & _).
    apply units_mantissa in Hle; [|lia].
    change (Pos.compare_cont Eq m1 m2) with (Pos.compare m1 m2).
    intros Hc. apply Pos.compare_gt_iff in Hc. lia.
  - discriminate.
  - pose proof (units_exponent_lt _ _ _ _ H2 H1 Hgt). lia.
Qed.

(** *** Shifting right *)

Lemma iter_pos_nat {A} (f : A -> A) p x :
  SpecFloat.iter_pos f p x = Nat.iter (Pos.to_nat p) f x.
Proof.
  revert x. induction p as [p IH|p IH|]; intros x; cbn [SpecFloat.iter_pos].
  - rewrite !IH, Pos2Nat.inj_xI.
    replace (S (2 * Pos.to_nat p))%nat with (Pos.to_nat p + (Pos.to_nat p + 1))%nat by lia.
    rewrite !Nat.iter_add. reflexivity.
  - rewrite !IH, Pos2Nat.inj_xO.
    replace (2 * Pos.to_nat p)%nat with (Pos.to_nat p + Pos.to_nat p)%nat by lia.
    rewrite Nat.iter_add. reflexivity.
  - reflexivity.
Qed.

(** One shift to the right halves the significand; the round bit is
    clear when nothing was lost, and the sticky bit collects the bits of
    the shifts before. *)
Lemma shr_1_spec mrs :
  0 <= shr_m mrs ->
  0 <= shr_m (shr_1 mrs) /\
  2 * shr_m (shr_1 mrs) <= shr_m mrs <= 2 * shr_m (shr_1 mrs) + 1 /\
  (shr_m mrs = 2 * shr_m (shr_1 mrs) -> shr_r (shr_1 mrs) = false) /\
  shr_s (shr_1 mrs) = shr_r mrs || shr_s mrs.
Proof.
  destruct mrs as [m r s]. cbn [shr_m shr_r shr_s]. intros Hm.
  destruct m as [|[p|p|]|p]; cbn [shr_1 shr_m shr_r shr_s]; try lia;
    repeat split; try lia; try reflexivity.
Qed.

(** [n] shifts of an exact record give the quotient by 2^n, with both
    bits clear when the division was exact. *)
Lemma shr_iter M n :
  0 <= M ->
  let mrs := Nat.iter n shr_1 {| shr_m := M; shr_r := false; shr_s := false |} in
  0 <= shr_m mrs /\
  2 ^ Z.of_nat n * shr_m mrs <= M < 2 ^ Z.of_nat n * (shr_m mrs + 1) /\
  (2 ^ Z.of_nat n * shr_m mrs = M -> shr_r mrs = false /\ shr_s mrs = false).
Proof.
  intros HM. induction n as [|n IH].
  - cbv zeta. change (2 ^ Z.of_nat 0) with 1. unfold Nat.iter.
    cbn [nat_rect shr_m shr_r shr_s].
    repeat split; try lia; reflexivity.
  - cbv zeta in *. rewrite Nat.iter_succ.
    set (mrs := Nat.iter n shr_1 _) in *.
    destruct IH as (H0 & Hb & Hex).
    destruct (shr_1_spec mrs H0) as (H0' & Hb' & Hr & Hs).
    rewrite Nat2Z.inj_succ, Z.pow_succ_r by lia.
    assert (0 < 2 ^ Z.of_nat n) by (apply Z.pow_pos_nonneg; lia).
    split; [assumption|]. split; [nia|].
    intros Heq.
    assert (shr_m mrs = 2 * shr_m (shr_1 mrs)) as Hm by nia.
    assert (2 ^ Z.of_nat n * shr_m mrs = M) as HM' by nia.
    destruct (Hex HM') as [Er Es].
    split; [auto|]. rewrite Hs, Er, Es. reflexivity.
Qed.

(** Rounding keeps the truncated significand or adds one to it, and keeps
    it when nothing was lost. *)
Lemma round_nearest_even_spec mrs :
  let m := round_nearest_even (shr_m mrs) (loc_of_shr_record mrs) in
  shr_m mrs <= m <= shr_m mrs + 1 /\
  (shr_r mrs = false -> shr_s mrs = false -> m = shr_m mrs).
Proof.
  destruct mrs as [m [|] [|]]; cbn; try destruct (Z.even m); split; (lia || intros; (discriminate || reflexivity)).
Qed.

(** Shifting a significand to the left. *)
Lemma iter_xO m p : Zpos (Pos.iter xO m p) = Zpos m * 2 ^ Zpos p.
Proof.
  rewrite <- (Pos2Z.inj_pow 2 p), <- Pos2Z.inj_mul. f_equal.
  induction p using Pos.peano_ind.
  - cbn. lia.
  - rewrite Pos.iter_succ, IHp, Pos.pow_succ_r. lia.
Qed.

Lemma pow2_pos k : 0 <= k -> 0 < 2 ^ k.
Proof. intros; apply Z.pow_pos_nonneg; lia. Qed.

(** *** Rounding *)

Lemma shr_fexp_fits m f :
  SpecFloat.fexp prec emax (Zdigits2 m + f) = f ->
  shr_fexp prec emax m f loc_Exact = ({| shr_m := m; shr_r := false; shr_s := false |}, f).
Proof.
  intros H. unfold shr_fexp. rewrite H, Z.sub_diag. reflexivity.
Qed.

(** Such a significand is the significand of the result, unless the
    exponent is beyond the largest one. *)
Lemma binary_round_aux_fits s m f :
  SpecFloat.fexp prec emax (Zpos (digits2_pos m) + f) = f ->
  binary_round_aux prec emax s (Zpos m) f loc_Exact =
  if f <=? 971 then S754_finite s m f else S754_infinity s.
Proof.
  intros H. unfold binary_round_aux.
  rewrite (shr_fexp_fits (Zpos m) f H).
  cbn [shr_m loc_of_shr_record round_nearest_even].
  rewrite (shr_fexp_fits (Zpos m) f H).
  reflexivity.
Qed.

(** The result of rounding the value [M * 2^e]: a significand [m] at the
    exponent [f] that the format gives the value, less than one step of
    that exponent away from the value, carried into the next exponent when
    [m] reached 2^53, and replaced by an infinity when the exponent is
    beyond the largest one. *)
Lemma binary_round_grid s M e :
  -1074 <= e ->
  exists mr er m f,
    f = Z.max (Zpos (digits2_pos M) + e - 53) (-1074) /\
    binary_round prec emax s M e =
      (if er <=? 971 then S754_finite s mr er else S754_infinity s) /\
    units mr er = m * 2 ^ (f + 1074) /\
    (er = f \/ er = f + 1 /\ m = 2 ^ 53) /\
    (m - 1) * 2 ^ (f + 1074) < units M e < (m + 1) * 2 ^ (f + 1074).
Proof.
  intros He.
  pose proof (digits2_pos_bounds M) as [Dlo Dhi].
  unfold binary_round. rewrite fexp64.
  set (d := Zpos (digits2_pos M)) in *.
  remember (Z.max (d + e - 53) (-1074)) as f eqn:Hf.
  assert (0 < 2 ^ (f + 1074)) as Hg by (apply pow2_pos; lia).
  unfold shl_align. destruct (f - e) as [|p|p] eqn:E.
  - (* the significand already sits on the grid *)
    assert (e = f) as Hef by lia.
    exists M, e, (Zpos M), f. rewrite binary_round_aux_fits.
    2:{ rewrite fexp64. fold d. lia. }
    split; [reflexivity|]. split; [reflexivity|].
    unfold units. rewrite <- Hef. split; [reflexivity|]. split; [left; reflexivity|].
    assert (0 < 2 ^ (e + 1074)) by (apply pow2_pos; lia). nia.
  - (* bits below the grid are rounded away *)
    assert (f = d + e - 53) as Hfd by lia.
    assert (Zpos p = d - 53) as Hp by lia.
    unfold binary_round_aux, shr_fexp at 1. cbn [Zdigits2 shr_record_of_loc].
    rewrite fexp64. fold d. rewrite <- Hf, E. cbn [shr].
    rewrite iter_pos_nat.
    destruct (shr_iter (Zpos M) (Pos.to_nat p) ltac:(lia)) as (H0 & Hb & Hex).
    rewrite positive_nat_Z in Hb, Hex.
    set (mrs := Nat.iter (Pos.to_nat p) shr_1 _) in *.
    destruct (round_nearest_even_spec mrs) as [Hr Hrex].
    set (m := round_nearest_even (shr_m mrs) (loc_of_shr_record mrs)) in *.
    assert (0 < 2 ^ Zpos p) as Hpp by (apply pow2_pos; lia).
    assert (2 ^ (d - 1) = 2 ^ Zpos p * 2 ^ 52) as Hlo.
    { rewrite <- Z.pow_add_r by lia. f_equal. lia. }
    assert (2 ^ d = 2 ^ Zpos p * 2 ^ 53) as Hhi.
    { rewrite <- Z.pow_add_r by lia. f_equal. lia. }
    assert (2 ^ 52 <= shr_m mrs < 2 ^ 53) as Hm' by nia.
    assert ((m - 1) * 2 ^ Zpos p < Zpos M < (m + 1) * 2 ^ Zpos p) as Hnear.
    { split; [|nia].
      destruct (Z.eq_dec m (shr_m mrs)) as [Em|Em]; [nia|].
      assert (2 ^ Zpos p * shr_m mrs <> Zpos M) as Hne.
      { intros Heq. destruct (Hex Heq) as [Er Es]. apply Em, Hrex; assumption. }
      nia. }
    assert (units M e = Zpos M * 2 ^ (e + 1074)) as HU by reflexivity.
    assert (2 ^ (f + 1074) = 2 ^ Zpos p * 2 ^ (e + 1074)) as Hgrid.
    { rewrite <- Z.pow_add_r by lia. f_equal. lia. }
    assert (0 < 2 ^ (e + 1074)) as Hpe by (apply pow2_pos; lia).
    replace (e + Zpos p) with f by lia.
    destruct (Z.eq_dec m (2 ^ 53)) as [Etop|Etop].
    + (* rounding carried into the next binade *)
      exists (2 ^ 52)%positive, (f + 1), m, f.
      split; [reflexivity|]. split.
      { rewrite Etop. unfold shr_fexp.
        replace (SpecFloat.fexp prec emax (Zdigits2 (2 ^ 53) + f) - f) with 1
          by (rewrite fexp64; change (Zdigits2 (2 ^ 53)) with 54; lia).
        reflexivity. }
      split.
      { unfold units. rewrite Etop.
        replace (f + 1 + 1074) with (Z.succ (f + 1074)) by lia.
        rewrite Z.pow_succ_r by lia.
        change (Zpos (2 ^ 52)) with (2 ^ 52). change (2 ^ 53) with (2 * 2 ^ 52). lia. }
      split; [right; split; [reflexivity|assumption]|].
      rewrite HU, Hgrid. nia.
    + assert (2 ^ 52 <= m < 2 ^ 53) as Hm by lia.
      destruct m as [|q|q] eqn:Eq; [lia| |lia].
      exists q, f, (Zpos q), f.
      split; [reflexivity|]. split.
      { rewrite shr_fexp_fits.
        - reflexivity.
        - rewrite fexp64. cbn [Zdigits2].
          rewrite (digits2_pos_unique q 53) by (change (53 - 1) with 52; lia). lia. }
      split; [reflexivity|]. split; [left; reflexivity|].
      rewrite HU, Hgrid. nia.
  - (* the significand is shifted up to the grid *)
    assert (e = f + Zpos p) as Hef by lia.
    pose proof (iter_xO M p) as Hmz.
    set (mz := Pos.iter xO M p) in *.
    assert (Zpos (digits2_pos mz) = d + Zpos p) as Hdz.
    { apply digits2_pos_unique. rewrite Hmz.
      replace (d + Zpos p - 1) with ((d - 1) + Zpos p) by lia.
      rewrite !Z.pow_add_r by lia.
      assert (0 < 2 ^ Zpos p) by (apply pow2_pos; lia). nia. }
    exists mz, f, (Zpos mz), f. rewrite binary_round_aux_fits.
    2:{ rewrite fexp64, Hdz. lia. }
    split; [reflexivity|]. split; [reflexivity|].
    unfold units. split; [reflexivity|]. split; [left; reflexivity|].
    rewrite Hmz, Hef.
    replace (f + Zpos p + 1074) with (Zpos p + (f + 1074)) by lia.
    rewrite (Z.pow_add_r 2 (Zpos p) (f + 1074)) by lia.
    assert (0 < 2 ^ Zpos p) by (apply pow2_pos; lia). nia.
Qed.

(** A valid finite number is below 2^53 steps of its exponent. *)
Lemma bounded_units m e :
  bounded prec emax m e = true ->
  -1074 <= e <= 971 /\ units m e < 2 ^ 53 * 2 ^ (e + 1074).
Proof.
  intros H. destruct (bounded_canonical _ _ H) as (He & Hd & _ & _).
  split; [assumption|].
  pose proof (digits2_pos_bounds m) as [_ B].
  assert (0 < 2 ^ (e + 1074)) by (apply pow2_pos; lia).
  assert (2 ^ Zpos (digits2_pos m) <= 2 ^ 53) by (apply Z.pow_le_mono_r; lia).
  unfold units. nia.
Qed.

(** A value at an exponent is a whole number of steps of any lower
    exponent. *)
Lemma units_grid m e f :
  -1074 <= f <= e -> units m e = (Zpos m * 2 ^ (e - f)) * 2 ^ (f + 1074).
Proof.
  intros H. unfold units. rewrite <- Z.mul_assoc, <- Z.pow_add_r by lia.
  do 2 f_equal. lia.
Qed.

(** A value is at least the power of two of its leading bit. *)
Lemma units_digits m e :
  -1074 <= e -> 2 ^ (Zpos (digits2_pos m) - 1 + e + 1074) <= units m e.
Proof.
  intros He. pose proof (digits2_pos_bounds m) as [B _].
  unfold units.
  replace (Zpos (digits2_pos m) - 1 + e + 1074)
    with ((Zpos (digits2_pos m) - 1) + (e + 1074)) by lia.
  rewrite Z.pow_add_r by lia.
  assert (0 < 2 ^ (e + 1074)) by (apply pow2_pos; lia). nia.
Qed.

(** Whole numbers of steps on either side of a value: one that is at most
    the value is at most any whose successor is above the value. *)
Lemma grid_above k m g U :
  0 < g -> k * g <= U -> U < (m + 1) * g -> k * g <= m * g.
Proof.
  intros Hg H1 H2.
  assert (k < m + 1) by (apply (Z.mul_lt_mono_pos_r g); lia).
  apply Z.mul_le_mono_nonneg_r; lia.
Qed.

Lemma grid_below k m g U :
  0 < g -> (m - 1) * g < U -> U <= k * g -> m * g <= k * g.
Proof.
  intros Hg H1 H2.
  assert (m - 1 < k) by (apply (Z.mul_lt_mono_pos_r g); lia).
  apply Z.mul_le_mono_nonneg_r; lia.
Qed.

(** Rounding a value that is at least a representable number gives at least
    that number. *)
Lemma binary_round_above s M e mx ex :
  -1074 <= e -> bounded prec emax mx ex = true ->
  units mx ex <= units M e ->
  binary_round prec emax s M e = S754_infinity s \/
  exists mr er, binary_round prec emax s M e = S754_finite s mr er /\
                units mx ex <= units mr er.
Proof.
  intros He Hx Hle.
  destruct (binary_round_grid s M e He) as (mr & er & m & f & Hf & Hr & Hu & Her & Hnear).
  destruct (bounded_units _ _ Hx) as [Hex HX].
  assert (0 < 2 ^ (f + 1074)) as Hg by (apply pow2_pos; lia).
  rewrite Hr. destruct (er <=? 971); [right|left; reflexivity].
  exists mr, er. split; [reflexivity|]. rewrite Hu.
  destruct (Z.le_gt_cases f ex) as [Hfe|Hfe].
  - pose proof (units_grid mx ex f ltac:(lia)) as HG. rewrite HG in *.
    eapply grid_above; [exact Hg|exact Hle|apply Hnear].
  - pose proof (units_digits M e He) as HU.
    replace (Zpos (digits2_pos M) - 1 + e + 1074) with (52 + (f + 1074)) in HU by lia.
    rewrite Z.pow_add_r in HU by lia.
    assert (2 * 2 ^ (ex + 1074) <= 2 ^ (f + 1074)) as Hstep.
    { rewrite <- Z.pow_succ_r by lia. apply Z.pow_le_mono_r; lia. }
    change (2 ^ 53) with (2 ^ 52 * 2) in HX.
    assert (2 ^ 52 * 2 ^ (f + 1074) <= m * 2 ^ (f + 1074)) as Hm.
    { eapply grid_above; [exact Hg|exact HU|apply Hnear]. }
    assert (2 ^ 52 * (2 * 2 ^ (ex + 1074)) <= 2 ^ 52 * 2 ^ (f + 1074)) as Hs2.
    { apply Z.mul_le_mono_nonneg_l; [discriminate|exact Hstep]. }
    lia.
Qed.

(** Rounding a value that is at most a representable number gives a finite
    number that is at most that number. *)
Lemma binary_round_below s M e mx ex :
  -1074 <= e -> bounded prec emax mx ex = true ->
  units M e <= units mx ex ->
  exists mr er, binary_round prec emax s M e = S754_finite s mr er /\
                units mr er <= units mx ex.
Proof.
  intros He Hx Hle.
  destruct (binary_round_grid s M e He) as (mr & er & m & f & Hf & Hr & Hu & Her & Hnear).
  destruct (bounded_units _ _ Hx) as [Hex HX].
  assert (0 < 2 ^ (f + 1074)) as Hg by (apply pow2_pos; lia).
  pose proof (units_digits M e He) as HU.
  assert (f <= ex) as Hfe.
  { assert (2 ^ (Zpos (digits2_pos M) - 1 + e + 1074) < 2 ^ (53 + (ex + 1074))) as Hlt.
    { rewrite (Z.pow_add_r 2 53) by lia. lia. }
    apply Z.pow_lt_mono_r_iff in Hlt; lia. }
  pose proof (units_grid mx ex f ltac:(lia)) as HG. rewrite HG in *.
  assert (m * 2 ^ (f + 1074) <= Zpos mx * 2 ^ (ex - f) * 2 ^ (f + 1074)) as Hm.
  { eapply grid_below; [exact Hg|apply Hnear|exact Hle]. }
  assert (er <= 971) as Hfin.
  { destruct Her as [->|[-> ->]]; [lia|].
    assert (2 ^ 53 * 2 ^ (f + 1074) < 2 ^ 53 * 2 ^ (ex + 1074)) as Hlt by lia.
    apply Z.mul_lt_mono_pos_l in Hlt; [|reflexivity].
    apply Z.pow_lt_mono_r_iff in Hlt; lia. }
  apply Z.leb_le in Hfin. rewrite Hr, Hfin.
  exists mr, er. split; [reflexivity|]. rewrite Hu. exact Hm.
Qed.

(** *** Addition *)

Lemma compare_units_ge m1 e1 m2 e2 :
  bounded prec emax m1 e1 = true -> bounded prec emax m2 e2 = true ->
  units m2 e2 <= units m1 e1 ->
  match Z.compare e1 e2 with
  | Lt => Lt
  | Gt => Gt
  | Eq => Pos.compare_cont Eq m1 m2
  end <> Lt.
Proof.
  intros H1 H2 Hle.
  destruct (Z.compare_spec e1 e2) as [->|Hlt|Hgt].
  - destruct (bounded_canonical _ _ H2) as (He2 & _).
    apply units_mantissa in Hle; [|lia].
    change (Pos.compare_cont Eq m1 m2) with (Pos.compare m1 m2).
    intros Hc. change (m1 < m2)%positive in Hc. lia.
  - pose proof (units_exponent_lt _ _ _ _ H1 H2 Hlt). lia.
  - discriminate.
Qed.

(** The comparison of two negative numbers is that of their magnitudes,
    reversed. *)
Lemma compare_units_opp m1 e1 m2 e2 :
  bounded prec emax m1 e1 = true -> bounded prec emax m2 e2 = true ->
  units m1 e1 <= units m2 e2 ->
  match Z.compare e1 e2 with
  | Lt => Gt
  | Gt => Lt
  | Eq => CompOpp (Pos.compare_cont Eq m1 m2)
  end <> Lt.
Proof.
  intros H1 H2 Hle. pose proof (compare_units _ _ _ _ H1 H2 Hle) as H.
  destruct (Z.compare e1 e2); [|discriminate|congruence].
  destruct (Pos.compare_cont Eq m1 m2); cbn; congruence.
Qed.

(** A number that is not NaN compares equal to itself. *)
Lemma SFcompare_refl x : x <> S754_nan -> SFcompare x x = Some Eq.
Proof.
  destruct x as [[|]|[|]| |[|] m e]; intros H; try reflexivity; try congruence;
    cbn; rewrite Z.compare_refl;
    change (Pos.compare_cont Eq m m) with (Pos.compare m m);
    rewrite Pos.compare_refl; reflexivity.
Qed.

Lemma SFltb_refl x : SFltb x x = false.
Proof.
  destruct x as [s|s| |s m e]; try reflexivity;
    unfold SFltb; rewrite SFcompare_refl; congruence.
Qed.

(** [shl_align] brings a significand to a lower exponent. *)
Lemma shl_align_fst m e ez :
  ez <= e -> Zpos (fst (shl_align m e ez)) = Zpos m * 2 ^ (e - ez).
Proof.
  intros H. unfold shl_align. destruct (ez - e) as [|p|p] eqn:E; cbn [fst].
  - replace (e - ez) with 0 by lia. lia.
  - lia.
  - rewrite iter_xO. do 2 f_equal. lia.
Qed.

Lemma units_shifted m e ez :
  -1074 <= ez <= e -> Zpos m * 2 ^ (e - ez) * 2 ^ (ez + 1074) = units m e.
Proof. intros H. symmetry. apply units_grid. exact H. Qed.

(** Adding a number that is not negative never gives less. *)
Lemma SFadd_nonneg_not_below X D :
  valid_binary X = true -> valid_binary D = true ->
  valid_binary (SF64add X D) = true ->
  SFleb (S754_zero false) D = true ->
  SFltb (SF64add X D) X = false.
Proof.
  unfold valid_binary. intros HX HD HR Hnn.
  destruct D as [sd|[|]| |[|] my ey]; try discriminate Hnn.
  - (* adding a zero *)
    destruct X as [[|]|[|]| |sx mx ex]; destruct sd; try reflexivity;
      apply SFltb_refl.
  - (* adding the positive infinity *)
    destruct X as [[|]|[|]| |[|] mx ex]; reflexivity.
  - (* adding a positive finite number *)
    destruct X as [sx|[|]| |sx mx ex]; try reflexivity.
    cbn [SpecFloat.valid_binary] in HX, HD.
    destruct (bounded_canonical _ _ HX) as (Hex & _).
    destruct (bounded_canonical _ _ HD) as (Hey & _).
    unfold SF64add, SFadd in *. cbv zeta in *.
    set (ez := Z.min ex ey) in *.
    assert (-1074 <= ez <= ex /\ ez <= ey) as (Hez & Hezy) by (unfold ez; lia).
    rewrite (shl_align_fst mx ex ez), (shl_align_fst my ey ez) in * by lia.
    assert (0 < 2 ^ (ez + 1074)) as Hg by (apply pow2_pos; lia).
    assert (0 < Zpos my * 2 ^ (ey - ez)) as Hy.
    { apply Z.mul_pos_pos; [lia|apply pow2_pos; lia]. }
    pose proof (units_shifted mx ex ez ltac:(lia)) as Hux.
    destruct sx; cbn [cond_Zopp] in *.
    + (* from a negative number *)
      destruct (- (Zpos mx * 2 ^ (ex - ez)) + Zpos my * 2 ^ (ey - ez)) as [|M|M] eqn:EM;
        cbn [binary_normalize] in *.
      * reflexivity.
      * destruct (binary_round_grid false M ez ltac:(lia))
          as (mr & er & _ & _ & _ & -> & _).
        destruct (er <=? 971); reflexivity.
      * destruct (binary_round_below true M ez mx ex ltac:(lia) HX) as (mr & er & Hr & Hle).
        { rewrite <- Hux. unfold units.
          apply Z.mul_le_mono_nonneg_r; lia. }
        rewrite Hr in *. cbn [SpecFloat.valid_binary] in HR.
        unfold SFltb. cbn [SFcompare].
        pose proof (compare_units_opp _ _ _ _ HR HX Hle) as Hc.
        destruct (match er ?= ex with Lt => Gt | Eq => _ | Gt => Lt end);
          congruence.
    + (* from a positive number *)
      destruct (Zpos mx * 2 ^ (ex - ez) + Zpos my * 2 ^ (ey - ez)) as [|M|M] eqn:EM;
        try lia.
      cbn [binary_normalize] in *.
      destruct (binary_round_above false M ez mx ex ltac:(lia) HX) as [Hr|(mr & er & Hr & Hle)].
      { rewrite <- Hux. unfold units.
        apply Z.mul_le_mono_nonneg_r; lia. }
      * rewrite Hr. reflexivity.
      * rewrite Hr in *. cbn [SpecFloat.valid_binary] in HR.
        unfold SFltb. cbn [SFcompare].
        pose proof (compare_units_ge _ _ _ _ HR HX Hle) as Hc.
        destruct (match er ?= ex with Lt => Lt | Eq => _ | Gt => Gt end);
          congruence.
Qed.

(** The same for binary64 numbers. *)
Lemma add_nonneg_not_below (x d : float) :
  (0 <=? d)%float = true -> (x + d <? x)%float = false.
Proof.
  intros H. rewrite ltb_spec, add_spec. rewrite leb_spec in H.
  apply SFadd_nonneg_not_below; try apply Prim2SF_valid; [|exact H].
  rewrite <- add_spec. apply Prim2SF_valid.
Qed.

End Binary64Addition.

(** ** Chunks and the cursor *)

Section Scheduling.
Import LiveMusicHelper Timeline.

(** A processed batch reaches the continuation after the decode. *)
Lemma processed_resume now b chunks e :
  processed chunks e ->
  processAudioChunks now b chunks e = processAudioChunks_resume now b e.
Proof.
  intros [bytes H]. unfold processAudioChunks. now rewrite H.
Qed.

(** A processed batch found the engine loading or playing. *)
Lemma processed_state chunks e :
  processed chunks e -> playbackState e = loading \/ playbackState e = playing.
Proof.
  intros [bytes H]. unfold processAudioChunks_enter in H.
  destruct (playbackState e); try discriminate; auto.
Qed.

(** On a cursor that reads 0 the continuation primes the cursor, arms the
    timeout and then starts the buffer at the primed cursor. *)
Lemma resume_primed now b e :
  nextStartTime e == 0 ->
  processAudioChunks_prime now e =
    setTimeout flip_to_playing (bufferTime * 1000)
      (set_nextStartTime (now + bufferTime) e) /\
  processAudioChunks_resume now b e =
    set_nextStartTime (now + bufferTime + duration b)
      (start b (now + bufferTime) (processAudioChunks_prime now e)).
Proof.
  intros Hz. apply Qeq_bool_iff in Hz.
  unfold processAudioChunks_resume, processAudioChunks_prime. rewrite Hz.
  split; [reflexivity|].
  unfold processAudioChunks_schedule. cbn [setTimeout set_timers set_nextStartTime nextStartTime].
  assert (Hle : Qlt_bool (now + bufferTime) now = false).
  { apply Qlt_bool_false_iff. unfold bufferTime. lra. }
  now rewrite Hle.
Qed.

(** With the cursor nonzero and behind the clock the continuation drops the
    buffer. *)
Lemma resume_underrun now b e :
  ~ nextStartTime e == 0 -> nextStartTime e < now ->
  processAudioChunks_resume now b e =
  set_nextStartTime 0 (setPlaybackState loading e).
Proof.
  intros Hnz Hlt.
  unfold processAudioChunks_resume, processAudioChunks_prime.
  apply Qeq_bool_false_iff in Hnz. rewrite Hnz.
  unfold processAudioChunks_schedule.
  apply Qlt_bool_iff in Hlt. now rewrite Hlt.
Qed.

(** *** What each method does to the playback state *)

Lemma playbackState_pause e : playbackState (pause e) = paused.
Proof. reflexivity. Qed.

Lemma playbackState_stop e : playbackState (stop e) = stopped.
Proof. reflexivity. Qed.

Lemma playbackState_setPitchBend v e :
  playbackState (setPitchBend v e) = playbackState e.
Proof.
  unfold setPitchBend.
  destruct (session e); [|reflexivity].
  destruct (playbackState e) eqn:E; cbn; now rewrite ?E.
Qed.


(** *** The claims on scheduling *)

(** C3. A chunk processed while the cursor is nonzero and earlier than the
    audio clock sets the playback state to [loading], resets the cursor to 0
    and returns: no source is started for it and no timeout is armed. *)
Theorem C3_underrun_drops_chunk :
  forall now b chunks e,
    processed chunks e -> ~ nextStartTime e == 0 -> nextStartTime e < now ->
    let e' := processAudioChunks now b chunks e in
    playbackState e' = loading /\
    nextStartTime e' = 0 /\
    started e' = started e /\
    timers e' = timers e /\
    remote e' = remote e /\
    dispatched e' = dispatched e ++ [playback_state_changed loading].
Proof.
  intros now b chunks e Hp Hnz Hlt e'. subst e'.
  rewrite (processed_resume _ _ _ _ Hp), (resume_underrun _ _ _ Hnz Hlt).
  cbn. auto 10.
Qed.

(** C6. A chunk batch delivered while the playback state is [paused] or
    [stopped] makes [processAudioChunks] return at its first statement: no
    decode is awaited and the engine is left as it was, so no source is
    started, the cursor and the playback state keep their values, and
    nothing of the batch is kept (the engine has no field that could hold
    it). *)
Theorem C6_paused_or_stopped_discards :
  forall now b chunks e,
    playbackState e = paused \/ playbackState e = stopped ->
    processAudioChunks_enter chunks e = Returned /\
    processAudioChunks now b chunks e = e /\
    (forall m, audioChunks m = Some chunks ->
       snd (onmessage m e) = Returned /\
       started (fst (onmessage m e)) = started e /\
       nextStartTime (fst (onmessage m e)) = nextStartTime e /\
       playbackState (fst (onmessage m e)) = playbackState e /\
       timers (fst (onmessage m e)) = timers e).
Proof.
  intros now b chunks e Hst.
  assert (Hent : forall e0, playbackState e0 = playbackState e ->
                   processAudioChunks_enter chunks e0 = Returned).
  { intros e0 H0. unfold processAudioChunks_enter. rewrite H0.
    destruct Hst as [-> | ->]; reflexivity. }
  split; [now apply Hent|].
  split; [unfold processAudioChunks; now rewrite Hent|].
  intros m Hm. unfold onmessage. rewrite Hm. cbn [fst snd].
  split.
  - apply Hent. destruct (setupComplete m), (filteredPrompt m); reflexivity.
  - destruct (setupComplete m), (filteredPrompt m); cbn; auto.
Qed.

(** *** The claims at concrete inputs *)

(** C3 on the primed engine (cursor at 3), chunk decoded at clock 5. *)
Lemma C3_underrun_drops_chunk_witness :
  processed Fixtures.batch Fixtures.primed_engine /\
  ~ nextStartTime Fixtures.primed_engine == 0 /\
  nextStartTime Fixtures.primed_engine < 5 /\
  playbackState
    (processAudioChunks 5 Fixtures.one_second Fixtures.batch
       Fixtures.primed_engine) = loading /\
  started
    (processAudioChunks 5 Fixtures.one_second Fixtures.batch
       Fixtures.primed_engine) = started Fixtures.primed_engine.
Proof.
  assert (Hp : processed Fixtures.batch Fixtures.primed_engine)
    by (eexists; reflexivity).
  assert (Hnz : ~ nextStartTime Fixtures.primed_engine == 0)
    by (vm_compute; discriminate).
  assert (Hlt : nextStartTime Fixtures.primed_engine < 5) by reflexivity.
  split; [exact Hp|]. split; [exact Hnz|]. split; [exact Hlt|].
  pose proof (C3_underrun_drops_chunk 5 Fixtures.one_second Fixtures.batch
                Fixtures.primed_engine Hp Hnz Hlt) as H.
  cbv zeta in H.
  split; [exact (proj1 H)|exact (proj1 (proj2 (proj2 H)))].
Defined.

(** C6 on the engine as constructed, which is stopped. *)
Lemma C6_paused_or_stopped_discards_witness :
  playbackState init = stopped /\
  processAudioChunks_enter Fixtures.batch init = Returned /\
  processAudioChunks 0 Fixtures.one_second Fixtures.batch init = init.
Proof.
  split; [reflexivity|].
  pose proof (C6_paused_or_stopped_discards 0 Fixtures.one_second
                Fixtures.batch init (or_intror eq_refl)) as H.
  split; [exact (proj1 H)|exact (proj1 (proj2 H))].
Defined.

End Scheduling.

(** ** The cursor in the code's own arithmetic *)

Section Scheduling64.
Import LiveMusicHelper LiveMusicHelper64 Timeline64.

(** A processed batch reaches the continuation after the decode. *)
Lemma processed_resume64 now b chunks e :
  processed chunks e ->
  processAudioChunks now b chunks e = processAudioChunks_resume now b e.
Proof.
  intros [bytes H]. unfold processAudioChunks. now rewrite H.
Qed.

(** With the cursor in step the continuation neither primes nor drops. *)
Lemma resume_in_step64 now b e :
  in_step now e ->
  processAudioChunks_resume now b e =
  set_nextStartTime (nextStartTime e + duration b)%float (start b (nextStartTime e) e).
Proof.
  intros [Hnz Hle].
  unfold processAudioChunks_resume, processAudioChunks_prime. rewrite Hnz.
  unfold processAudioChunks_schedule. now rewrite Hle.
Qed.

Lemma lay_contiguous64 node c bs : contiguous (lay node c bs).
Proof.
  revert c. induction bs as [|b bs IH]; intros c; [exact I|].
  destruct bs as [|b' bs]; [exact I|].
  specialize (IH (c + duration b)%float).
  cbn [lay contiguous startTime buffer] in *.
  split; [reflexivity|exact IH].
Qed.

(** Buffers of durations that are not negative are laid in ascending
    order, whatever the rounding of the sums. *)
Lemma lay_ascending64 node c bs :
  Forall nonnegative bs -> ascending (lay node c bs).
Proof.
  revert c. induction bs as [|b bs IH]; intros c Hall; [exact I|].
  destruct bs as [|b' bs]; [exact I|].
  apply Forall_cons_1 in Hall. destruct Hall as [Hb Hall].
  specialize (IH (c + duration b)%float Hall).
  cbn [lay ascending startTime buffer] in *.
  split; [|exact IH].
  apply add_nonneg_not_below. exact Hb.
Qed.

Lemma lay_buffers64 node c bs : List.map buffer (lay node c bs) = bs.
Proof.
  revert c. induction bs as [|b bs IH]; intros c; cbn; [reflexivity|].
  now rewrite IH.
Qed.

(** A quiet turn leaves the cursor, the output node and the started sources
    as they are. *)
Lemma quiet_frame64 t e :
  quiet t = true ->
  nextStartTime (turn t e) = nextStartTime e /\
  outputNode (turn t e) = outputNode e /\
  started (turn t e) = started e.
Proof.
  destruct t; cbn [quiet turn]; intros Hq; try discriminate.
  - unfold onmessage.
    destruct (setupComplete m), (filteredPrompt m), (audioChunks m); cbn; auto.
  - unfold fireTimer. destruct (timers e !! i) as [tm|]; [|auto].
    destruct (callback tm). cbn. auto.
  - cbn. auto.
  - unfold play_resumed. destruct (session e); cbn; auto.
  - unfold setPitchBend. destruct (session e); [|auto].
    destruct (playbackState e); cbn; auto.
  - cbn. auto.
Qed.

Lemma run_steady64 ts : forall e,
  steady ts e ->
  started (run ts e) =
    started e ++ lay (outputNode e) (nextStartTime e) (decoded_buffers ts) /\
  nextStartTime (run ts e) = lay_end (nextStartTime e) (decoded_buffers ts).
Proof.
  induction ts as [|t ts IH]; intros e H.
  - cbn. rewrite app_nil_r. auto.
  - destruct H as (Ht & Hrest).
    destruct (IH _ Hrest) as (H1 & H2).
    change (run (t :: ts) e) with (run ts (turn t e)).
    rewrite H1, H2.
    assert (Hq : quiet t = true -> decoded_buffers (t :: ts) = decoded_buffers ts)
      by (destruct t; intros; try discriminate; reflexivity).
    destruct t;
      try (destruct (quiet_frame64 _ e Ht) as (Q1 & Q2 & Q3);
           rewrite Q1, Q2, Q3, (Hq Ht); auto);
      try discriminate Ht.
    cbn [turn decoded_buffers steady_turn] in *.
    rewrite (resume_in_step64 _ _ _ Ht). cbn.
    rewrite <- app_assoc. auto.
Qed.

(** The primed cursor is not below the clock it was computed from, so the
    second test of the continuation fails on it. *)
Lemma primed_not_behind now : (now + bufferTime <? now)%float = false.
Proof. apply add_nonneg_not_below. reflexivity. Qed.

(** On a cursor that reads 0 the continuation primes the cursor, arms the
    timeout and then starts the buffer at the primed cursor. *)
Lemma resume_primed64 now b e :
  (nextStartTime e =? 0)%float = true ->
  processAudioChunks_prime now e =
    setTimeout flip_to_playing (bufferTime * 1000)%float
      (set_nextStartTime (now + bufferTime)%float e) /\
  processAudioChunks_resume now b e =
    set_nextStartTime (now + bufferTime + duration b)%float
      (start b (now + bufferTime)%float (processAudioChunks_prime now e)).
Proof.
  intros Hz.
  unfold processAudioChunks_resume, processAudioChunks_prime. rewrite Hz.
  split; [reflexivity|].
  unfold processAudioChunks_schedule.
  cbn [setTimeout set_timers set_nextStartTime nextStartTime].
  now rewrite primed_not_behind.
Qed.

(** With the cursor nonzero and below the clock the continuation drops the
    buffer. *)
Lemma resume_underrun64 now b e :
  (nextStartTime e =? 0)%float = false -> (nextStartTime e <? now)%float = true ->
  processAudioChunks_resume now b e =
  set_nextStartTime 0%float (setPlaybackState loading e).
Proof.
  intros Hnz Hlt.
  unfold processAudioChunks_resume, processAudioChunks_prime. rewrite Hnz.
  unfold processAudioChunks_schedule. now rewrite Hlt.
Qed.

(** *** What each method does to the playback state *)

Lemma playbackState_resume64 now b e :
  playbackState (processAudioChunks_resume now b e) = playbackState e \/
  playbackState (processAudioChunks_resume now b e) = loading.
Proof.
  unfold processAudioChunks_resume, processAudioChunks_schedule.
  destruct (_ <? now)%float; [right; reflexivity|left].
  unfold processAudioChunks_prime.
  destruct (nextStartTime e =? 0)%float; reflexivity.
Qed.

Lemma playbackState_onmessage64 m e :
  playbackState (fst (onmessage m e)) = playbackState e.
Proof.
  unfold onmessage.
  destruct (setupComplete m), (filteredPrompt m), (audioChunks m); reflexivity.
Qed.

Lemma playbackState_setWeightedPrompts64 ps e :
  playbackState (setWeightedPrompts ps e) = playbackState e \/
  playbackState (setWeightedPrompts ps e) = paused.
Proof.
  unfold setWeightedPrompts.
  destruct (List.length _ =? 0)%nat; [right; reflexivity|left].
  cbn [session set_prompts]. destruct (session e); reflexivity.
Qed.

Lemma playbackState_setPitchBend64 v e :
  playbackState (setPitchBend v e) = playbackState e.
Proof.
  unfold setPitchBend.
  destruct (session e); [|reflexivity].
  destruct (playbackState e) eqn:E; cbn; now rewrite ?E.
Qed.

Lemma playbackState_play_enter64 fresh e :
  playbackState (play_enter fresh e) = loading.
Proof.
  unfold play_enter, getSession.
  cbn [sessionPromise setPlaybackState dispatchEvent set_playbackState].
  destruct (sessionPromise e); reflexivity.
Qed.

Lemma playbackState_play_resumed64 e :
  playbackState (play_resumed e) = playbackState e.
Proof. unfold play_resumed. destruct (session e); reflexivity. Qed.

(** Only a timeout that fires takes the engine into [playing]. *)
Lemma playing_only_by_timer64 t e :
  playbackState (turn t e) = playing -> playbackState e <> playing ->
  exists i tm, t = TTimer i /\ timers e !! i = Some tm.
Proof.
  intros H Hne. destruct t; cbn [turn] in H.
  - rewrite playbackState_onmessage64 in H. contradiction.
  - destruct (playbackState_resume64 now audioBuffer e) as [E|E];
      rewrite E in H; [contradiction|discriminate].
  - discriminate.
  - discriminate.
  - unfold fireTimer in H. destruct (timers e !! i) as [tm|] eqn:E.
    + now exists i, tm.
    + contradiction.
  - rewrite playbackState_play_enter64 in H. discriminate.
  - cbn in H. contradiction.
  - unfold play_push in H.
    destruct (playbackState_setWeightedPrompts64 (prompts e) e) as [E|E];
      rewrite E in H; [contradiction|discriminate].
  - rewrite playbackState_play_resumed64 in H. contradiction.
  - discriminate.
  - discriminate.
  - unfold playPause in H. destruct (playbackState e) eqn:E;
      try rewrite playbackState_play_enter64 in H; discriminate.
  - destruct (playbackState_setWeightedPrompts64 prompts0 e) as [E|E];
      rewrite E in H; [contradiction|discriminate].
  - discriminate.
  - rewrite playbackState_setPitchBend64 in H. contradiction.
  - cbn in H. contradiction.
Qed.

(** *** The claims on the values of the cursor *)

(** C1. A chunk processed while the cursor is nonzero and not below the
    audio clock has its buffer started exactly at the cursor, and the cursor
    then becomes the sum of itself and the duration of that buffer, as the
    code's [+=] computes it: the binary64 sum.  Hence, over any stretch of
    turns in which every decode resolves with the cursor in step and
    nothing else writes the cursor, the new sources are the decoded buffers
    in arrival order, the first starts at the cursor the stretch found, each
    later one starts at the binary64 sum of the start and the duration of
    the one before it, and, the durations being not negative, no source
    starts before the one before it. *)
Theorem C1_gapless_schedule :
  (forall now b chunks e,
     processed chunks e -> in_step now e ->
     let e' := processAudioChunks now b chunks e in
     started e' =
       started e ++ [ {| buffer := b; destination := outputNode e;
                         startTime := nextStartTime e |} ] /\
     nextStartTime e' = (nextStartTime e + duration b)%float /\
     playbackState e' = playbackState e /\
     timers e' = timers e) /\
  (forall ts e,
     steady ts e ->
     exists news,
       started (run ts e) = started e ++ news /\
       List.map buffer news = decoded_buffers ts /\
       (forall s, head news = Some s -> startTime s = nextStartTime e) /\
       contiguous news /\
       (Forall nonnegative (decoded_buffers ts) -> ascending news) /\
       nextStartTime (run ts e) = lay_end (nextStartTime e) (decoded_buffers ts)).
Proof.
  split.
  - intros now b chunks e Hp Hs e'. subst e'.
    rewrite (processed_resume64 _ _ _ _ Hp), (resume_in_step64 _ _ _ Hs).
    cbn. auto.
  - intros ts e H.
    destruct (run_steady64 ts e H) as (H1 & H2).
    exists (lay (outputNode e) (nextStartTime e) (decoded_buffers ts)).
    split; [exact H1|]. split; [apply lay_buffers64|].
    split; [|split; [apply lay_contiguous64|split; [apply lay_ascending64|exact H2]]].
    intros s Hs. destruct (decoded_buffers ts) as [|b bs]; cbn in Hs; [discriminate|].
    injection Hs as <-. reflexivity.
Qed.

(** C2. A chunk processed while the cursor reads 0 makes the engine set the
    cursor to the audio clock plus [bufferTime], which is 2 seconds (the
    binary64 sum, as line 131 stores it), and arm one timeout of
    [bufferTime * 1000], which is 2000, milliseconds whose callback sets the
    playback state to [playing]; the chunk's own buffer is then started at
    that cursor, which is never below the clock.  The timeout fires once.
    No other turn of the engine takes the playback state from another state
    into [playing]. *)
Theorem C2_first_chunk_primes :
  (forall now b chunks e,
     processed chunks e -> (nextStartTime e =? 0)%float = true ->
     let primed := processAudioChunks_prime now e in
     let e' := processAudioChunks now b chunks e in
     let armed := {| callback := flip_to_playing; delay := (bufferTime * 1000)%float |} in
     nextStartTime primed = (now + bufferTime)%float /\
     bufferTime = 2%float /\
     delay armed = 2000%float /\
     timers primed = timers e ++ [armed] /\
     (nextStartTime primed <? now)%float = false /\
     e' = processAudioChunks_schedule now b primed /\
     started e' =
       started e ++ [ {| buffer := b; destination := outputNode e;
                         startTime := (now + bufferTime)%float |} ] /\
     nextStartTime e' = (now + bufferTime + duration b)%float /\
     timers e' = timers e ++ [armed] /\
     playbackState e' = playbackState e /\
     playbackState (fireTimer (List.length (timers e)) e') = playing /\
     timers (fireTimer (List.length (timers e)) e') = timers e) /\
  (forall t e,
     playbackState (turn t e) = playing -> playbackState e <> playing ->
     exists i tm, t = TTimer i /\ timers e !! i = Some tm).
Proof.
  split; [|exact playing_only_by_timer64].
  intros now b chunks e Hp Hz primed e' armed.
  destruct (resume_primed64 now b e Hz) as [Hprime Hres].
  assert (He' : e' = processAudioChunks_resume now b e)
    by (apply processed_resume64; exact Hp).
  assert (Hshape : e' =
    set_nextStartTime (now + bufferTime + duration b)%float
      (start b (now + bufferTime)%float
         (setTimeout flip_to_playing (bufferTime * 1000)%float
            (set_nextStartTime (now + bufferTime)%float e))))
    by (rewrite He', Hres, Hprime; reflexivity).
  split; [subst primed; rewrite Hprime; reflexivity|].
  split; [reflexivity|].
  split; [reflexivity|].
  split; [subst primed; rewrite Hprime; reflexivity|].
  split; [subst primed; rewrite Hprime; apply primed_not_behind|].
  split; [exact He'|].
  rewrite Hshape. unfold fireTimer.
  cbn [setTimeout set_timers set_nextStartTime start nextStartTime timers
       started outputNode playbackState].
  rewrite list_lookup_middle by reflexivity.
  cbn [callback runCallback setPlaybackState dispatchEvent set_playbackState
       set_timers playbackState timers].
  rewrite delete_middle, app_nil_r.
  repeat split; reflexivity.
Qed.

(** *** The claims at concrete inputs *)

(** C1 on the primed engine: a chunk decoded at clock 0.5, and then the
    stretch of [Fixtures64.steady_turns]. *)
Lemma C1_gapless_schedule_witness :
  processed Fixtures.batch Fixtures64.primed_engine /\
  in_step 0.5 Fixtures64.primed_engine /\
  steady Fixtures64.steady_turns Fixtures64.primed_engine /\
  nextStartTime
    (processAudioChunks 0.5 Fixtures64.one_second Fixtures.batch
       Fixtures64.primed_engine)
  = (nextStartTime Fixtures64.primed_engine + duration Fixtures64.one_second)%float /\
  exists news,
    started (run Fixtures64.steady_turns Fixtures64.primed_engine) =
      started Fixtures64.primed_engine ++ news /\
    List.map buffer news = [Fixtures64.one_second; Fixtures64.one_second] /\
    contiguous news.
Proof.
  assert (Hp : processed Fixtures.batch Fixtures64.primed_engine)
    by (eexists; reflexivity).
  assert (Hs : in_step 0.5 Fixtures64.primed_engine)
    by (split; reflexivity).
  assert (Hall : steady Fixtures64.steady_turns Fixtures64.primed_engine).
  { split; [reflexivity|]. split; [exact Hs|].
    split; [reflexivity|]. split; [reflexivity|].
    split; [split; reflexivity|exact I]. }
  split; [exact Hp|]. split; [exact Hs|]. split; [exact Hall|].
  split.
  - exact (proj1 (proj2 (proj1 C1_gapless_schedule 0.5%float Fixtures64.one_second
                            Fixtures.batch Fixtures64.primed_engine Hp Hs))).
  - destruct (proj2 C1_gapless_schedule Fixtures64.steady_turns
                Fixtures64.primed_engine Hall) as (news & H1 & H2 & _ & H4 & _).
    exists news. split; [exact H1|]. split; [exact H2|exact H4].
Defined.

(** C2 on the loading engine, first chunk decoded at clock 0. *)
Lemma C2_first_chunk_primes_witness :
  processed Fixtures.batch Fixtures64.loading_engine /\
  (nextStartTime Fixtures64.loading_engine =? 0)%float = true /\
  nextStartTime (processAudioChunks_prime 0 Fixtures64.loading_engine)
    = (0 + bufferTime)%float /\
  playbackState
    (fireTimer (List.length (timers Fixtures64.loading_engine))
       Fixtures64.primed_engine) = playing.
Proof.
  assert (Hp : processed Fixtures.batch Fixtures64.loading_engine)
    by (eexists; reflexivity).
  assert (Hz : (nextStartTime Fixtures64.loading_engine =? 0)%float = true)
    by reflexivity.
  split; [exact Hp|]. split; [exact Hz|].
  pose proof (proj1 C2_first_chunk_primes 0%float Fixtures64.one_second Fixtures.batch
                Fixtures64.loading_engine Hp Hz) as H.
  cbv zeta in H.
  split; [exact (proj1 H)|].
  exact (proj1 (proj2 (proj2 (proj2 (proj2 (proj2 (proj2 (proj2 (proj2 (proj2 (proj2 H))))))))))).
Defined.

(** The start-up scenario on the code: a first chunk of one second arriving
    at clock 0 is itself started at 2 and leaves the cursor at 3; a second
    chunk of one second arriving at clock 0.5 is started at 3 and leaves
    the cursor at 4. *)
Example startup_scenario :
  let e1 := processAudioChunks 0 Fixtures64.one_second Fixtures.batch
              Fixtures64.loading_engine in
  let e2 := processAudioChunks 0.5 Fixtures64.one_second Fixtures.batch e1 in
  exists s1 s2,
    started e1 = [s1] /\ startTime s1 = 2%float /\ nextStartTime e1 = 3%float /\
    started e2 = [s1; s2] /\ startTime s2 = 3%float /\ nextStartTime e2 = 4%float.
Proof.
  cbv zeta. do 2 eexists.
  split; [reflexivity|]. split; [reflexivity|]. split; [reflexivity|].
  split; [reflexivity|]. split; reflexivity.
Qed.

(** The sums are rounded.  Three buffers of 0.1 second laid from the cursor
    2 leave it at 2.3000000000000003, and five buffers of 0.4 second leave
    it at 3.9999999999999996, so that a sixth one decoded at clock 4 finds
    the cursor below the clock and is dropped. *)
Example rounded_cursor :
  let tenth := Fixtures64.tenth_of_a_second in
  let four := Fixtures64.four_tenths in
  let primed b := processAudioChunks 0 b Fixtures.batch Fixtures64.loading_engine in
  nextStartTime (run [TDecoded 0 tenth; TDecoded 0 tenth] (primed tenth))
    = 0x1.2666666666667p+1%float /\
  let five := run [TDecoded 0 four; TDecoded 0 four; TDecoded 0 four; TDecoded 0 four]
                (primed four) in
  nextStartTime five = 0x1.fffffffffffffp+1%float /\
  started (turn (TDecoded 4 four) five) = started five /\
  playbackState (turn (TDecoded 4 four) five) = loading /\
  nextStartTime (turn (TDecoded 4 four) five) = 0%float.
Proof.
  cbv zeta. split; [vm_compute; reflexivity|].
  split; [vm_compute; reflexivity|].
  split; [vm_compute; reflexivity|].
  split; vm_compute; reflexivity.
Qed.

End Scheduling64.

(** ** Stop and pause against work in flight *)

Section Cancellation.
Import LiveMusicHelper Timeline.

(** [stop] and [pause] leave the pending timeouts alone. *)
Lemma timers_stop e : timers (stop e) = timers e.
Proof. unfold stop. destruct (session e); reflexivity. Qed.

Lemma timers_pause e : timers (pause e) = timers e.
Proof. unfold pause. destruct (session e); reflexivity. Qed.

(** A pending timeout that fires sets the playback state to [playing],
    whatever the state was. *)
Lemma fireTimer_playing i tm e :
  timers e !! i = Some tm -> playbackState (fireTimer i e) = playing.
Proof.
  intros H. unfold fireTimer. rewrite H. destruct (callback tm). reflexivity.
Qed.

(** The continuation of a decode that resolves after a [stop] finds the
    cursor at 0 and so primes it, arms the timeout and starts the buffer. *)
Lemma resume_after_stop now b e :
  let e' := processAudioChunks_resume now b (stop e) in
  started e' =
    started e ++ [ {| buffer := b; destination := outputNode e;
                      startTime := now + bufferTime |} ] /\
  nextStartTime e' = now + bufferTime + duration b /\
  timers e' =
    timers e ++ [ {| callback := flip_to_playing; delay := bufferTime * 1000 |} ] /\
  playbackState e' = stopped.
Proof.
  intros e'. subst e'.
  assert (Hz : nextStartTime (stop e) == 0)
    by (unfold stop; destruct (session e); reflexivity).
  destruct (resume_primed now b (stop e) Hz) as [Hprime ->]. rewrite Hprime.
  unfold stop. destruct (session e); cbn; auto.
Qed.

(** C4 does not hold on the code.  The engine is loading and
    connected; a batch passes the state guard and its decode is awaited;
    [stop] runs; the decode resolves at clock 1.  The continuation does not
    look at the playback state again: it starts the buffer at 3, leaves the
    cursor at 4 and arms the timeout, all in state [stopped]; a batch
    arriving in that state would have been turned away by the guard. *)
Theorem C4_decode_resolved_after_stop :
  let e0 := Fixtures.loading_engine in
  let e1 := stop e0 in
  let e2 := processAudioChunks_resume 1 Fixtures.one_second e1 in
  processAudioChunks_enter Fixtures.batch e0 = AwaitDecode "UklGRg==" /\
  playbackState e1 = stopped /\
  processAudioChunks_enter Fixtures.batch e1 = Returned /\
  started e1 = [] /\
  started e2 =
    [ {| buffer := Fixtures.one_second; destination := outputNode e0;
         startTime := 1 + bufferTime |} ] /\
  nextStartTime e1 == 0 /\
  nextStartTime e2 == 4 /\
  timers e2 = [ {| callback := flip_to_playing; delay := bufferTime * 1000 |} ] /\
  playbackState e2 = stopped /\
  e2 = run [TStop; TDecoded 1 Fixtures.one_second] e0.
Proof.
  cbv zeta.
  destruct (resume_after_stop 1 Fixtures.one_second Fixtures.loading_engine)
    as (H1 & _ & H3 & H4).
  repeat split; try reflexivity; assumption.
Qed.

(** C5 fails on the code: the timeout armed by the first chunk is still
    pending after [stop] and after [pause], and when it fires the playback
    state goes from [stopped] (or [paused]) to [playing]. *)
Lemma C5_timer_not_cancelled_counterexample :
  let armed := {| callback := flip_to_playing; delay := bufferTime * 1000 |} in
  timers Fixtures.primed_engine = [armed] /\
  timers (stop Fixtures.primed_engine) = [armed] /\
  playbackState (stop Fixtures.primed_engine) = stopped /\
  playbackState (fireTimer 0 (stop Fixtures.primed_engine)) = playing /\
  timers (pause Fixtures.primed_engine) = [armed] /\
  playbackState (pause Fixtures.primed_engine) = paused /\
  playbackState (fireTimer 0 (pause Fixtures.primed_engine)) = playing.
Proof. cbv zeta. repeat split. Qed.

(** C5 as the code has it.  When [stop] or [pause] runs after a first chunk
    armed the timeout and before the timeout fires, the timeout stays
    pending; when it fires afterwards, the playback state is set to
    [playing]. *)
Theorem C5_timer_survives_stop_and_pause :
  forall now b chunks e,
    processed chunks e -> nextStartTime e == 0 ->
    let e' := processAudioChunks now b chunks e in
    let i := List.length (timers e) in
    let armed := {| callback := flip_to_playing; delay := bufferTime * 1000 |} in
    timers e' !! i = Some armed /\
    timers (stop e') !! i = Some armed /\
    timers (pause e') !! i = Some armed /\
    playbackState (stop e') = stopped /\
    playbackState (pause e') = paused /\
    playbackState (fireTimer i (stop e')) = playing /\
    playbackState (fireTimer i (pause e')) = playing.
Proof.
  intros now b chunks e Hp Hz e' i armed.
  assert (Ht : timers e' !! i = Some armed).
  { subst e' i. rewrite (processed_resume _ _ _ _ Hp).
    destruct (resume_primed now b e Hz) as [Hprime ->]. rewrite Hprime.
    cbn [setTimeout set_timers set_nextStartTime start timers].
    now apply list_lookup_middle. }
  split; [exact Ht|].
  split; [now rewrite timers_stop|].
  split; [now rewrite timers_pause|].
  split; [reflexivity|]. split; [reflexivity|].
  split; apply (fireTimer_playing i armed).
  - now rewrite timers_stop.
  - now rewrite timers_pause.
Qed.

(** The amended C5 on the loading engine: first chunk at clock 0, then
    [stop], then the timeout. *)
Lemma C5_timer_survives_stop_and_pause_witness :
  processed Fixtures.batch Fixtures.loading_engine /\
  nextStartTime Fixtures.loading_engine == 0 /\
  playbackState
    (fireTimer (List.length (timers Fixtures.loading_engine))
       (stop Fixtures.primed_engine)) = playing.
Proof.
  assert (Hp : processed Fixtures.batch Fixtures.loading_engine)
    by (eexists; reflexivity).
  assert (Hz : nextStartTime Fixtures.loading_engine == 0) by reflexivity.
  split; [exact Hp|]. split; [exact Hz|].
  pose proof (C5_timer_survives_stop_and_pause 0 Fixtures.one_second
                Fixtures.batch Fixtures.loading_engine Hp Hz) as H.
  cbv zeta in H.
  exact (proj1 (proj2 (proj2 (proj2 (proj2 (proj2 H)))))).
Defined.

End Cancellation.

(** ** Prompts and connection callbacks *)

Section PromptsAndConnection.
Import LiveMusicHelper.

(** Membership in the active-prompt view. *)
Lemma activePrompts_In p e :
  In p (activePrompts e) <->
  In p (List.map snd (prompts e)) /\
  (text p ∉ filteredPrompts e) /\ ~ (weight p == 0).
Proof.
  unfold activePrompts. rewrite filter_In, andb_true_iff, !negb_true_iff.
  rewrite bool_decide_eq_false, Qeq_bool_false_iff. reflexivity.
Qed.

(** The remote calls [setWeightedPrompts] adds, by case. *)
Lemma remote_setWeightedPrompts ps e :
  remote (setWeightedPrompts ps e) =
  remote e ++
    match activePrompts (set_prompts ps e), session e with
    | [], Some s => [session_pause s]
    | [], None => []
    | _ :: _, Some s =>
        [session_setWeightedPrompts s
           (List.map weighted (activePrompts (set_prompts ps e)))]
    | _ :: _, None => []
    end.
Proof.
  unfold setWeightedPrompts.
  destruct (activePrompts (set_prompts ps e)) as [|p l] eqn:E; cbn [List.length Nat.eqb].
  - unfold pause. cbn [session dispatchEvent set_prompts].
    destruct (session e); cbn; [reflexivity|now rewrite app_nil_r].
  - cbn [session set_prompts]. destruct (session e); cbn; [reflexivity|now rewrite app_nil_r].
Qed.

(** C7. For every prompt map and every set of filtered texts, the list
    that [setWeightedPrompts] hands to the remote session holds exactly the
    pairs made of the text and the weight of a prompt of the map whose
    weight is not 0 and whose text is not filtered; a prompt of weight 0 or
    of filtered text is never in it.  Every prompt push the call makes
    carries that list, and the push is made whenever the engine holds a
    session and the list is not empty. *)
Theorem C7_pushed_prompts_are_the_active_ones :
  forall ps e,
    let e' := setWeightedPrompts ps e in
    let pushed :=
      List.map (fun p => {| wp_text := text p; wp_weight := weight p |})
        (activePrompts (set_prompts ps e)) in
    (forall wp,
       In wp pushed <->
       exists p, In p (List.map snd ps) /\
                 wp_text wp = text p /\ wp_weight wp = weight p /\
                 ~ (weight p == 0) /\ (text p ∉ filteredPrompts e)) /\
    (forall wp, In wp pushed ->
       ~ (wp_weight wp == 0) /\ (wp_text wp ∉ filteredPrompts e)) /\
    (exists news,
       remote e' = remote e ++ news /\
       forall s l, In (session_setWeightedPrompts s l) news ->
                   session e = Some s /\ l = pushed) /\
    (forall s, session e = Some s -> pushed <> [] ->
       remote e' = remote e ++ [session_setWeightedPrompts s pushed]).
Proof.
  intros ps e e' pushed.
  assert (Hin : forall wp,
       In wp pushed <->
       exists p, In p (List.map snd ps) /\
                 wp_text wp = text p /\ wp_weight wp = weight p /\
                 ~ (weight p == 0) /\ (text p ∉ filteredPrompts e)).
  { intros wp. subst pushed. rewrite in_map_iff. split.
    - intros (p & <- & Hp). apply activePrompts_In in Hp.
      destruct Hp as (H1 & H2 & H3). exists p. cbn. auto.
    - intros (p & H1 & Ht & Hw & H3 & H2). exists p. split.
      + destruct wp as [t w]. cbn in Ht, Hw. now subst t w.
      + apply activePrompts_In. auto. }
  split; [exact Hin|]. split.
  - intros wp Hwp. apply Hin in Hwp.
    destruct Hwp as (p & _ & Ht & Hw & H3 & H2). rewrite Ht, Hw. auto.
  - subst e' pushed. rewrite remote_setWeightedPrompts. split.
    + eexists. split; [reflexivity|]. intros s l Hl.
      destruct (activePrompts (set_prompts ps e)) as [|p0 l0],
               (session e) as [s0|];
        cbn [In] in Hl; try contradiction.
      * destruct Hl as [Hl|[]]. discriminate.
      * destruct Hl as [Hl|[]]. injection Hl as <- <-. auto.
    + intros s Hs Hne. rewrite Hs.
      destruct (activePrompts (set_prompts ps e)); [now elim Hne|reflexivity].
Qed.

(** C8. A call of [setWeightedPrompts] whose active-prompt view is empty
    dispatches the error event, then pauses: the playback state is
    [paused], no prompt list is pushed (the only remote call is the pause
    signal, when a session is held), and the session handle and the pending
    connect promise are kept. *)
Theorem C8_no_active_prompt_pauses :
  forall ps e,
    activePrompts (set_prompts ps e) = [] ->
    let e' := setWeightedPrompts ps e in
    dispatched e' =
      dispatched e ++ [error no_active_prompt_message; playback_state_changed paused] /\
    playbackState e' = paused /\
    remote e' =
      remote e ++ match session e with
                  | Some s => [session_pause s]
                  | None => []
                  end /\
    (forall s l, In (session_setWeightedPrompts s l) (remote e') ->
                 In (session_setWeightedPrompts s l) (remote e)) /\
    session e' = session e /\
    sessionPromise e' = sessionPromise e.
Proof.
  intros ps e Hempty e'.
  assert (Hr : remote e' =
      remote e ++ match session e with
                  | Some s => [session_pause s]
                  | None => []
                  end).
  { subst e'. rewrite remote_setWeightedPrompts, Hempty. reflexivity. }
  assert (He' : e' = pause (dispatchEvent (error no_active_prompt_message)
                              (set_prompts ps e))).
  { subst e'. unfold setWeightedPrompts. now rewrite Hempty. }
  split; [|split; [|split; [exact Hr|split]]].
  - rewrite He'. unfold pause. cbn [session dispatchEvent set_prompts].
    destruct (session e); cbn; now rewrite <- app_assoc.
  - rewrite He'. reflexivity.
  - intros s l Hl. rewrite Hr in Hl. apply in_app_or in Hl.
    destruct Hl as [Hl|Hl]; [exact Hl|].
    destruct (session e); cbn in Hl; [|contradiction].
    destruct Hl as [Hl|[]]. discriminate.
  - rewrite He'. unfold pause. cbn [session dispatchEvent set_prompts].
    destruct (session e) eqn:E; cbn; rewrite ?E; auto.
Qed.

(** C9. When [onerror] or [onclose] fires, in any playback state, the
    engine ends [stopped], with the cursor at 0, the session handle and the
    pending connect promise nulled, the connection flagged in error, and
    the connection-error event dispatched after the state change. *)
Theorem C9_connection_failure_stops :
  forall e,
    let stopped_with_error (e' : Engine) :=
      playbackState e' = stopped /\
      nextStartTime e' = 0 /\
      session e' = None /\
      sessionPromise e' = None /\
      connectionError e' = true /\
      dispatched e' =
        dispatched e ++
          [playback_state_changed stopped; error connection_error_message] in
    stopped_with_error (onerror e) /\ stopped_with_error (onclose e).
Proof.
  intros e. cbv zeta. unfold onerror, onclose, stop.
  cbn [session set_connectionError].
  destruct (session e); cbn; rewrite <- app_assoc; auto 15.
Qed.

(** *** The claims at concrete inputs *)

(** C7 on three prompts, the second of weight 0 and the third filtered:
    only the pair of the first is pushed. *)
Lemma C7_pushed_prompts_are_the_active_ones_witness :
  session Fixtures.filtering_engine = Some 1%nat /\
  [ {| wp_text := "Bossa Nova"; wp_weight := 1 |} ] <> [] /\
  remote (setWeightedPrompts Fixtures.prompt_map Fixtures.filtering_engine) =
    remote Fixtures.filtering_engine ++
      [session_setWeightedPrompts 1%nat
         [ {| wp_text := "Bossa Nova"; wp_weight := 1 |} ]].
Proof.
  assert (Hs : session Fixtures.filtering_engine = Some 1%nat) by reflexivity.
  assert (Hne : [ {| wp_text := "Bossa Nova"; wp_weight := 1 |} ] <> [])
    by discriminate.
  split; [exact Hs|]. split; [exact Hne|].
  pose proof (C7_pushed_prompts_are_the_active_ones Fixtures.prompt_map
                Fixtures.filtering_engine) as H.
  cbv zeta in H.
  exact (proj2 (proj2 (proj2 H)) 1%nat Hs Hne).
Defined.

(** C8 on a map whose only prompt has weight 0. *)
Lemma C8_no_active_prompt_pauses_witness :
  activePrompts
    (set_prompts [("prompt-1", Fixtures.prompt_b)] Fixtures.primed_engine) = [] /\
  playbackState
    (setWeightedPrompts [("prompt-1", Fixtures.prompt_b)] Fixtures.primed_engine)
    = paused /\
  session
    (setWeightedPrompts [("prompt-1", Fixtures.prompt_b)] Fixtures.primed_engine)
    = session Fixtures.primed_engine.
Proof.
  assert (Hv : activePrompts
            (set_prompts [("prompt-1", Fixtures.prompt_b)] Fixtures.primed_engine)
          = []) by (vm_compute; reflexivity).
  split; [exact Hv|].
  pose proof (C8_no_active_prompt_pauses [("prompt-1", Fixtures.prompt_b)]
                Fixtures.primed_engine Hv) as H.
  cbv zeta in H.
  split; [exact (proj1 (proj2 H))|].
  exact (proj1 (proj2 (proj2 (proj2 (proj2 H))))).
Defined.

End PromptsAndConnection.

(** ** MIDI pitch bend *)

Section Midi.
Import MidiDispatcher.

Lemma int32_small z : (- 2 ^ 31 <= z < 2 ^ 31)%Z -> int32 z = z.
Proof.
  intros H. unfold int32. rewrite Z.mod_small; lia.
Qed.

Lemma at_index_range data i z :
  at_index data i = Some z -> (0 <= z < 256)%Z.
Proof.
  unfold at_index. destruct (data !! i) as [b|]; cbn; [|discriminate].
  intros [= <-]. pose proof (Byte.to_N_bounded b). lia.
Qed.

Lemma byte_or_0_range data i : (0 <= byte_or_0 data i < 256)%Z.
Proof.
  unfold byte_or_0. destruct (at_index data i) as [z|] eqn:E; cbn; [|lia].
  now apply at_index_range in E.
Qed.

(** [ToInt32] changes no byte, and reads a missing byte as 0. *)
Lemma ToInt32_at_index data i : ToInt32 (at_index data i) = byte_or_0 data i.
Proof.
  pose proof (byte_or_0_range data i) as H. unfold byte_or_0 in *.
  destruct (at_index data i) as [z|]; cbn in *; [|reflexivity].
  apply int32_small. lia.
Qed.

Lemma lor_below_pow2 n a b :
  (0 < n)%Z -> (0 <= a < 2 ^ n)%Z -> (0 <= b < 2 ^ n)%Z ->
  (0 <= Z.lor a b < 2 ^ n)%Z.
Proof.
  intros Hn Ha Hb.
  assert (H0 : (0 <= Z.lor a b)%Z) by (apply Z.lor_nonneg; lia).
  split; [exact H0|].
  destruct (Z.eq_dec (Z.lor a b) 0%Z) as [E|E]; [rewrite E; lia|].
  apply Z.log2_lt_pow2; [lia|].
  rewrite Z.log2_lor by lia.
  assert (Hlog : forall x, (0 <= x < 2 ^ n)%Z -> (Z.log2 x < n)%Z).
  { intros x Hx. destruct (Z.eq_dec x 0%Z) as [->|Hx0]; [cbn; lia|].
    apply Z.log2_lt_pow2; lia. }
  apply Z.max_lub_lt; apply Hlog; assumption.
Qed.

(** The 14-bit value of two 7-bit data bytes. *)
Lemma raw_value_range lsb msb :
  (0 <= lsb < 128)%Z -> (0 <= msb < 128)%Z ->
  (0 <= Z.lor (Z.shiftl msb 7) lsb < 16384)%Z.
Proof.
  intros Hl Hm. change 16384%Z with (2 ^ 14)%Z.
  apply lor_below_pow2; [lia| |lia].
  rewrite Z.shiftl_mul_pow2 by lia. lia.
Qed.

(** C10. A MIDI message whose status byte has high nibble 0xE0 and that
    comes from the active input makes the dispatcher dispatch exactly one
    pitch-bend event, whose value is ((data[2] << 7 | data[1]) - 8192) /
    8192; when both data bytes are at most 127 the value is at least -1 and
    below 1.  A message from an input that is not the active one dispatches
    nothing. *)
Theorem C10_pitch_bend_dispatch :
  (forall d id data,
     activeMidiInputId d = Some id ->
     Z.land (byte_or_0 data 0) 240 = 224%Z ->
     let raw := Z.lor (Z.shiftl (byte_or_0 data 2) 7) (byte_or_0 data 1) in
     let normalized := inject_Z (raw - 8192) / inject_Z 8192 in
     onmidimessage d id (Some data) = [pitch_bend_message normalized] /\
     ((byte_or_0 data 1 < 128)%Z -> (byte_or_0 data 2 < 128)%Z ->
      -1 <= normalized /\ normalized < 1)) /\
  (forall d id data,
     activeMidiInputId d <> Some id -> onmidimessage d id data = []).
Proof.
  split.
  - intros d id data Hid Hst raw normalized.
    pose proof (byte_or_0_range data 1) as H1.
    pose proof (byte_or_0_range data 2) as H2.
    split.
    + unfold onmidimessage. rewrite Hid, bool_decide_eq_true_2 by reflexivity.
      unfold bit_and, bit_or, shift_left.
      rewrite !ToInt32_at_index.
      change (ToInt32 (Some 240%Z)) with 240%Z.
      rewrite Hst. cbn [Z.eqb Pos.eqb].
      change (7 mod 32)%Z with 7%Z.
      assert (Hsh : (0 <= Z.shiftl (byte_or_0 data 2) 7 < 32768)%Z)
        by (rewrite Z.shiftl_mul_pow2 by lia; lia).
      cbn [ToInt32].
      rewrite !(int32_small (Z.shiftl (byte_or_0 data 2) 7)) by lia.
      reflexivity.
    + intros Hl Hm.
      assert (Hr : (0 <= raw < 16384)%Z) by (apply raw_value_range; lia).
      subst normalized. unfold Qdiv, Qmult, Qinv, inject_Z, Qle, Qlt.
      cbn. lia.
  - intros d id data Hne. unfold onmidimessage.
    rewrite bool_decide_eq_false_2; [reflexivity|congruence].
Qed.

(** C10 on the message E1 00 60: raw value 12288, normalised 1/2; the same
    message from another input dispatches nothing. *)
Lemma C10_pitch_bend_dispatch_witness :
  activeMidiInputId listening = Some "input-0" /\
  Z.land (byte_or_0 bend_up 0) 240 = 224%Z /\
  onmidimessage listening "input-0" (Some bend_up) =
    [pitch_bend_message (inject_Z (12288 - 8192) / inject_Z 8192)] /\
  activeMidiInputId listening <> Some "input-1" /\
  onmidimessage listening "input-1" (Some bend_up) = [].
Proof.
  assert (Hid : activeMidiInputId listening = Some "input-0") by reflexivity.
  assert (Hst : Z.land (byte_or_0 bend_up 0) 240 = 224%Z) by reflexivity.
  assert (Hne : activeMidiInputId listening <> Some "input-1") by discriminate.
  split; [exact Hid|]. split; [exact Hst|].
  split; [|split; [exact Hne|]].
  - exact (proj1 (proj1 C10_pitch_bend_dispatch listening "input-0" bend_up Hid Hst)).
  - exact (proj2 C10_pitch_bend_dispatch listening "input-1" (Some bend_up) Hne).
Defined.

End Midi.

(** * Further properties of the engine *)

Section EngineFurther.
Import LiveMusicHelper Timeline.

(** X1. Whatever the engine holds, the continuation of a decode starts at
    most one source, for the decoded buffer, on the current output node,
    and never at a time earlier than the audio clock it read. *)
Theorem resume_never_starts_in_the_past :
  forall now b e,
    exists news,
      started (processAudioChunks_resume now b e) = started e ++ news /\
      (List.length news <= 1)%nat /\
      forall s, In s news ->
        now <= startTime s /\ buffer s = b /\ destination s = outputNode e.
Proof.
  intros now b e.
  unfold processAudioChunks_resume, processAudioChunks_schedule.
  destruct (Qlt_bool (nextStartTime (processAudioChunks_prime now e)) now) eqn:E.
  - exists []. cbn. rewrite app_nil_r. split; [|split; [lia|contradiction]].
    unfold processAudioChunks_prime.
    destruct (Qeq_bool (nextStartTime e) 0); reflexivity.
  - apply Qlt_bool_false_iff in E.
    exists [ {| buffer := b;
                destination := outputNode (processAudioChunks_prime now e);
                startTime := nextStartTime (processAudioChunks_prime now e) |} ].
    assert (Hframe : started (processAudioChunks_prime now e) = started e /\
                     outputNode (processAudioChunks_prime now e) = outputNode e).
    { unfold processAudioChunks_prime.
      destruct (Qeq_bool (nextStartTime e) 0); cbn; auto. }
    destruct Hframe as [Hs Ho].
    split; [cbn; now rewrite Hs|]. split; [cbn; lia|].
    intros s [<-|[]]. cbn. auto.
Qed.

(** No turn takes a text out of the filtered set. *)
Lemma filteredPrompts_turn t e :
  filteredPrompts e ⊆ filteredPrompts (turn t e).
Proof.
  destruct t; cbn [turn];
    unfold playPause, onmessage, processAudioChunks_resume,
      processAudioChunks_schedule, processAudioChunks_prime, onerror, onclose,
      fireTimer, runCallback, play_enter, getSession, play_connected,
      play_resumed, setWeightedPrompts, setWeightedPrompts_rejected,
      setPitchBend, setPitchBend_rejected, pause, stop;
    branches; cbn; first [reflexivity | set_solver].
Qed.

Lemma filteredPrompts_run ts : forall e,
  filteredPrompts e ⊆ filteredPrompts (run ts e).
Proof.
  induction ts as [|t ts IH]; intros e; [reflexivity|].
  change (run (t :: ts) e) with (run ts (turn t e)).
  etransitivity; [apply filteredPrompts_turn|apply IH].
Qed.

(** Any prompt push that [setWeightedPrompts] adds carries the active view. *)
Lemma pushed_is_active_view ps e news s l :
  remote (setWeightedPrompts ps e) = remote e ++ news ->
  In (session_setWeightedPrompts s l) news ->
  l = List.map weighted (activePrompts (set_prompts ps e)).
Proof.
  intros Hr Hin.
  rewrite remote_setWeightedPrompts in Hr. apply app_inv_head in Hr. subst news.
  destruct (activePrompts (set_prompts ps e)) as [|p0 l0],
           (session e) as [s0|];
    cbn [In] in Hin; try contradiction;
    destruct Hin as [Hin|[]]; [discriminate|].
  now injection Hin as <- <-.
Qed.

(** X2. The set of filtered texts only grows, over any turns, a [stop] and
    a new [play] included.  So once the service has filtered a text, no
    later prompt push carries a pair with that text. *)
Theorem filtered_text_is_never_pushed_again :
  forall m t ts ps e,
    filteredPrompt m = Some t ->
    let e1 := run ts (fst (onmessage m e)) in
    t ∈ filteredPrompts e1 /\
    filteredPrompts e ⊆ filteredPrompts e1 /\
    forall news s l wp,
      remote (setWeightedPrompts ps e1) = remote e1 ++ news ->
      In (session_setWeightedPrompts s l) news ->
      In wp l -> wp_text wp <> t.
Proof.
  intros m t ts ps e Hm e1.
  assert (Ht : t ∈ filteredPrompts e1).
  { subst e1. apply (filteredPrompts_run ts).
    unfold onmessage. rewrite Hm.
    destruct (setupComplete m), (audioChunks m); cbn; set_solver. }
  split; [exact Ht|]. split.
  - subst e1. etransitivity; [|apply filteredPrompts_run].
    apply (filteredPrompts_turn (TMessage m)).
  - intros news s l wp Hr Hin Hwp Heq.
    rewrite (pushed_is_active_view _ _ _ _ _ Hr Hin) in Hwp.
    apply in_map_iff in Hwp. destruct Hwp as (p & <- & Hp).
    apply activePrompts_In in Hp. destruct Hp as (_ & Hnot & _).
    cbn in Heq. subst t. exact (Hnot Ht).
Qed.

Lemma filtered_text_is_never_pushed_again_witness :
  filteredPrompt
    {| setupComplete := false; filteredPrompt := Some "Bossa Nova";
       audioChunks := None |} = Some "Bossa Nova" /\
  "Bossa Nova" ∈
    filteredPrompts
      (run [TStop; TPlay 2%nat; TPlayConnected 2%nat]
         (fst (onmessage
                 {| setupComplete := false; filteredPrompt := Some "Bossa Nova";
                    audioChunks := None |} Fixtures.filtering_engine))).
Proof.
  split; [reflexivity|].
  pose proof (filtered_text_is_never_pushed_again
                {| setupComplete := false; filteredPrompt := Some "Bossa Nova";
                   audioChunks := None |} "Bossa Nova"
                [TStop; TPlay 2%nat; TPlayConnected 2%nat] Fixtures.prompt_map
                Fixtures.filtering_engine eq_refl) as H.
  cbv zeta in H. exact (proj1 H).
Defined.

(** X3. [play] opens a connection only when none is pending: a second
    [play] before any [stop] keeps the pending promise, whereas a [play]
    after a [stop] opens a new one. *)
Theorem play_opens_one_connection :
  forall f1 f2 e,
    sessionPromise (play_enter f2 (play_enter f1 e)) =
      sessionPromise (play_enter f1 e) /\
    (sessionPromise e = None -> sessionPromise (play_enter f1 e) = Some f1) /\
    (forall p, sessionPromise e = Some p ->
               sessionPromise (play_enter f1 e) = Some p) /\
    sessionPromise (play_enter f2 (stop (play_enter f1 e))) = Some f2.
Proof.
  intros f1 f2 e.
  assert (Hfirst : forall f e0,
            sessionPromise (play_enter f e0) =
            match sessionPromise e0 with Some p => Some p | None => Some f end).
  { intros f e0. unfold play_enter, getSession.
    cbn [sessionPromise setPlaybackState dispatchEvent set_playbackState].
    destruct (sessionPromise e0) eqn:E; cbn; rewrite ?E; reflexivity. }
  assert (Hstop : forall e0, sessionPromise (stop e0) = None)
    by (intros e0; unfold stop; destruct (session e0); reflexivity).
  rewrite !Hfirst, Hstop.
  destruct (sessionPromise e) as [p|]; repeat split; intros; congruence.
Qed.

(** X4. A second [stop] sends nothing to the remote service: it differs
    from the first only by one more state-change event. *)
Theorem stop_twice :
  forall e,
    stop (stop e) = dispatchEvent (playback_state_changed stopped) (stop e) /\
    remote (stop (stop e)) = remote (stop e).
Proof.
  intros e. unfold stop. destruct (session e); cbn; auto.
Qed.



(** What one turn does to the started sources and to the output node. *)
Lemma turn_started t e :
  (started (turn t e) = started e \/
   exists b w, started (turn t e) =
     started e ++ [ {| buffer := b; destination := outputNode e; startTime := w |} ]) /\
  (outputNode e <= outputNode (turn t e))%nat.
Proof.
  destruct t; cbn [turn];
    unfold playPause, onmessage, processAudioChunks_resume,
      processAudioChunks_schedule, processAudioChunks_prime, onerror, onclose,
      fireTimer, runCallback, play_enter, getSession, play_connected,
      play_resumed, setWeightedPrompts, setWeightedPrompts_rejected,
      setPitchBend, setPitchBend_rejected, pause, stop;
    branches; cbn;
    (split; [first [left; reflexivity | right; do 2 eexists; reflexivity]|lia]).
Qed.

(** Every source is connected to the current output node or to an older
    one. *)
Lemma started_behind_turn t e :
  Forall (fun s => (destination s <= outputNode e)%nat) (started e) ->
  Forall (fun s => (destination s <= outputNode (turn t e))%nat)
    (started (turn t e)).
Proof.
  intros H. destruct (turn_started t e) as [[Hs|(b & w & Hs)] Ho]; rewrite Hs.
  - eapply Forall_impl; [exact H|]. cbn. intros; lia.
  - apply Forall_app. split.
    + eapply Forall_impl; [exact H|]. cbn. intros; lia.
    + constructor; [cbn; lia|constructor].
Qed.

Lemma started_behind_run ts : forall e,
  Forall (fun s => (destination s <= outputNode e)%nat) (started e) ->
  Forall (fun s => (destination s <= outputNode (run ts e))%nat)
    (started (run ts e)).
Proof.
  induction ts as [|t ts IH]; intros e H; [exact H|].
  change (run (t :: ts) e) with (run ts (turn t e)).
  apply IH, started_behind_turn, H.
Qed.

Lemma started_ahead_run ts : forall e,
  exists news,
    started (run ts e) = started e ++ news /\
    Forall (fun s => (outputNode e <= destination s)%nat) news.
Proof.
  induction ts as [|t ts IH]; intros e.
  - exists []. cbn. now rewrite app_nil_r.
  - change (run (t :: ts) e) with (run ts (turn t e)).
    destruct (IH (turn t e)) as (news & Hn & Hall).
    destruct (turn_started t e) as [[Hs|(b & w & Hs)] Ho].
    + exists news. rewrite Hn, Hs. split; [reflexivity|].
      eapply Forall_impl; [exact Hall|]. cbn. intros; lia.
    + exists ({| buffer := b; destination := outputNode e; startTime := w |} :: news).
      rewrite Hn, Hs, <- app_assoc. split; [reflexivity|].
      constructor; [cbn; lia|].
      eapply Forall_impl; [exact Hall|]. cbn. intros; lia.
Qed.

(** X8. The engine only ever appends to the list of started sources, and
    [pause] cuts the output in two: whatever the engine did since it was
    constructed, every source started after a [pause] is connected to a
    gain node that none of the sources started before it is connected
    to. *)
Theorem pause_isolates_earlier_sources :
  forall ts1 ts2,
    let e := run ts1 init in
    exists news,
      started (run ts2 (pause e)) = started e ++ news /\
      forall s s', In s (started e) -> In s' news ->
                   (destination s < destination s')%nat.
Proof.
  intros ts1 ts2 e.
  assert (Hold : Forall (fun s => (destination s <= outputNode e)%nat) (started e)).
  { subst e. apply started_behind_run. constructor. }
  destruct (started_ahead_run ts2 (pause e)) as (news & Hn & Hall).
  exists news. split.
  - rewrite Hn. unfold pause. destruct (session e); reflexivity.
  - intros s s' Hs Hs'.
    rewrite Forall_forall in Hold, Hall.
    apply list_elem_of_In in Hs, Hs'.
    specialize (Hold s Hs). specialize (Hall s' Hs').
    assert (Ho : outputNode (pause e) = S (outputNode e))
      by (unfold pause; destruct (session e); reflexivity).
    rewrite Ho in Hall. lia.
Qed.

(** One turn appends events that take a listener from the state before the
    turn to the state after it. *)
Lemma shown_turn t e seen :
  shown (dispatched e) seen = playbackState e ->
  shown (dispatched (turn t e)) seen = playbackState (turn t e).
Proof.
  intros H. unfold shown in *.
  destruct t; cbn [turn];
    unfold playPause, onmessage, processAudioChunks_resume,
      processAudioChunks_schedule, processAudioChunks_prime, onerror, onclose,
      fireTimer, runCallback, play_enter, getSession, play_connected,
      play_resumed, setWeightedPrompts, setWeightedPrompts_rejected,
      setPitchBend, setPitchBend_rejected, pause, stop;
    branches; cbn; rewrite ?fold_left_app; cbn; congruence.
Qed.

(** X9. The playback state is written through [setPlaybackState] only: after
    any turns on a new engine, a listener that started from [stopped] and
    followed the [playback-state-changed] events holds the engine's
    playback state. *)
Theorem listener_knows_the_state :
  forall ts, shown (dispatched (run ts init)) stopped = playbackState (run ts init).
Proof.
  intros ts.
  assert (H : forall e, shown (dispatched e) stopped = playbackState e ->
                        shown (dispatched (run ts e)) stopped = playbackState (run ts e)).
  { induction ts as [|t ts IH]; intros e He; [exact He|].
    change (run (t :: ts) e) with (run ts (turn t e)).
    apply IH, shown_turn, He. }
  apply H. reflexivity.
Qed.

(** X10. A [stop] that lands while [play] awaits the connection does not
    call the [play] off.  When the connection resolves, [play] stores the
    session, makes its prompt push (line 204, taken to pass [throttle]) and
    tells the session to play.  With an active prompt stored the engine is
    left [stopped] after the push; with none the push reports the error and
    pauses, and the engine is left [paused].  Either way it holds a live
    session and no pending promise, and [session.play()] was the last
    remote call. *)
Theorem stop_during_connect_does_not_cancel_play :
  forall f p e,
    sessionPromise (play_enter f e) = Some p ->
    let e' := run [TPlay f; TStop; TPlayConnected p;
                   TSetWeightedPrompts (prompts e); TPlayResumed] e in
    session e' = Some p /\
    sessionPromise e' = None /\
    (activePrompts e <> [] ->
       playbackState e' = stopped /\
       remote e' =
         remote (stop (play_enter f e)) ++
           [session_setWeightedPrompts p (List.map weighted (activePrompts e));
            session_play p] /\
       dispatched e' =
         dispatched e ++
           [playback_state_changed loading; playback_state_changed stopped]) /\
    (activePrompts e = [] ->
       playbackState e' = paused /\
       remote e' =
         remote (stop (play_enter f e)) ++ [session_pause p; session_play p] /\
       dispatched e' =
         dispatched e ++
           [playback_state_changed loading; playback_state_changed stopped;
            error no_active_prompt_message; playback_state_changed paused]).
Proof.
  intros f p e _ e'. subst e'. cbn [run List.fold_left turn].
  set (e3 := play_connected p (stop (play_enter f e))).
  assert (H3 : session e3 = Some p /\ sessionPromise e3 = None /\
               playbackState e3 = stopped /\
               remote e3 = remote (stop (play_enter f e)) /\
               dispatched e3 =
                 dispatched e ++
                   [playback_state_changed loading; playback_state_changed stopped] /\
               activePrompts (set_prompts (prompts e) e3) = activePrompts e).
  { subst e3. unfold play_connected, stop, play_enter, getSession, activePrompts.
    cbn [session set_session sessionPromise setPlaybackState dispatchEvent
         set_playbackState].
    destruct (sessionPromise e) eqn:Ep, (session e) eqn:Es; cbn; rewrite ?Es; cbn;
      rewrite <- ?app_assoc; cbn; auto 10. }
  destruct H3 as (Hs & Hp & Hst & Hr & Hd & Ha). clearbody e3.
  unfold play_resumed, setWeightedPrompts. rewrite Ha.
  destruct (activePrompts e) as [|p0 l0] eqn:Eact; cbn [List.length Nat.eqb].
  - unfold pause. cbn [session dispatchEvent set_prompts]. rewrite Hs. cbn.
    rewrite Hs. cbn. rewrite ?Hs, ?Hp, ?Hr, ?Hd, <- ?app_assoc. cbn.
    split; [reflexivity|]. split; [reflexivity|].
    split; intros Hact; [congruence|]. auto.
  - cbn [session set_prompts]. rewrite Hs. cbn.
    rewrite Hs. cbn. rewrite ?Hs, ?Hp, ?Hst, ?Hr, ?Hd, <- ?app_assoc. cbn.
    split; [reflexivity|]. split; [reflexivity|].
    split; intros Hact; [|congruence]. auto.
Qed.

Lemma stop_during_connect_does_not_cancel_play_witness :
  sessionPromise (play_enter 1%nat init) = Some 1%nat /\
  playbackState
    (run [TPlay 1%nat; TStop; TPlayConnected 1%nat;
          TSetWeightedPrompts (prompts init); TPlayResumed] init) = paused /\
  sessionPromise
    (play_enter 1%nat (set_prompts Fixtures.prompt_map init)) = Some 1%nat /\
  playbackState
    (run [TPlay 1%nat; TStop; TPlayConnected 1%nat;
          TSetWeightedPrompts (prompts (set_prompts Fixtures.prompt_map init));
          TPlayResumed] (set_prompts Fixtures.prompt_map init)) = stopped.
Proof.
  pose proof (stop_during_connect_does_not_cancel_play 1%nat 1%nat init eq_refl) as H.
  pose proof (stop_during_connect_does_not_cancel_play 1%nat 1%nat
                (set_prompts Fixtures.prompt_map init) eq_refl) as H0.
  cbv zeta in H, H0.
  split; [reflexivity|].
  split; [exact (proj1 (proj2 (proj2 (proj2 H)) eq_refl))|].
  split; [reflexivity|].
  refine (proj1 (proj1 (proj2 (proj2 H0)) _)).
  vm_compute. discriminate.
Defined.

(** X11. A pitch bend is forwarded exactly when the engine holds a session
    and is playing or loading; otherwise [setPitchBend] leaves the engine as
    it is.  In particular nothing is forwarded after [stop], [pause] or a
    connection error, and forwarding never changes the playback state. *)
Theorem pitch_bend_is_forwarded_only_while_live :
  forall v e,
    (forall s, session e = Some s ->
       playbackState e = playing \/ playbackState e = loading ->
       setPitchBend v e = call (session_sendControlChanges s v) e) /\
    (session e = None \/ playbackState e = stopped \/ playbackState e = paused ->
       setPitchBend v e = e) /\
    setPitchBend v (stop e) = stop e /\
    setPitchBend v (pause e) = pause e /\
    setPitchBend v (onerror e) = onerror e /\
    playbackState (setPitchBend v e) = playbackState e.
Proof.
  intros v e. split; [|split; [|split; [|split; [|split]]]].
  - intros s Hs [Hp|Hp]; unfold setPitchBend; now rewrite Hs, Hp.
  - intros [Hs|[Hp|Hp]]; unfold setPitchBend.
    + now rewrite Hs.
    + rewrite Hp. now destruct (session e).
    + rewrite Hp. now destruct (session e).
  - unfold setPitchBend. rewrite playbackState_stop.
    now destruct (session (stop e)).
  - unfold setPitchBend. rewrite playbackState_pause.
    now destruct (session (pause e)).
  - unfold setPitchBend.
    assert (Hst : playbackState (onerror e) = stopped) by reflexivity.
    rewrite Hst. now destruct (session (onerror e)).
  - apply playbackState_setPitchBend.
Qed.

Lemma pitch_bend_is_forwarded_only_while_live_witness :
  session Fixtures.primed_engine = Some 1%nat /\
  playbackState Fixtures.primed_engine = loading /\
  remote (setPitchBend (1 # 2) Fixtures.primed_engine) =
    remote Fixtures.primed_engine ++ [session_sendControlChanges 1%nat (1 # 2)] /\
  playbackState init = stopped /\
  setPitchBend (1 # 2) init = init.
Proof.
  split; [reflexivity|]. split; [reflexivity|].
  split; [|split; [reflexivity|]].
  - rewrite (proj1 (pitch_bend_is_forwarded_only_while_live (1 # 2)
                      Fixtures.primed_engine) 1%nat eq_refl (or_intror eq_refl)).
    reflexivity.
  - exact (proj1 (proj2 (pitch_bend_is_forwarded_only_while_live (1 # 2) init))
             (or_intror (or_introl eq_refl))).
Defined.

(** The active view depends on the prompt map and the filtered set only. *)
Lemma activePrompts_ext e1 e2 :
  prompts e1 = prompts e2 -> filteredPrompts e1 = filteredPrompts e2 ->
  activePrompts e1 = activePrompts e2.
Proof. intros Hp Hf. unfold activePrompts. now rewrite Hp, Hf. Qed.

(** X12. Prompts set before the engine is connected are only stored, and
    they are what [play] pushes once the connection has resolved: [play]
    calls [setWeightedPrompts] on the stored map. *)
Theorem prompts_set_before_connecting_are_pushed_by_play :
  forall ps s e,
    session e = None ->
    activePrompts (set_prompts ps e) <> [] ->
    let e1 := setWeightedPrompts ps e in
    e1 = set_prompts ps e /\
    remote (setWeightedPrompts (prompts e1) (play_connected s e1)) =
      remote e ++
        [session_setWeightedPrompts s
           (List.map weighted (activePrompts (set_prompts ps e)))].
Proof.
  intros ps s e Hs Hne e1.
  assert (H1 : e1 = set_prompts ps e).
  { subst e1. unfold setWeightedPrompts.
    destruct (activePrompts (set_prompts ps e)); [now elim Hne|].
    cbn [List.length Nat.eqb session set_prompts]. now rewrite Hs. }
  split; [exact H1|].
  rewrite remote_setWeightedPrompts, H1.
  assert (Ha : activePrompts
                 (set_prompts (prompts (set_prompts ps e))
                    (play_connected s (set_prompts ps e))) =
               activePrompts (set_prompts ps e))
    by (apply activePrompts_ext; reflexivity).
  rewrite Ha. cbn [session play_connected set_session remote set_prompts].
  destruct (activePrompts (set_prompts ps e)); [now elim Hne|reflexivity].
Qed.

Lemma prompts_set_before_connecting_are_pushed_by_play_witness :
  session init = None /\
  activePrompts (set_prompts Fixtures.prompt_map init) <> [] /\
  setWeightedPrompts Fixtures.prompt_map init = set_prompts Fixtures.prompt_map init.
Proof.
  assert (Hne : activePrompts (set_prompts Fixtures.prompt_map init) <> [])
    by (vm_compute; discriminate).
  split; [reflexivity|]. split; [exact Hne|].
  exact (proj1 (prompts_set_before_connecting_are_pushed_by_play
                  Fixtures.prompt_map 1%nat init eq_refl Hne)).
Defined.

End EngineFurther.

(** ** Priming again, in the code's own arithmetic *)

Section EngineFurther64.
Import LiveMusicHelper LiveMusicHelper64 Timeline64.

(** X5. After an underrun the next chunk primes the cursor again: it is
    started at the clock it is decoded at plus [bufferTime], the binary64
    sum, and a new timeout is armed. *)
Theorem underrun_then_next_chunk_primes :
  forall now b now' b' chunks e,
    processed chunks e ->
    (nextStartTime e =? 0)%float = false -> (nextStartTime e <? now)%float = true ->
    let e1 := processAudioChunks now b chunks e in
    let e2 := processAudioChunks now' b' chunks e1 in
    started e1 = started e /\
    nextStartTime e1 = 0%float /\
    started e2 =
      started e ++ [ {| buffer := b'; destination := outputNode e;
                        startTime := (now' + bufferTime)%float |} ] /\
    nextStartTime e2 = (now' + bufferTime + duration b')%float /\
    timers e2 =
      timers e ++ [ {| callback := flip_to_playing;
                       delay := (bufferTime * 1000)%float |} ] /\
    playbackState e2 = loading.
Proof.
  intros now b now' b' chunks e Hp Hnz Hlt e1 e2.
  assert (H1 : e1 = set_nextStartTime 0%float (setPlaybackState loading e)).
  { subst e1. rewrite (processed_resume64 _ _ _ _ Hp).
    now apply resume_underrun64. }
  assert (Hp1 : processed chunks e1).
  { destruct Hp as [bytes Hb]. exists bytes. rewrite H1.
    unfold processAudioChunks_enter in *. cbn [playbackState set_nextStartTime
      setPlaybackState dispatchEvent set_playbackState].
    destruct (playbackState e); try discriminate; exact Hb. }
  split; [rewrite H1; reflexivity|]. split; [rewrite H1; reflexivity|].
  subst e2. rewrite (processed_resume64 _ _ _ _ Hp1).
  assert (Hz : (nextStartTime e1 =? 0)%float = true) by (rewrite H1; reflexivity).
  destruct (resume_primed64 now' b' e1 Hz) as [Hprime ->].
  rewrite Hprime, H1. cbn. auto.
Qed.

Lemma underrun_then_next_chunk_primes_witness :
  processed Fixtures.batch Fixtures64.primed_engine /\
  (nextStartTime Fixtures64.primed_engine =? 0)%float = false /\
  (nextStartTime Fixtures64.primed_engine <? 5)%float = true /\
  playbackState
    (processAudioChunks 6 Fixtures64.one_second Fixtures.batch
       (processAudioChunks 5 Fixtures64.one_second Fixtures.batch
          Fixtures64.primed_engine)) = loading.
Proof.
  assert (Hp : processed Fixtures.batch Fixtures64.primed_engine)
    by (eexists; reflexivity).
  assert (Hnz : (nextStartTime Fixtures64.primed_engine =? 0)%float = false)
    by reflexivity.
  assert (Hlt : (nextStartTime Fixtures64.primed_engine <? 5)%float = true)
    by reflexivity.
  split; [exact Hp|]. split; [exact Hnz|]. split; [exact Hlt|].
  pose proof (underrun_then_next_chunk_primes 5%float Fixtures64.one_second 6%float
                Fixtures64.one_second Fixtures.batch Fixtures64.primed_engine
                Hp Hnz Hlt) as H.
  cbv zeta in H. exact (proj2 (proj2 (proj2 (proj2 (proj2 H))))).
Defined.

(** What [play] leaves of an engine whose cursor reads 0, by whether an
    active prompt is stored. *)
Lemma play_from_rest fresh e :
  (nextStartTime e =? 0)%float = true ->
  let e' := play fresh e in
  started e' = started e /\
  (nextStartTime e' =? 0)%float = true /\
  (activePrompts e <> [] ->
     playbackState e' = loading /\ outputNode e' = outputNode e) /\
  (activePrompts e = [] ->
     playbackState e' = paused /\ outputNode e' = S (outputNode e)).
Proof.
  intros Hz. cbv zeta.
  assert (Hgen : forall s e0,
            started e0 = started e -> nextStartTime e0 = nextStartTime e ->
            prompts e0 = prompts e -> filteredPrompts e0 = filteredPrompts e ->
            playbackState e0 = loading -> outputNode e0 = outputNode e ->
            let e' := play_resumed (play_push (play_connected s e0)) in
            started e' = started e /\
            (nextStartTime e' =? 0)%float = true /\
            (activePrompts e <> [] ->
               playbackState e' = loading /\ outputNode e' = outputNode e) /\
            (activePrompts e = [] ->
               playbackState e' = paused /\ outputNode e' = S (outputNode e))).
  { intros s e0 Hs Hn Hp Hf Hl Ho. cbv zeta.
    unfold play_push, setWeightedPrompts, play_connected.
    assert (Ha : activePrompts
                   (set_prompts (prompts (set_session (Some s) e0))
                      (set_session (Some s) e0)) = activePrompts e).
    { unfold activePrompts. cbn. now rewrite Hp, Hf. }
    rewrite Ha. destruct (activePrompts e) as [|p l]; cbn [List.length Nat.eqb].
    - cbn. rewrite Hs, Ho. repeat split; try reflexivity; intros; congruence.
    - cbn. rewrite Hs, Hn, Hz, Hl, Ho.
      repeat split; try reflexivity; intros; congruence. }
  unfold play.
  assert (H1 : exists s, sessionPromise (play_enter fresh e) = Some s).
  { unfold play_enter, getSession.
    cbn [sessionPromise setPlaybackState dispatchEvent set_playbackState].
    destruct (sessionPromise e) eqn:E; cbn; rewrite ?E; eauto. }
  destruct H1 as [s ->].
  apply Hgen; unfold play_enter, getSession;
    cbn [sessionPromise setPlaybackState dispatchEvent set_playbackState];
    destruct (sessionPromise e); reflexivity.
Qed.

(** X6. After [pause] or [stop], a new [play] and a first chunk with data.
    When an active prompt is stored, the chunk is started at the clock plus
    [bufferTime], the binary64 sum, not at the cursor the engine had
    before, and after a [pause] on the node that replaced the paused one.
    When none is stored, [play] itself pauses the engine at its prompt push
    and the chunk is turned away. *)
Theorem play_after_pause_or_stop_primes :
  forall now b c rest bytes fresh e,
    data c = Some bytes ->
    let after_pause := processAudioChunks now b (c :: rest) (play fresh (pause e)) in
    let after_stop := processAudioChunks now b (c :: rest) (play fresh (stop e)) in
    (activePrompts e <> [] ->
       started after_pause =
         started e ++ [ {| buffer := b; destination := S (outputNode e);
                           startTime := (now + bufferTime)%float |} ] /\
       nextStartTime after_pause = (now + bufferTime + duration b)%float /\
       started after_stop =
         started e ++ [ {| buffer := b; destination := outputNode e;
                           startTime := (now + bufferTime)%float |} ] /\
       nextStartTime after_stop = (now + bufferTime + duration b)%float) /\
    (activePrompts e = [] ->
       after_pause = play fresh (pause e) /\
       playbackState after_pause = paused /\
       started after_pause = started e /\
       after_stop = play fresh (stop e) /\
       playbackState after_stop = paused /\
       started after_stop = started e).
Proof.
  intros now b c rest bytes fresh e Hd after_pause after_stop.
  assert (Hrest : forall e0,
            (e0 = pause e \/ e0 = stop e) ->
            (nextStartTime e0 =? 0)%float = true /\ started e0 = started e /\
            activePrompts e0 = activePrompts e).
  { intros e0 [-> | ->]; unfold pause, stop, activePrompts;
      destruct (session e); cbn; auto. }
  assert (Hnode : outputNode (pause e) = S (outputNode e) /\
                  outputNode (stop e) = outputNode e).
  { unfold pause, stop. destruct (session e); cbn; auto. }
  assert (Hgo : forall e0,
            playbackState e0 = loading -> (nextStartTime e0 =? 0)%float = true ->
            started (processAudioChunks now b (c :: rest) e0) =
              started e0 ++ [ {| buffer := b; destination := outputNode e0;
                                 startTime := (now + bufferTime)%float |} ] /\
            nextStartTime (processAudioChunks now b (c :: rest) e0) =
              (now + bufferTime + duration b)%float).
  { intros e0 Hst Hz.
    assert (Hp : processed (c :: rest) e0).
    { exists bytes. unfold processAudioChunks_enter. now rewrite Hst, Hd. }
    rewrite (processed_resume64 _ _ _ _ Hp).
    destruct (resume_primed64 now b e0 Hz) as [Hprime ->].
    rewrite Hprime. cbn. auto. }
  assert (Hno : forall e0,
            playbackState e0 = paused ->
            processAudioChunks now b (c :: rest) e0 = e0).
  { intros e0 Hst. unfold processAudioChunks, processAudioChunks_enter.
    now rewrite Hst. }
  destruct (Hrest (pause e) (or_introl eq_refl)) as (Zp & Sp & Ap).
  destruct (Hrest (stop e) (or_intror eq_refl)) as (Zs & Ss & As).
  destruct Hnode as [Np Ns].
  destruct (play_from_rest fresh (pause e) Zp) as (P1 & P2 & P3 & P4).
  destruct (play_from_rest fresh (stop e) Zs) as (S1 & S2 & S3 & S4).
  rewrite Ap in P3, P4. rewrite As in S3, S4.
  subst after_pause after_stop. split; intros Ha.
  - destruct (P3 Ha) as [Pl Po]. destruct (S3 Ha) as [Sl So].
    destruct (Hgo _ Pl P2) as [A1 A2]. destruct (Hgo _ Sl S2) as [B1 B2].
    rewrite A1, A2, B1, B2, P1, S1, Po, So, Sp, Ss, Np, Ns. auto.
  - destruct (P4 Ha) as [Pl Po]. destruct (S4 Ha) as [Sl So].
    rewrite !(Hno _ Pl), !(Hno _ Sl), P1, S1, Sp, Ss. auto 10.
Qed.

Lemma play_after_pause_or_stop_primes_witness :
  data {| data := Some "UklGRg==" |} = Some "UklGRg==" /\
  activePrompts Fixtures64.primed_engine <> [] /\
  nextStartTime
    (processAudioChunks 7 Fixtures64.one_second [ {| data := Some "UklGRg==" |} ]
       (play 2%nat (pause Fixtures64.primed_engine)))
  = (7 + bufferTime + duration Fixtures64.one_second)%float /\
  activePrompts init = [] /\
  playbackState
    (processAudioChunks 7 Fixtures64.one_second [ {| data := Some "UklGRg==" |} ]
       (play 2%nat (stop init))) = paused.
Proof.
  assert (Ha : activePrompts Fixtures64.primed_engine <> [])
    by (vm_compute; discriminate).
  split; [reflexivity|]. split; [exact Ha|].
  pose proof (play_after_pause_or_stop_primes 7%float Fixtures64.one_second
                {| data := Some "UklGRg==" |} [] "UklGRg==" 2%nat
                Fixtures64.primed_engine eq_refl) as H.
  pose proof (play_after_pause_or_stop_primes 7%float Fixtures64.one_second
                {| data := Some "UklGRg==" |} [] "UklGRg==" 2%nat
                init eq_refl) as H0.
  cbv zeta in H, H0.
  split; [exact (proj1 (proj2 (proj1 H Ha)))|].
  split; [reflexivity|].
  exact (proj1 (proj2 (proj2 (proj2 (proj2 (proj2 H0 eq_refl)))))).
Defined.

End EngineFurther64.

(** * Further properties of the MIDI dispatcher *)

Section MidiFurther.
Import MidiDispatcher MidiAccess.

(** The status nibbles of a message that has data. *)
Lemma message_type data :
  bit_and (at_index data 0) (Some 240%Z) = Z.land (byte_or_0 data 0) 240 /\
  bit_and (at_index data 0) (Some 15%Z) = Z.land (byte_or_0 data 0) 15.
Proof.
  unfold bit_and. rewrite ToInt32_at_index. split; reflexivity.
Qed.

(** The value dispatched for a pitch-bend message from the active input. *)
Lemma pitch_bend_value d id data :
  activeMidiInputId d = Some id ->
  Z.land (byte_or_0 data 0) 240 = 224%Z ->
  onmidimessage d id (Some data) =
    [pitch_bend_message (normalized (byte_or_0 data 1) (byte_or_0 data 2))].
Proof.
  intros Hid Hst. unfold onmidimessage, normalized.
  rewrite Hid, bool_decide_eq_true_2 by reflexivity.
  rewrite (proj1 (message_type data)), Hst. cbn [Z.eqb Pos.eqb].
  unfold bit_or, shift_left. rewrite !ToInt32_at_index.
  change (7 mod 32)%Z with 7%Z.
  pose proof (byte_or_0_range data 2) as H2.
  assert (Hsh : (0 <= Z.shiftl (byte_or_0 data 2) 7 < 32768)%Z)
    by (rewrite Z.shiftl_mul_pow2 by lia; lia).
  cbn [ToInt32].
  rewrite !(int32_small (Z.shiftl (byte_or_0 data 2) 7)) by lia.
  reflexivity.
Qed.

(** With a 7-bit low byte the two bytes do not overlap: the raw value is
    128 times the high byte plus the low byte. *)
Lemma raw_value_sum lsb msb :
  (0 <= lsb < 128)%Z -> (0 <= msb)%Z ->
  Z.lor (Z.shiftl msb 7) lsb = (128 * msb + lsb)%Z.
Proof.
  intros Hl Hm.
  assert (Hland : Z.land (Z.shiftl msb 7) lsb = 0%Z).
  { apply Z.bits_inj'. intros n Hn.
    rewrite Z.land_spec, Z.bits_0.
    destruct (Z.lt_ge_cases n 7) as [Hlt|Hge].
    - rewrite Z.shiftl_spec_low by exact Hlt. reflexivity.
    - assert (Hb : Z.testbit lsb n = false).
      { apply Z.bits_above_log2; [lia|].
        destruct (Z.eq_dec lsb 0%Z) as [->|Hnz]; [cbn; lia|].
        assert (Z.log2 lsb < 7)%Z by (apply Z.log2_lt_pow2; lia). lia. }
      rewrite Hb. apply andb_false_r. }
  rewrite <- (Z.lxor_lor _ _ Hland), <- (Z.add_nocarry_lxor _ _ Hland).
  rewrite Z.shiftl_mul_pow2 by lia. lia.
Qed.

(** X13. A control-change message from the active input dispatches exactly
    one [cc-message]; its channel is the low nibble of the status byte, a
    number from 0 to 15, and its controller and value are the two bytes
    after the status byte, absent on a message that is too short. *)
Theorem control_change_dispatch :
  forall d id data,
    activeMidiInputId d = Some id ->
    Z.land (byte_or_0 data 0) 240 = 176%Z ->
    onmidimessage d id (Some data) =
      [cc_message {| cc := at_index data 1; value := at_index data 2;
                     channel := Z.land (byte_or_0 data 0) 15 |}] /\
    (0 <= Z.land (byte_or_0 data 0) 15 < 16)%Z /\
    (at_index data 1 = None <-> (List.length data <= 1)%nat) /\
    (at_index data 2 = None <-> (List.length data <= 2)%nat).
Proof.
  intros d id data Hid Hst. split; [|split; [|split]].
  - unfold onmidimessage. rewrite Hid, bool_decide_eq_true_2 by reflexivity.
    destruct (message_type data) as [-> ->]. rewrite Hst. reflexivity.
  - pose proof (byte_or_0_range data 0) as H0.
    change 15%Z with (Z.ones 4). rewrite Z.land_ones by lia.
    change (2 ^ 4)%Z with 16%Z. apply Z.mod_pos_bound. lia.
  - unfold at_index. rewrite fmap_None, lookup_ge_None. reflexivity.
  - unfold at_index. rewrite fmap_None, lookup_ge_None. reflexivity.
Qed.

Lemma control_change_dispatch_witness :
  activeMidiInputId listening = Some "input-0" /\
  Z.land (byte_or_0 [xb2; x07; x64] 0) 240 = 176%Z /\
  onmidimessage listening "input-0" (Some [xb2; x07; x64]) =
    [cc_message {| cc := Some 7%Z; value := Some 100%Z; channel := 2 |}].
Proof.
  split; [reflexivity|]. split; [reflexivity|].
  exact (proj1 (control_change_dispatch listening "input-0" [xb2; x07; x64]
                  eq_refl eq_refl)).
Defined.

(** X14. The handler dispatches at most one event per message, and none at
    all for a message without data or with a status byte whose high nibble
    is neither 0xB0 nor 0xE0 (notes, aftertouch, program change, system
    messages). *)
Theorem only_control_change_and_pitch_bend_dispatch :
  forall d id,
    (forall data, (List.length (onmidimessage d id data) <= 1)%nat) /\
    onmidimessage d id None = [] /\
    (forall bytes,
       Z.land (byte_or_0 bytes 0) 240 <> 176%Z ->
       Z.land (byte_or_0 bytes 0) 240 <> 224%Z ->
       onmidimessage d id (Some bytes) = []).
Proof.
  intros d id. split; [|split].
  - intros data. unfold onmidimessage.
    destruct (bool_decide _); [|cbn; lia].
    destruct data as [bytes|]; [|cbn; lia].
    destruct (_ =? 176)%Z; [cbn; lia|].
    destruct (_ =? 224)%Z; cbn; lia.
  - unfold onmidimessage. now destruct (bool_decide _).
  - intros bytes Hb He. unfold onmidimessage.
    destruct (bool_decide _); [|reflexivity].
    rewrite (proj1 (message_type bytes)).
    apply Z.eqb_neq in Hb, He. now rewrite Hb, He.
Qed.

Lemma only_control_change_and_pitch_bend_dispatch_witness :
  Z.land (byte_or_0 [x90; x3c; x7f] 0) 240 <> 176%Z /\
  Z.land (byte_or_0 [x90; x3c; x7f] 0) 240 <> 224%Z /\
  onmidimessage listening "input-0" (Some [x90; x3c; x7f]) = [].
Proof.
  assert (H1 : Z.land (byte_or_0 [x90; x3c; x7f] 0) 240 <> 176%Z)
    by (vm_compute; discriminate).
  assert (H2 : Z.land (byte_or_0 [x90; x3c; x7f] 0) 240 <> 224%Z)
    by (vm_compute; discriminate).
  split; [exact H1|]. split; [exact H2|].
  exact (proj2 (proj2 (only_control_change_and_pitch_bend_dispatch listening
                         "input-0")) [x90; x3c; x7f] H1 H2).
Defined.

Lemma land_below a b : (0 <= b)%Z -> (Z.land a b <= b)%Z.
Proof.
  intros Hb. apply Z.ldiff_le; [exact Hb|].
  apply Z.bits_inj'. intros n Hn.
  rewrite Z.ldiff_spec, Z.land_spec, Z.bits_0.
  destruct (Z.testbit a n), (Z.testbit b n); reflexivity.
Qed.

(** Order and equality of normalised values are those of the raw values. *)
Lemma normalized_as_raw l1 m1 l2 m2 :
  (0 <= l1 < 128)%Z -> (0 <= m1)%Z -> (0 <= l2 < 128)%Z -> (0 <= m2)%Z ->
  (normalized l1 m1 < normalized l2 m2 <-> (128 * m1 + l1 < 128 * m2 + l2)%Z) /\
  (normalized l1 m1 == normalized l2 m2 <-> (128 * m1 + l1 = 128 * m2 + l2)%Z).
Proof.
  intros Hl1 Hm1 Hl2 Hm2. unfold normalized.
  rewrite !raw_value_sum by assumption.
  unfold Qdiv, Qmult, Qinv, inject_Z, Qlt, Qeq. cbn. split; lia.
Qed.

(** X15. For pitch-bend messages with 7-bit data bytes the dispatched value
    orders the messages as their 14-bit values do (high byte first, then low
    byte), so distinct wheel positions give distinct values; the value is 0
    exactly at the centre position, high byte 64 and low byte 0. *)
Theorem pitch_bend_is_monotone_and_centred :
  forall d id data1 data2,
    activeMidiInputId d = Some id ->
    Z.land (byte_or_0 data1 0) 240 = 224%Z ->
    Z.land (byte_or_0 data2 0) 240 = 224%Z ->
    (byte_or_0 data1 1 < 128)%Z -> (byte_or_0 data1 2 < 128)%Z ->
    (byte_or_0 data2 1 < 128)%Z -> (byte_or_0 data2 2 < 128)%Z ->
    exists v1 v2,
      onmidimessage d id (Some data1) = [pitch_bend_message v1] /\
      onmidimessage d id (Some data2) = [pitch_bend_message v2] /\
      (v1 < v2 <->
       (byte_or_0 data1 2 < byte_or_0 data2 2)%Z \/
       (byte_or_0 data1 2 = byte_or_0 data2 2 /\
        byte_or_0 data1 1 < byte_or_0 data2 1)%Z) /\
      (v1 == v2 <->
       byte_or_0 data1 2 = byte_or_0 data2 2 /\
       byte_or_0 data1 1 = byte_or_0 data2 1) /\
      (v1 == 0 <-> byte_or_0 data1 2 = 64%Z /\ byte_or_0 data1 1 = 0%Z).
Proof.
  intros d id data1 data2 Hid H1 H2 Hl1 Hm1 Hl2 Hm2.
  pose proof (byte_or_0_range data1 1). pose proof (byte_or_0_range data1 2).
  pose proof (byte_or_0_range data2 1). pose proof (byte_or_0_range data2 2).
  exists (normalized (byte_or_0 data1 1) (byte_or_0 data1 2)),
         (normalized (byte_or_0 data2 1) (byte_or_0 data2 2)).
  split; [now apply pitch_bend_value|]. split; [now apply pitch_bend_value|].
  destruct (normalized_as_raw (byte_or_0 data1 1) (byte_or_0 data1 2)
              (byte_or_0 data2 1) (byte_or_0 data2 2)) as [Hlt Heq]; try lia.
  split; [rewrite Hlt; lia|]. split; [rewrite Heq; lia|].
  destruct (normalized_as_raw (byte_or_0 data1 1) (byte_or_0 data1 2) 0 64)
    as [_ Hc]; try lia.
  assert (Hzero : normalized 0 64 == 0) by reflexivity.
  rewrite <- Hzero, Hc. lia.
Qed.

Lemma pitch_bend_is_monotone_and_centred_witness :
  exists v1 v2,
    onmidimessage listening "input-0" (Some [xe0; x00; x40]) = [pitch_bend_message v1] /\
    onmidimessage listening "input-0" (Some [xe0; x7f; x40]) = [pitch_bend_message v2] /\
    v1 == 0 /\ v1 < v2.
Proof.
  destruct (pitch_bend_is_monotone_and_centred listening "input-0"
              [xe0; x00; x40] [xe0; x7f; x40] eq_refl eq_refl eq_refl
              eq_refl eq_refl eq_refl eq_refl)
    as (v1 & v2 & H1 & H2 & Hlt & _ & Hc).
  exists v1, v2. split; [exact H1|]. split; [exact H2|]. split.
  - apply Hc. split; reflexivity.
  - apply Hlt. right. split; reflexivity.
Defined.

(** X16. Whatever the bytes of a pitch-bend message from the active input,
    one value is dispatched and it is at least -1 and below 3: data bytes
    above 127 push it past 1.  Missing data bytes read as 0, so a message
    that is only a status byte dispatches -1, full bend down. *)
Theorem pitch_bend_on_any_bytes :
  forall d id data,
    activeMidiInputId d = Some id ->
    Z.land (byte_or_0 data 0) 240 = 224%Z ->
    exists v,
      onmidimessage d id (Some data) = [pitch_bend_message v] /\
      -1 <= v /\ v < 3 /\
      ((List.length data <= 1)%nat -> v == -1) /\
      ((128 <= byte_or_0 data 2)%Z -> 1 <= v).
Proof.
  intros d id data Hid Hst.
  exists (normalized (byte_or_0 data 1) (byte_or_0 data 2)).
  split; [now apply pitch_bend_value|].
  pose proof (byte_or_0_range data 1) as H1.
  pose proof (byte_or_0_range data 2) as H2.
  assert (Hraw : (0 <= Z.lor (Z.shiftl (byte_or_0 data 2) 7) (byte_or_0 data 1)
                  < 32768)%Z).
  { change 32768%Z with (2 ^ 15)%Z. apply lor_below_pow2; [lia| |lia].
    rewrite Z.shiftl_mul_pow2 by lia. lia. }
  assert (Hge : (Z.shiftl (byte_or_0 data 2) 7
                 <= Z.lor (Z.shiftl (byte_or_0 data 2) 7) (byte_or_0 data 1))%Z).
  { pose proof (Z.add_lor_land (Z.shiftl (byte_or_0 data 2) 7) (byte_or_0 data 1)).
    pose proof (land_below (Z.shiftl (byte_or_0 data 2) 7) (byte_or_0 data 1)).
    lia. }
  unfold normalized, Qdiv, Qmult, Qinv, inject_Z, Qle, Qlt, Qeq.
  cbn [Qnum Qden]. repeat split; try (cbn; lia).
  - intros Hlen.
    assert (E1 : byte_or_0 data 1 = 0%Z).
    { unfold byte_or_0, at_index.
      rewrite (proj2 (lookup_ge_None data 1%nat)) by lia. reflexivity. }
    assert (E2 : byte_or_0 data 2 = 0%Z).
    { unfold byte_or_0, at_index.
      rewrite (proj2 (lookup_ge_None data 2%nat)) by lia. reflexivity. }
    rewrite E1, E2. reflexivity.
  - intros Hbig.
    pose proof (Z.shiftl_mul_pow2 (byte_or_0 data 2) 7 ltac:(lia)) as Hsh.
    change (2 ^ 7)%Z with 128%Z in Hsh. cbn. lia.
Qed.

Lemma pitch_bend_on_any_bytes_witness :
  exists v,
    onmidimessage listening "input-0" (Some [xe0]) = [pitch_bend_message v] /\
    v == -1.
Proof.
  destruct (pitch_bend_on_any_bytes listening "input-0" [xe0] eq_refl eq_refl)
    as (v & Hv & _ & _ & Hshort & _).
  exists v. split; [exact Hv|]. apply Hshort. cbn. lia.
Defined.

(** X17. The handler refines the one of the earlier version of the
    dispatcher: on every message, what the earlier handler dispatched is
    what the present handler dispatches, without the pitch-bend events. *)
Theorem earlier_handler_is_the_control_change_part :
  forall d id data,
    onmidimessage_cc d id data = List.filter is_cc_message (onmidimessage d id data).
Proof.
  intros d id data. unfold onmidimessage_cc, onmidimessage.
  destruct (bool_decide _); [|reflexivity].
  destruct data as [bytes|]; [|reflexivity].
  destruct (_ =? 176)%Z; [reflexivity|].
  destruct (_ =? 224)%Z; reflexivity.
Qed.

(** The dispatcher after a granted first request. *)
Lemma getMidiAccess_granted d inputs :
  access d = access_null ->
  getMidiAccess true (granted inputs) d =
    ({| access := access_granted inputs;
        active := match active d with
                  | Some a => Some a
                  | None => head (List.map input_id inputs)
                  end;
        handled := List.map input_id inputs |},
     returned (List.map input_id inputs)).
Proof.
  intros Ha. unfold getMidiAccess. rewrite Ha. cbn.
  destruct (List.map input_id inputs), (active d); reflexivity.
Qed.

(** X18. The first granted request returns the ids of all inputs in the
    order of the inputs map and makes the first of them the active input,
    unless an active input was chosen before.  From then on a message
    dispatches events only when it comes from the active input and that
    input is one of those found. *)
Theorem first_access_selects_the_first_input :
  forall d inputs,
    access d = access_null ->
    let r := getMidiAccess true (granted inputs) d in
    snd r = returned (List.map input_id inputs) /\
    active (fst r) =
      match active d with
      | Some a => Some a
      | None => head (List.map input_id inputs)
      end /\
    (forall id data,
       deliver (fst r) id data <> [] ->
       Some id = active (fst r) /\ In id (List.map input_id inputs)) /\
    (forall id data,
       In id (List.map input_id inputs) -> Some id = active (fst r) ->
       deliver (fst r) id data =
         onmidimessage {| activeMidiInputId := Some id |} id data).
Proof.
  intros d inputs Ha r. subst r. rewrite (getMidiAccess_granted _ _ Ha).
  cbn [fst snd active]. split; [reflexivity|]. split; [reflexivity|]. split.
  - intros id data Hne. unfold deliver in Hne. cbn [handled active] in Hne.
    destruct (bool_decide_reflect (id ∈ List.map input_id inputs)) as [Hin|Hin];
      [|contradiction].
    split; [|now apply list_elem_of_In].
    unfold onmidimessage in Hne. cbn [activeMidiInputId] in Hne.
    destruct (bool_decide_reflect
                (Some id = match active d with
                           | Some a => Some a
                           | None => head (List.map input_id inputs)
                           end)) as [He|He]; [exact He|contradiction].
  - intros id data Hin He. unfold deliver. cbn [handled active].
    rewrite bool_decide_eq_true_2 by (now apply list_elem_of_In).
    now rewrite <- He.
Qed.

Lemma first_access_selects_the_first_input_witness :
  access fresh = access_null /\
  snd (getMidiAccess true (granted [keyboard; pad]) fresh) =
    returned ["input-0"; "input-1"] /\
  active (fst (getMidiAccess true (granted [keyboard; pad]) fresh)) =
    Some "input-0".
Proof.
  split; [reflexivity|].
  pose proof (first_access_selects_the_first_input fresh [keyboard; pad] eq_refl) as H.
  cbv zeta in H. split; [exact (proj1 H)|exact (proj1 (proj2 H))].
Defined.

(** X20. A rejected request is not reported as such: the exception is
    stored in [access], the call ends in a [TypeError], and so does every
    later call of [getMidiAccess] and of [getDeviceName], without a new
    request being made. *)
Theorem rejected_request_poisons_the_dispatcher :
  forall d name,
    access d = access_null ->
    let r := getMidiAccess true (rejected name) d in
    snd r = threw_TypeError /\
    access (fst r) = access_exception name /\
    (forall supported request,
       getMidiAccess supported request (fst r) = (fst r, threw_TypeError)) /\
    (forall id, getDeviceName id (fst r) = threw_TypeError).
Proof.
  intros d name Ha r. subst r. unfold getMidiAccess. rewrite Ha. cbn.
  repeat split.
Qed.

Lemma rejected_request_poisons_the_dispatcher_witness :
  access fresh = access_null /\
  snd (getMidiAccess true (granted [keyboard])
         (fst (getMidiAccess true (rejected "SecurityError") fresh)))
  = threw_TypeError.
Proof.
  split; [reflexivity|].
  pose proof (rejected_request_poisons_the_dispatcher fresh "SecurityError"
                eq_refl) as H.
  cbv zeta in H.
  rewrite (proj1 (proj2 (proj2 H)) true (granted [keyboard])). reflexivity.
Defined.

Lemma inputs_get_found inputs : forall i,
  NoDup (List.map input_id inputs) -> In i inputs ->
  inputs_get (input_id i) inputs = Some i.
Proof.
  induction inputs as [|j inputs IH]; intros i Hnd Hin; [contradiction|].
  cbn in Hnd. apply NoDup_cons in Hnd. destruct Hnd as [Hj Hnd].
  unfold inputs_get. cbn [List.find].
  destruct (bool_decide_reflect (input_id j = input_id i)) as [He|He].
  - destruct Hin as [->|Hin]; [reflexivity|].
    exfalso. apply Hj. rewrite He. apply list_elem_of_In.
    now apply in_map.
  - destruct Hin as [->|Hin]; [now elim He|]. now apply IH.
Qed.

Lemma inputs_get_missing id inputs :
  ~ In id (List.map input_id inputs) -> inputs_get id inputs = None.
Proof.
  induction inputs as [|j inputs IH]; intros Hn; [reflexivity|].
  unfold inputs_get. cbn [List.find].
  destruct (bool_decide_reflect (input_id j = id)) as [He|He].
  - exfalso. apply Hn. left. exact He.
  - apply IH. intros H. apply Hn. now right.
Qed.

(** X22. [getDeviceName] answers null before any access; after a granted
    request it answers, for each id that [getMidiAccess] returned, the name
    of the input with that id, and null for any other id. *)
Theorem device_name_lookup :
  forall d inputs,
    access d = access_null ->
    NoDup (List.map input_id inputs) ->
    let d1 := fst (getMidiAccess true (granted inputs) d) in
    (forall id, getDeviceName id d = returned None) /\
    (forall i, In i inputs ->
       getDeviceName (input_id i) d1 = returned (input_name i)) /\
    (forall id, ~ In id (List.map input_id inputs) ->
       getDeviceName id d1 = returned None).
Proof.
  intros d inputs Ha Hnd d1. subst d1.
  rewrite (getMidiAccess_granted _ _ Ha). cbn [fst].
  split; [|split].
  - intros id. unfold getDeviceName. now rewrite Ha.
  - intros i Hi. unfold getDeviceName. cbn [access].
    now rewrite (inputs_get_found _ _ Hnd Hi).
  - intros id Hn. unfold getDeviceName. cbn [access].
    now rewrite (inputs_get_missing _ _ Hn).
Qed.

Lemma device_name_lookup_witness :
  access fresh = access_null /\
  NoDup (List.map input_id [keyboard; pad]) /\
  getDeviceName "input-0" (fst (getMidiAccess true (granted [keyboard; pad]) fresh))
    = returned (Some "Keystation") /\
  getDeviceName "input-1" (fst (getMidiAccess true (granted [keyboard; pad]) fresh))
    = returned None.
Proof.
  assert (Hnd : NoDup (List.map input_id [keyboard; pad])).
  { cbn. constructor.
    - intros H. apply list_elem_of_In in H. destruct H as [H|[]]. discriminate H.
    - constructor; [|constructor]. intros H. apply list_elem_of_In in H.
      contradiction. }
  split; [reflexivity|]. split; [exact Hnd|].
  pose proof (device_name_lookup fresh [keyboard; pad] eq_refl Hnd) as H.
  cbv zeta in H. destruct H as (_ & Hfound & _).
  split.
  - exact (Hfound keyboard (or_introl eq_refl)).
  - exact (Hfound pad (or_intror (or_introl eq_refl))).
Defined.

End MidiFurther.

(** * Properties of the prompt grid *)

Section PromptGrid.
Import PromptDjMidi.

Lemma map_has_In id m : map_has id m = true <-> In id (List.map fst m).
Proof.
  unfold map_has. rewrite bool_decide_eq_true. apply list_elem_of_In.
Qed.

(** Membership in the order the constructor computes. *)
Lemma initial_order_In ps saved id :
  In id (initial_order ps saved) <-> In id (List.map fst ps).
Proof.
  destruct saved as [parsed|]; cbn [initial_order]; [|reflexivity].
  rewrite in_app_iff, !filter_In, negb_true_iff, bool_decide_eq_false.
  rewrite list_elem_of_In, filter_In, map_has_In.
  split.
  - intros [[_ H]|[H _]]; exact H.
  - intros H. destruct (decide (id ∈ parsed)) as [Hp|Hp];
      rewrite list_elem_of_In in Hp.
    + left. auto.
    + right. split; [exact H|]. intros [Hp' _]. contradiction.
Qed.

Lemma NoDup_List_filter {A} (f : A -> bool) (l : list A) :
  NoDup l -> NoDup (List.filter f l).
Proof.
  induction 1 as [|x l Hx Hl IH]; cbn; [constructor|].
  destruct (f x); [|exact IH].
  constructor; [|exact IH].
  rewrite list_elem_of_In, filter_In. rewrite list_elem_of_In in Hx. tauto.
Qed.

(** X23. The order the constructor computes names exactly the keys of the
    prompt map, whatever was stored.  With nothing stored it is the order
    of the map.  Otherwise it starts with the stored ids that are still
    keys, in their stored order, followed by keys the stored order does not
    have.  When the stored order has no duplicates (the keys of a map have
    none), neither has the computed order, and it has one id per prompt. *)
Theorem initial_order_names_the_prompts :
  forall ps saved,
    (forall id, In id (initial_order ps saved) <-> In id (List.map fst ps)) /\
    (saved = None -> initial_order ps saved = List.map fst ps) /\
    (forall parsed, saved = Some parsed ->
       exists added,
         initial_order ps saved =
           List.filter (fun id => map_has id ps) parsed ++ added /\
         forall id, In id added -> ~ In id parsed) /\
    (NoDup (List.map fst ps) ->
     (forall parsed, saved = Some parsed -> NoDup parsed) ->
     NoDup (initial_order ps saved) /\
     List.length (initial_order ps saved) = List.length ps).
Proof.
  intros ps saved. split; [intros id; apply initial_order_In|].
  split; [intros ->; reflexivity|]. split.
  - intros parsed ->. cbn [initial_order]. eexists. split; [reflexivity|].
    intros id Hid Hp. apply filter_In in Hid. destruct Hid as [Hk Hn].
    apply negb_true_iff, bool_decide_eq_false in Hn. apply Hn.
    apply list_elem_of_In, filter_In. split; [exact Hp|now apply map_has_In].
  - intros Hkeys Hsaved.
    assert (Hnd : NoDup (initial_order ps saved)).
    { destruct saved as [parsed|]; cbn [initial_order]; [|exact Hkeys].
      apply NoDup_app. split; [|split].
      - apply NoDup_List_filter, Hsaved. reflexivity.
      - intros id Hv Ha. apply list_elem_of_In, filter_In in Ha.
        destruct Ha as [_ Hn].
        apply negb_true_iff, bool_decide_eq_false in Hn. exact (Hn Hv).
      - apply NoDup_List_filter, Hkeys. }
    split; [exact Hnd|].
    rewrite <- (length_map fst ps). apply Permutation_length.
    apply NoDup_Permutation; [exact Hnd|exact Hkeys|].
    intros id. rewrite !list_elem_of_In. apply initial_order_In.
Qed.

Lemma initial_order_names_the_prompts_witness :
  NoDup (List.map fst Fixtures.prompt_map) /\
  NoDup ["prompt-2"; "gone"; "prompt-0"] /\
  initial_order Fixtures.prompt_map (Some ["prompt-2"; "gone"; "prompt-0"]) =
    ["prompt-2"; "prompt-0"; "prompt-1"] /\
  NoDup (initial_order Fixtures.prompt_map (Some ["prompt-2"; "gone"; "prompt-0"])).
Proof.
  assert (Hk : NoDup (List.map fst Fixtures.prompt_map))
    by (apply (bool_decide_unpack _); vm_compute; exact I).
  assert (Hs : NoDup ["prompt-2"; "gone"; "prompt-0"])
    by (apply (bool_decide_unpack _); vm_compute; exact I).
  split; [exact Hk|]. split; [exact Hs|]. split; [vm_compute; reflexivity|].
  apply (proj2 (proj2 (proj2 (initial_order_names_the_prompts Fixtures.prompt_map
                                (Some ["prompt-2"; "gone"; "prompt-0"]))))).
  - exact Hk.
  - intros parsed [= <-]. exact Hs.
Defined.

(** *** Arrays *)

Lemma indexOf_found l x :
  In x l ->
  exists i, indexOf l x = Z.of_nat i /\ l !! i = Some x /\
            (i < List.length l)%nat /\
            forall j, (j < i)%nat -> l !! j <> Some x.
Proof.
  intros Hin. unfold indexOf.
  destruct (list_find (fun y => y = x) l) as [[i y]|] eqn:E.
  - apply list_find_Some in E. destruct E as (Hi & -> & Hfirst).
    exists i. split; [reflexivity|]. split; [exact Hi|].
    split; [now apply lookup_lt_Some in Hi|].
    intros j Hj Hl. exact (Hfirst j x Hl Hj eq_refl).
  - apply list_find_None in E. rewrite Forall_forall in E.
    exfalso. apply (E x); [now apply list_elem_of_In|reflexivity].
Qed.

Lemma indexOf_range l x :
  indexOf l x = (-1)%Z \/
  exists i, indexOf l x = Z.of_nat i /\ (i < List.length l)%nat.
Proof.
  unfold indexOf.
  destruct (list_find (fun y => y = x) l) as [[i y]|] eqn:E; [|now left].
  right. exists i. split; [reflexivity|].
  apply list_find_Some in E. destruct E as (Hi & _).
  now apply lookup_lt_Some in Hi.
Qed.

Lemma splice_start_index i l :
  (i <= List.length l)%nat -> splice_start (Z.of_nat i) l = i.
Proof.
  intros Hi. unfold splice_start.
  destruct (Z.ltb_spec (Z.of_nat i) 0); lia.
Qed.

Lemma splice_start_le start l : (splice_start start l <= List.length l)%nat.
Proof.
  unfold splice_start. destruct (Z.ltb_spec start 0); lia.
Qed.

(** The start index of a removal at an index that [indexOf] gave, on an
    array that is not empty, is an index of the array. *)
Lemma splice_start_indexOf l x :
  l <> [] -> (splice_start (indexOf l x) l < List.length l)%nat.
Proof.
  intros Hne.
  assert (0 < List.length l)%nat by (destruct l; [contradiction|cbn; lia]).
  destruct (indexOf_range l x) as [->|(i & -> & Hi)].
  - unfold splice_start. cbn. lia.
  - now rewrite splice_start_index by lia.
Qed.

Lemma splice_remove_some start l :
  (splice_start start l < List.length l)%nat ->
  exists x, splice_remove start l = (Some x, delete (splice_start start l) l) /\
            l ≡ₚ x :: delete (splice_start start l) l.
Proof.
  intros Hlt. unfold splice_remove.
  destruct (lookup_lt_is_Some_2 l _ Hlt) as [x Hx].
  exists x. rewrite Hx. split; [reflexivity|].
  now apply delete_Permutation.
Qed.

Lemma splice_insert_Permutation start x l : splice_insert start x l ≡ₚ x :: l.
Proof.
  unfold splice_insert.
  rewrite <- Permutation_middle. now rewrite take_drop.
Qed.

(** *** Reordering *)

(** X24. Dropping the dragged prompt on another prompt of the order moves it
    to the index the target had: the new order is a rearrangement of the
    old one, the prompts other than the dragged one keep their relative
    order, and the new order is what is written to local storage. *)
Theorem drop_moves_the_dragged_prompt :
  forall c dragged target,
    organizeMode c = true ->
    draggedPromptId c = Some dragged -> dragged <> "" ->
    dragged <> target ->
    In dragged (promptOrder c) -> In target (promptOrder c) ->
    exists c' j,
      handleDrop target c = Some c' /\
      indexOf (promptOrder c) target = Z.of_nat j /\
      promptOrder c' !! j = Some dragged /\
      promptOrder c' ≡ₚ promptOrder c /\
      filter (fun y => y <> dragged) (promptOrder c') =
        filter (fun y => y <> dragged) (promptOrder c) /\
      storedOrder c' = Some (promptOrder c') /\
      prompts c' = prompts c.
Proof.
  intros c dragged target Hmode Hdrag Hne Hdt Hind Hint.
  destruct (indexOf_found _ _ Hind) as (i & Hi & Hli & Hilt & _).
  destruct (indexOf_found _ _ Hint) as (j & Hj & Hlj & Hjlt & _).
  assert (Hlen : List.length (delete i (promptOrder c)) =
                 (List.length (promptOrder c) - 1)%nat).
  { rewrite length_delete; [reflexivity|]. now exists dragged. }
  set (l1 := delete i (promptOrder c)) in *.
  set (l2 := take j l1 ++ dragged :: drop j l1).
  exists {| prompts := prompts c; promptOrder := l2;
            organizeMode := organizeMode c;
            draggedPromptId := draggedPromptId c;
            storedOrder := Some l2; dispatched := dispatched c |}, j.
  split; [|split; [exact Hj|cbn [promptOrder storedOrder prompts]]].
  - unfold handleDrop. rewrite Hmode, Hdrag. cbn [negb orb no_dragged default].
    rewrite (bool_decide_eq_false_2 _ Hne), (bool_decide_eq_false_2 _ Hdt).
    change (id dragged) with dragged. rewrite Hi, Hj. unfold splice_remove, splice_insert.
    rewrite splice_start_index by lia. rewrite Hli. fold l1.
    rewrite splice_start_index by lia. reflexivity.
  - split; [|split; [|split; [|split; reflexivity]]].
    + subst l2. rewrite lookup_app_r by (rewrite length_take; lia).
      rewrite length_take.
      replace (j - j `min` List.length l1)%nat with 0%nat by lia. reflexivity.
    + subst l2. rewrite <- Permutation_middle, take_drop. subst l1.
      symmetry. now apply delete_Permutation.
    + subst l2. rewrite filter_app, filter_cons_False by (intros H; now apply H).
      rewrite <- filter_app, take_drop. subst l1.
      rewrite delete_take_drop.
      rewrite <- (take_drop_middle (promptOrder c) i dragged Hli) at 3.
      rewrite !filter_app.
      rewrite (filter_cons_False _ dragged) by (intros H; now apply H).
      reflexivity.
Qed.

Lemma drop_moves_the_dragged_prompt_witness :
  organizeMode (dragging Fixtures.prompt_map) = true /\
  draggedPromptId (dragging Fixtures.prompt_map) = Some "prompt-2" /\
  In "prompt-2" (promptOrder (dragging Fixtures.prompt_map)) /\
  In "prompt-0" (promptOrder (dragging Fixtures.prompt_map)) /\
  exists c',
    handleDrop "prompt-0" (dragging Fixtures.prompt_map) = Some c' /\
    promptOrder c' = ["prompt-2"; "prompt-0"; "prompt-1"] /\
    promptOrder c' ≡ₚ promptOrder (dragging Fixtures.prompt_map).
Proof.
  assert (H2 : In "prompt-2" (promptOrder (dragging Fixtures.prompt_map)))
    by (cbn; tauto).
  assert (H0 : In "prompt-0" (promptOrder (dragging Fixtures.prompt_map)))
    by (cbn; tauto).
  split; [reflexivity|]. split; [reflexivity|]. split; [exact H2|].
  split; [exact H0|].
  destruct (drop_moves_the_dragged_prompt (dragging Fixtures.prompt_map)
              "prompt-2" "prompt-0" eq_refl eq_refl
              ltac:(discriminate) ltac:(discriminate) H2 H0)
    as (c' & j & Hc & _ & _ & Hperm & _).
  exists c'. split; [exact Hc|]. split; [|exact Hperm].
  vm_compute in Hc. injection Hc as <-. reflexivity.
Defined.

(** *** Prompt changes *)

Lemma map_set_keys id v m :
  map_has id m = true -> List.map fst (map_set id v m) = List.map fst m.
Proof.
  intros Hh. unfold map_set. rewrite Hh. clear Hh.
  induction m as [|[k p] m IH]; [reflexivity|]. cbn [List.map fst].
  rewrite IH. destruct (bool_decide_reflect (k = id)) as [->|]; reflexivity.
Qed.

Lemma map_get_set id v m k :
  map_has id m = true ->
  map_get k (map_set id v m) = if bool_decide (k = id) then Some v else map_get k m.
Proof.
  intros Hh. unfold map_set. rewrite Hh.
  apply map_has_In in Hh. unfold map_get.
  induction m as [|[k0 p] m IH]; [contradiction|].
  cbn [List.map List.find fst].
  destruct (bool_decide_reflect (k0 = id)) as [->|Hk0]; cbn [fst].
  - destruct (bool_decide_reflect (id = k)) as [<-|Hk].
    + now rewrite bool_decide_eq_true_2.
    + rewrite (bool_decide_eq_false_2 (k = id)) by congruence.
      destruct (decide (id ∈ List.map fst m)) as [Hin|Hin].
      * rewrite IH by (now apply list_elem_of_In).
        now rewrite (bool_decide_eq_false_2 (k = id)) by congruence.
      * assert (Hsame : List.map
                  (fun kv : string * Prompt =>
                     if bool_decide (fst kv = id) then (id, v) else kv) m = m).
        { clear IH Hh. induction m as [|[k1 p1] m IHm]; [reflexivity|].
          cbn [List.map fst] in *.
          rewrite IHm by (intros H; apply Hin; now right).
          rewrite (bool_decide_eq_false_2 (k1 = id)); [reflexivity|].
          intros ->. apply Hin. now left. }
        now rewrite Hsame.
  - destruct Hh as [Hh|Hh]; [cbn in Hh; contradiction|].
    destruct (bool_decide_reflect (k0 = k)) as [->|Hk].
    + now rewrite (bool_decide_eq_false_2 (k = id)).
    + now apply IH.
Qed.

(** X25. A prompt change for an id the map does not have changes nothing
    and dispatches nothing.  For an id the map has, the entry under that id
    takes the text, weight and controller of the event and keeps its own
    id and colour; every other entry, the keys and their order, and the
    order of the grid stay as they were, and the new map is dispatched once
    as [prompts-changed]. *)
Theorem prompt_change_updates_one_entry :
  forall detail c,
    let id := LiveMusicHelper.promptId detail in
    let c' := handlePromptChanged detail c in
    (map_get id (prompts c) = None -> c' = c) /\
    (forall old, map_get id (prompts c) = Some old ->
       map_get id (prompts c') =
         Some {| LiveMusicHelper.promptId := LiveMusicHelper.promptId old;
                 LiveMusicHelper.text := LiveMusicHelper.text detail;
                 LiveMusicHelper.weight := LiveMusicHelper.weight detail;
                 LiveMusicHelper.cc := LiveMusicHelper.cc detail;
                 LiveMusicHelper.color := LiveMusicHelper.color old |} /\
       (forall k, k <> id -> map_get k (prompts c') = map_get k (prompts c)) /\
       List.map fst (prompts c') = List.map fst (prompts c) /\
       promptOrder c' = promptOrder c /\
       dispatched c' = dispatched c ++ [prompts_changed (prompts c')]).
Proof.
  intros detail c id c'. subst c'. unfold handlePromptChanged. fold id.
  split.
  - intros ->. reflexivity.
  - intros old Hold. rewrite Hold. cbn [prompts promptOrder dispatched].
    assert (Hhas : map_has id (prompts c) = true).
    { apply map_has_In. unfold map_get in Hold.
      destruct (List.find _ (prompts c)) as [[k p]|] eqn:E; [|discriminate].
      apply find_some in E. destruct E as [Hin Hk].
      apply bool_decide_eq_true in Hk. cbn in Hk. subst k.
      apply in_map_iff. exists (id, p). auto. }
    split; [|split; [|split; [|split; reflexivity]]].
    + rewrite map_get_set by exact Hhas. now rewrite bool_decide_eq_true_2.
    + intros k Hk. rewrite map_get_set by exact Hhas.
      now rewrite (bool_decide_eq_false_2 _ Hk).
    + now apply map_set_keys.
Qed.

Lemma prompt_change_updates_one_entry_witness :
  map_get "prompt-1" Fixtures.prompt_map = Some Fixtures.prompt_b /\
  LiveMusicHelper.weight
    <$> map_get "prompt-1"
          (prompts (handlePromptChanged
                      {| LiveMusicHelper.promptId := "prompt-1";
                         LiveMusicHelper.text := "Chillwave";
                         LiveMusicHelper.weight := 3 # 2;
                         LiveMusicHelper.cc := 1;
                         LiveMusicHelper.color := "" |}
                      (constructor Fixtures.prompt_map None)))
  = Some (3 # 2) /\
  map_get "gone" Fixtures.prompt_map = None /\
  handlePromptChanged
    {| LiveMusicHelper.promptId := "gone"; LiveMusicHelper.text := "";
       LiveMusicHelper.weight := 1; LiveMusicHelper.cc := 0;
       LiveMusicHelper.color := "" |}
    (constructor Fixtures.prompt_map None)
  = constructor Fixtures.prompt_map None.
Proof.
  assert (H1 : map_get "prompt-1" Fixtures.prompt_map = Some Fixtures.prompt_b)
    by reflexivity.
  assert (H2 : map_get "gone" Fixtures.prompt_map = None) by reflexivity.
  split; [exact H1|]. split; [|split; [exact H2|]].
  - pose proof (proj2 (prompt_change_updates_one_entry
                  {| LiveMusicHelper.promptId := "prompt-1";
                     LiveMusicHelper.text := "Chillwave";
                     LiveMusicHelper.weight := 3 # 2;
                     LiveMusicHelper.cc := 1;
                     LiveMusicHelper.color := "" |}
                  (constructor Fixtures.prompt_map None)) Fixtures.prompt_b H1) as H.
    cbv zeta in H.
    exact (f_equal (fmap LiveMusicHelper.weight) (proj1 H)).
  - exact (proj1 (prompt_change_updates_one_entry
                  {| LiveMusicHelper.promptId := "gone"; LiveMusicHelper.text := "";
                     LiveMusicHelper.weight := 1; LiveMusicHelper.cc := 0;
                     LiveMusicHelper.color := "" |}
                  (constructor Fixtures.prompt_map None)) H2).
Defined.

(** *** The grid over time *)

(** On an order that is not empty a drop always yields an order, and the
    new order is a rearrangement of the old one, also when the dragged id or
    the target is not in the order. *)
Lemma handleDrop_rearranges target c :
  promptOrder c <> [] ->
  exists c',
    handleDrop target c = Some c' /\
    promptOrder c' ≡ₚ promptOrder c /\
    prompts c' = prompts c /\
    (c' = c \/ storedOrder c' = Some (promptOrder c')).
Proof.
  intros Hne. unfold handleDrop.
  destruct (negb (organizeMode c) || no_dragged (draggedPromptId c));
    [exists c; auto|].
  destruct (bool_decide _); [exists c; auto|].
  destruct (splice_remove_some _ _
              (splice_start_indexOf (promptOrder c)
                 (default "" (draggedPromptId c)) Hne))
    as (x & -> & Hperm).
  eexists. split; [reflexivity|]. cbn [promptOrder prompts storedOrder].
  split; [|split; [reflexivity|right; reflexivity]].
  etransitivity; [apply splice_insert_Permutation|]. symmetry. exact Hperm.
Qed.

Lemma consistent_act keys a c :
  keys <> [] ->
  consistent c -> List.map fst (prompts c) = keys ->
  exists c', act a c = Some c' /\ consistent c' /\ List.map fst (prompts c') = keys.
Proof.
  intros Hkeys (Hin & Hnd & Hst) Hk.
  destruct a as [|id|id| |detail]; cbn [act].
  - eexists. split; [reflexivity|]. split; [|exact Hk]. now split.
  - eexists. split; [reflexivity|]. unfold handleDragStart.
    destruct (negb (organizeMode c)); (split; [|exact Hk]); now split.
  - assert (Hne : promptOrder c <> []).
    { destruct keys as [|k keys]; [contradiction|].
      intros He. specialize (Hin k). rewrite He, Hk in Hin.
      apply Hin. now left. }
    destruct (handleDrop_rearranges id c Hne) as (c' & -> & Hperm & Hp & Hs).
    exists c'. split; [reflexivity|]. unfold consistent. rewrite Hp.
    split; [|exact Hk]. split; [|split].
    + intros x. rewrite <- Hin. rewrite <- !list_elem_of_In. now rewrite Hperm.
    + now rewrite Hperm.
    + destruct Hs as [->|Hs]; assumption.
  - eexists. split; [reflexivity|]. unfold handleDragEnd.
    destruct (negb (organizeMode c)); (split; [|exact Hk]); now split.
  - eexists. split; [reflexivity|].
    destruct (prompt_change_updates_one_entry detail c) as [Hnone Hsome].
    cbv zeta in Hnone, Hsome.
    destruct (map_get (LiveMusicHelper.promptId detail) (prompts c)) as [old|] eqn:E.
    + destruct (Hsome old eq_refl) as (_ & _ & Hkeys' & Hord & _).
      unfold consistent. rewrite Hkeys', Hord. split; [|exact Hk].
      split; [exact Hin|]. split; [exact Hnd|].
      unfold handlePromptChanged. rewrite E. exact Hst.
    + rewrite (Hnone eq_refl). split; [|exact Hk]. now split.
Qed.

(** X26. Whatever the user does in the grid (organize mode on and off,
    drags, drops, prompt changes), starting from a map that is not empty
    and a stored order without duplicates: every action yields a grid, the
    order always names exactly the keys of the map, each once, so the
    prompt that [renderPrompts] looks up for an id of the order is always
    there, and the stored order is always the order shown. *)
Theorem grid_stays_consistent :
  forall ps saved l,
    ps <> [] ->
    NoDup (List.map fst ps) ->
    (forall parsed, saved = Some parsed -> NoDup parsed) ->
    exists c,
      acts l (constructor ps saved) = Some c /\
      consistent c /\
      List.map fst (prompts c) = List.map fst ps /\
      (forall id, In id (promptOrder c) -> is_Some (map_get id (prompts c))).
Proof.
  intros ps saved l Hne Hkeys Hsaved.
  assert (Hk : List.map fst ps <> []) by (destruct ps; [contradiction|discriminate]).
  assert (H0 : consistent (constructor ps saved)).
  { destruct (initial_order_names_the_prompts ps saved) as (Hin & _ & _ & Hnd).
    split; [exact Hin|]. split; [exact (proj1 (Hnd Hkeys Hsaved))|reflexivity]. }
  assert (Hrun : forall c, consistent c -> List.map fst (prompts c) = List.map fst ps ->
            exists c', acts l c = Some c' /\ consistent c' /\
                       List.map fst (prompts c') = List.map fst ps).
  { induction l as [|a l IH]; intros c Hc Hkc.
    - exists c. auto.
    - destruct (consistent_act _ a c Hk Hc Hkc) as (c1 & Ha & Hc1 & Hk1).
      cbn [acts]. rewrite Ha. now apply IH. }
  destruct (Hrun _ H0 eq_refl) as (c & Hc & Hcons & Hkc).
  exists c. split; [exact Hc|]. split; [exact Hcons|]. split; [exact Hkc|].
  intros id Hid. apply (proj1 Hcons) in Hid.
  unfold map_get. clear - Hid.
  induction (prompts c) as [|[k p] m IH]; [contradiction|].
  cbn [List.find fst]. destruct (bool_decide_reflect (k = id)) as [->|Hn].
  - now eexists.
  - destruct Hid as [Hid|Hid]; [cbn in Hid; contradiction|]. now apply IH.
Qed.

Lemma grid_stays_consistent_witness :
  Fixtures.prompt_map <> [] /\
  NoDup (List.map fst Fixtures.prompt_map) /\
  exists c,
    acts [AToggleOrganize; ADragStart "prompt-2"; ADrop "prompt-0"; ADragEnd]
      (constructor Fixtures.prompt_map (Some ["prompt-1"; "gone"])) = Some c /\
    consistent c.
Proof.
  assert (Hk : NoDup (List.map fst Fixtures.prompt_map))
    by (apply (bool_decide_unpack _); vm_compute; exact I).
  assert (Hs : forall parsed, Some ["prompt-1"; "gone"] = Some parsed -> NoDup parsed).
  { intros parsed [= <-]. apply (bool_decide_unpack _). vm_compute. exact I. }
  split; [discriminate|]. split; [exact Hk|].
  destruct (grid_stays_consistent Fixtures.prompt_map (Some ["prompt-1"; "gone"])
              [AToggleOrganize; ADragStart "prompt-2"; ADrop "prompt-0"; ADragEnd]
              ltac:(discriminate) Hk Hs) as (c & Hc & Hcons & _).
  exists c. split; [exact Hc|exact Hcons].
Defined.

End PromptGrid.

(** * Properties of the recorder *)

Section RecordingProperties.
Import Recording.

Lemma ondataavailable_chunks data r :
  mediaRecorder (ondataavailable data r) = mediaRecorder r /\
  List.concat (recordedChunks (ondataavailable data r)) =
    List.concat (recordedChunks r) ++ data /\
  dispatched (ondataavailable data r) = dispatched r.
Proof.
  unfold ondataavailable. destruct data as [|b data]; cbn.
  - now rewrite app_nil_r.
  - rewrite concat_app. cbn. now rewrite app_nil_r.
Qed.

Lemma meanwhile_recording ms : forall r,
  mediaRecorder r = Some recording ->
  mediaRecorder (List.fold_left (fun acc m => meanwhile m acc) ms r) =
    Some recording /\
  List.concat (recordedChunks (List.fold_left (fun acc m => meanwhile m acc) ms r)) =
    List.concat (recordedChunks r) ++ List.concat (arrived ms) /\
  dispatched (List.fold_left (fun acc m => meanwhile m acc) ms r) = dispatched r.
Proof.
  induction ms as [|m ms IH]; intros r Hr; cbn [List.fold_left arrived].
  - cbn. now rewrite app_nil_r.
  - destruct m as [data|supported]; cbn [meanwhile arrived].
    + destruct (ondataavailable_chunks data r) as (D1 & D2 & D3).
      destruct (IH (ondataavailable data r)) as (H1 & H2 & H3);
        [now rewrite D1|].
      rewrite H1, H2, H3, D2, D3. cbn [List.concat].
      rewrite <- app_assoc. auto.
    + assert (Hs : startRecording supported r = r)
        by (unfold startRecording; now rewrite Hr).
      rewrite Hs. exact (IH r Hr).
Qed.

Lemma data_after_stop ds : forall r,
  mediaRecorder (List.fold_left (fun acc d => ondataavailable d acc) ds r) =
    mediaRecorder r /\
  List.concat (recordedChunks (List.fold_left (fun acc d => ondataavailable d acc) ds r)) =
    List.concat (recordedChunks r) ++ List.concat ds /\
  dispatched (List.fold_left (fun acc d => ondataavailable d acc) ds r) = dispatched r.
Proof.
  induction ds as [|d ds IH]; intros r; cbn [List.fold_left List.concat].
  - now rewrite app_nil_r.
  - destruct (ondataavailable_chunks d r) as (D1 & D2 & D3).
    destruct (IH (ondataavailable d r)) as (H1 & H2 & H3).
    rewrite H1, H2, H3, D1, D2, D3, <- app_assoc. auto.
Qed.

(** X27. A recording that starts on a supported format and is stopped ends
    in one [recording-finished] event whose blob is the data that arrived
    between the start and the stop event, in order, whether it arrived
    before or after the call of [stopRecording]; empty data is left out,
    and calls of [startRecording] while the recording runs change nothing,
    so they do not drop what was recorded. *)
Theorem recording_collects_what_arrived :
  forall r ms ds,
    mediaRecorder r <> Some recording ->
    let running := List.fold_left (fun acc m => meanwhile m acc) ms
                     (startRecording true r) in
    let stopping := List.fold_left (fun acc d => ondataavailable d acc) ds
                      (stopRecording running) in
    let r' := onstop stopping in
    dispatched r' =
      dispatched r ++ [recording_finished (List.concat (arrived ms ++ ds))] /\
    mediaRecorder r' = Some inactive /\
    stopRecording r' = r'.
Proof.
  intros r ms ds Hr running stopping r'.
  assert (Hstart : startRecording true r =
            {| mediaRecorder := Some recording; recordedChunks := [];
               dispatched := dispatched r |}).
  { unfold startRecording. destruct (mediaRecorder r) as [[]|]; try reflexivity.
    now elim Hr. }
  destruct (meanwhile_recording ms (startRecording true r))
    as (H1 & H2 & H3); [now rewrite Hstart|].
  fold running in H1, H2, H3.
  assert (Hstop : stopRecording running =
            {| mediaRecorder := Some inactive;
               recordedChunks := recordedChunks running;
               dispatched := dispatched running |})
    by (unfold stopRecording; now rewrite H1).
  destruct (data_after_stop ds (stopRecording running)) as (S1 & S2 & S3).
  fold stopping in S1, S2, S3.
  subst r'. unfold onstop, stopRecording at 1.
  cbn [mediaRecorder recordedChunks dispatched].
  rewrite S1, S2, S3, Hstop. cbn [mediaRecorder recordedChunks dispatched].
  rewrite H2, H3, Hstart. cbn [recordedChunks dispatched List.concat app].
  rewrite concat_app. auto.
Qed.

Lemma recording_collects_what_arrived_witness :
  mediaRecorder {| mediaRecorder := None; recordedChunks := []; dispatched := [] |}
    <> Some recording /\
  dispatched
    (onstop
       (List.fold_left (fun acc d => ondataavailable d acc) [[xdf]]
          (stopRecording
             (List.fold_left (fun acc m => meanwhile m acc)
                [data_available [x1a; x45]; data_available []; start_again true]
                (startRecording true
                   {| mediaRecorder := None; recordedChunks := [];
                      dispatched := [] |})))))
  = [recording_finished [x1a; x45; xdf]].
Proof.
  split; [discriminate|].
  exact (proj1 (recording_collects_what_arrived
                  {| mediaRecorder := None; recordedChunks := []; dispatched := [] |}
                  [data_available [x1a; x45]; data_available []; start_again true]
                  [[xdf]] ltac:(discriminate))).
Defined.

End RecordingProperties.
